(** * ETG realtime bridge: record normalisation, bucket mirror, debounced push
    and the server's merge / persist / broadcast cycle.

    The development has four parts.  Part I embeds the JavaScript of
    [public/etg-realtime.js] and [server/server.js]; Part II states and proves
    properties of it.  Part III proves further facts about the embedding
    (objects in enumeration order, the event loop, the push, the server's
    store) and Part IV states the properties they give: of each side alone
    and of the two together.

    Modelling conventions.

    - Data is JSON: everything the program stores or exchanges went through
      [JSON.parse] (localStorage text, request bodies, socket payloads), so a
      value is [null], a boolean, a number, a string, an array or an object.
      [undefined] is not a JSON value; it only arises as the result of reading
      a property, so an expression that may be [undefined] has type
      [option json] with [None] for [undefined].
    - Numbers are integers, printed by [String] in plain decimal.
    - A string is a sequence of code units below 256 (Latin-1): [trim],
      [toLowerCase] and [includes] are given on that range.
    - An object is the list of its own properties in enumeration order
      (array-index keys ascending first, then the other keys in insertion
      order), which is the order of [Object.keys], of [Object.assign] and of the
      spread syntax.  Keys inherited from [Object.prototype] are not modelled.
    - A localStorage slot of the mirror holds the object its text parses to;
      text that is missing, does not parse or parses to a falsy value reads as
      the empty object, exactly as [readGlobalMap] and [readDeskStore] return.
      Storage writes are taken to succeed.
    - [new Date().toISOString()] is an oracle [clock]: [clock n] is the text of
      the [n]-th reading, and the state counts the readings made so far.
    - Timers carry a due time in milliseconds of a logical clock; a timer runs
      at its due time, before any event that happens at or after it.
    - [localeCompare] is an oracle too: the collation of the host decides the
      order of two texts.  [Array.prototype.sort] is stable, so for a
      comparator that orders consistently its result is the one insertion
      gives.
    - The handlers [login], [GET /api/health] and the client's [api] and
      [getToken] are not embedded: they rest on [toUpperCase], random bytes
      and the network, none of which the properties here concern. *)

From Stdlib Require Import String Ascii List ZArith NArith Lia Bool Arith.
From Stdlib Require Import Permutation.
From Stdlib Require Import DecimalString.
Import ListNotations.
Local Open Scope string_scope.
Set Warnings "-register-all".

(* ================================================================== *)
(** * Part I: the embedding                                            *)
(* ================================================================== *)

Module Js.

(** ** Values *)

Inductive json : Type :=
| JNull
| JBool (b : bool)
| JNum (n : Z)
| JStr (s : string)
| JArr (items : list json)
| JObj (props : list (string * json)).

(** Own enumerable properties, in enumeration order. *)
Definition obj : Type := list (string * json).

(** ** Truthiness and the short-circuit operators *)

Definition truthy (v : json) : bool :=
  match v with
  | JNull => false
  | JBool b => b
  | JNum n => negb (n =? 0)%Z
  | JStr s => negb (s =? "")
  | JArr _ => true
  | JObj _ => true
  end.

Definition truthy_opt (v : option json) : bool :=
  match v with
  | None => false
  | Some x => truthy x
  end.

(** [a || b] *)
Definition or_else (a b : option json) : option json :=
  if truthy_opt a then a else b.

(** [a || b] where [b] is known to be defined. *)
Definition or_default (a : option json) (b : json) : json :=
  match a with
  | Some x => if truthy x then x else b
  | None => b
  end.

(** [a && b] *)
Definition and_then (a b : option json) : option json :=
  if truthy_opt a then b else a.

(** ** [String(v)] *)

Fixpoint toStr (v : json) : string :=
  match v with
  | JNull => "null"
  | JBool true => "true"
  | JBool false => "false"
  | JNum n => NilZero.string_of_int (Z.to_int n)
  | JStr s => s
  | JArr l =>
      (fix join (l : list json) : string :=
         match l with
         | [] => ""
         | x :: r =>
             let e := match x with JNull => "" | _ => toStr x end in
             match r with
             | [] => e
             | _ :: _ => e ++ "," ++ join r
             end
         end) l
  | JObj _ => "[object Object]"
  end.

Definition String_ (v : option json) : string :=
  match v with
  | None => "undefined"
  | Some x => toStr x
  end.

(** ** String primitives *)

(** White space and line terminators below 256: TAB, LF, VT, FF, CR, SP, NBSP. *)
Definition is_space (c : ascii) : bool :=
  let n := nat_of_ascii c in
  (((9 <=? n) && (n <=? 13)) || (n =? 32) || (n =? 160))%nat.

Fixpoint trimStart (s : string) : string :=
  match s with
  | EmptyString => EmptyString
  | String c r => if is_space c then trimStart r else s
  end.

Fixpoint trimEnd (s : string) : string :=
  match s with
  | EmptyString => EmptyString
  | String c r =>
      match trimEnd r with
      | EmptyString => if is_space c then EmptyString else String c EmptyString
      | r' => String c r'
      end
  end.

Definition trim (s : string) : string := trimEnd (trimStart s).

(** Upper-case letters below 256 are A-Z and U+00C0..U+00DE except U+00D7;
    each has its lower-case partner 32 code units above. *)
Definition lower_char (c : ascii) : ascii :=
  let n := nat_of_ascii c in
  if (((65 <=? n) && (n <=? 90))
      || ((192 <=? n) && (n <=? 222) && negb (n =? 215)))%nat
  then ascii_of_nat (n + 32)
  else c.

Fixpoint toLowerCase (s : string) : string :=
  match s with
  | EmptyString => EmptyString
  | String c r => String (lower_char c) (toLowerCase r)
  end.

(** [hay.includes(needle)] *)
Fixpoint includes (hay needle : string) : bool :=
  prefix needle hay ||
  match hay with
  | EmptyString => false
  | String _ r => includes r needle
  end.

(** ** Objects *)

(** [o[k]]: a key bound twice reads as its later binding, the way
    [JSON.parse] resolves a repeated key. *)
Fixpoint lookup (k : string) (o : obj) : option json :=
  match o with
  | [] => None
  | (k', v) :: r =>
      match lookup k r with
      | Some w => Some w
      | None => if k' =? k then Some v else None
      end
  end.

Definition keys (o : obj) : list string := map fst o.
Definition values (o : obj) : list json := map snd o.

Definition digit_of (c : ascii) : option N :=
  let n := N_of_ascii c in
  if ((48 <=? n) && (n <=? 57))%N then Some (n - 48)%N else None.

Fixpoint parse_digits (s : string) (acc : N) : option N :=
  match s with
  | EmptyString => Some acc
  | String c r =>
      match digit_of c with
      | Some d => parse_digits r (acc * 10 + d)%N
      | None => None
      end
  end.

(** A key is an array index when it is the canonical decimal text of an
    integer in [0, 2^32 - 2]. *)
Definition array_index (k : string) : option N :=
  match k with
  | EmptyString => None
  | String "0" EmptyString => Some 0%N
  | String "0" _ => None
  | _ =>
      match parse_digits k 0 with
      | Some n => if (n <? 4294967295)%N then Some n else None
      | None => None
      end
  end.

(** Assigning to an existing key keeps its place in the order. *)
Fixpoint replace_prop (k : string) (v : json) (o : obj) : obj :=
  match o with
  | [] => []
  | (k', v') :: r =>
      (if k' =? k then (k', v) else (k', v')) :: replace_prop k v r
  end.

(** Position of a new array-index key: after the smaller indices. *)
Fixpoint insert_index (n : N) (k : string) (v : json) (o : obj) : obj :=
  match o with
  | [] => [(k, v)]
  | (k', v') :: r =>
      match array_index k' with
      | Some m => if (m <? n)%N then (k', v') :: insert_index n k v r
                  else (k, v) :: o
      | None => (k, v) :: o
      end
  end.

(** [o[k] = v] *)
Definition obj_set (k : string) (v : json) (o : obj) : obj :=
  match lookup k o with
  | Some _ => replace_prop k v o
  | None =>
      match array_index k with
      | Some n => insert_index n k v o
      | None => (o ++ [(k, v)])%list
      end
  end.

(** [Object.assign(target, src)] for a source given by its properties. *)
Definition assign (target src : obj) : obj :=
  fold_left (fun acc kv => obj_set (fst kv) (snd kv) acc) src target.

Definition index_key (n : nat) : string :=
  NilZero.string_of_uint (Nat.to_uint n).

Fixpoint indexed (n : nat) (l : list json) : obj :=
  match l with
  | [] => []
  | x :: r => (index_key n, x) :: indexed (S n) r
  end.

(** What [Object.assign] and spread copy from a value: the properties of an
    object, the elements of an array, the characters of a string, nothing
    from the other primitives. *)
Definition own_props (v : json) : obj :=
  match v with
  | JObj o => o
  | JArr l => indexed 0 l
  | JStr s => indexed 0 (map (fun c => JStr (String c EmptyString))
                             (list_ascii_of_string s))
  | _ => []
  end.

(** [v.k] for the named properties the program reads ([id], [reqId],
    [requestId], [status], [createdAt], [updatedAt], [trips]): only an object
    can have them. *)
Definition get (v : json) (k : string) : option json :=
  match v with
  | JObj o => lookup k o
  | _ => None
  end.

(** "Missing or blank after trimming": the value is absent or falsy, or its
    text is empty once trimmed. *)
Definition missing_or_blank (v : option json) : bool :=
  match v with
  | None => true
  | Some x => negb (truthy x) || (trim (toStr x) =? "")
  end.

(** An object as [JSON.parse] builds it and as property definition keeps it:
    no key twice, array-index keys first in ascending order. *)
Fixpoint canonical_from (lo : option N) (past_indices : bool) (o : obj) : bool :=
  match o with
  | [] => true
  | (k, _) :: r =>
      match array_index k with
      | Some n =>
          negb past_indices &&
          match lo with Some m => (m <? n)%N | None => true end &&
          canonical_from (Some n) false r
      | None =>
          negb (existsb (String.eqb k) (keys r)) &&
          canonical_from lo true r
      end
  end.

Definition canonical (o : obj) : bool := canonical_from None false o.

(** ** Vocabulary of the proofs *)

(** The text is empty or starts with a character that [trim] keeps. *)
Definition starts_clean (s : string) : Prop :=
  match s with
  | EmptyString => True
  | String c _ => is_space c = false
  end.

(** Keys already copied, when an index key is still allowed: all of them
    are indices no larger than the bound. *)
Definition below (lo : option N) (past : bool) (acc : obj) : Prop :=
  past = false ->
  forall k, In k (keys acc) ->
    exists m n, array_index k = Some m /\ lo = Some n /\ (m <= n)%N.

(** Ten to the number of characters of [s]. *)
Definition pow10 (s : string) : N := (10 ^ N.of_nat (String.length s))%N.


End Js.

(* ------------------------------------------------------------------ *)
(** ** The browser side: [public/etg-realtime.js]                       *)
(* ------------------------------------------------------------------ *)

Module Client.
Import Js.

(** Callbacks the script hands to [setTimeout]. *)
Inductive callback : Type :=
| PushAllTrips      (* pushAllTripsToServer *)
| LowerFlag.        (* () => { SUPPRESS_FLAG.on = false; } *)

Record timer : Type := mkTimer {
  timer_id : nat;
  due : nat;
  action : callback
}.

Record client : Type := mkClient {
  globalMap : obj;               (* localStorage['etg-trips-global'] *)
  deskStore : obj;               (* localStorage['etg-trips'] *)
  suppress : bool;               (* SUPPRESS_FLAG.on *)
  pushTimer : option nat;        (* let pushTimer = null *)
  timers : list timer;           (* pending timers, oldest first *)
  nextTimerId : nat;
  ticks : nat;                   (* clock readings made so far *)
  pushRuns : list nat;           (* times pushAllTripsToServer ran, oldest first *)
  sent : list (nat * list json)  (* bulk upserts posted: time and [trips] *)
}.

Definition with_globalMap (g : obj) (c : client) : client :=
  mkClient g (deskStore c) (suppress c) (pushTimer c) (timers c)
           (nextTimerId c) (ticks c) (pushRuns c) (sent c).

Definition with_deskStore (d : obj) (c : client) : client :=
  mkClient (globalMap c) d (suppress c) (pushTimer c) (timers c)
           (nextTimerId c) (ticks c) (pushRuns c) (sent c).

Definition with_suppress (b : bool) (c : client) : client :=
  mkClient (globalMap c) (deskStore c) b (pushTimer c) (timers c)
           (nextTimerId c) (ticks c) (pushRuns c) (sent c).

Definition with_pushTimer (p : option nat) (c : client) : client :=
  mkClient (globalMap c) (deskStore c) (suppress c) p (timers c)
           (nextTimerId c) (ticks c) (pushRuns c) (sent c).

Definition with_timers (l : list timer) (c : client) : client :=
  mkClient (globalMap c) (deskStore c) (suppress c) (pushTimer c) l
           (nextTimerId c) (ticks c) (pushRuns c) (sent c).

Definition with_ticks (n : nat) (c : client) : client :=
  mkClient (globalMap c) (deskStore c) (suppress c) (pushTimer c) (timers c)
           (nextTimerId c) n (pushRuns c) (sent c).

(** ** Timers *)

Definition setTimeout (cb : callback) (delay now : nat) (c : client)
  : nat * client :=
  let id := nextTimerId c in
  (id, mkClient (globalMap c) (deskStore c) (suppress c) (pushTimer c)
                (timers c ++ [mkTimer id (now + delay) cb])%list
                (S id) (ticks c) (pushRuns c) (sent c)).

Definition clearTimeout (id : nat) (c : client) : client :=
  with_timers (filter (fun t => negb (timer_id t =? id)%nat) (timers c)) c.

(** ** [statusBucket] *)

Definition statusBucket (status : option json) : string :=
  let s := toLowerCase (String_ (or_else status (Some (JStr "")))) in
  if includes s "completed" || includes s "final" then "completed"
  else if includes s "approved" then "approved"
  else if includes s "rejected" then "rejected"
  else if includes s "policy" then "policy_violation"
  else if includes s "manager" then "pending_manager"
  else "pending".

(** ** [normalizeTrip] (client) *)

(** [String(t.id || t.reqId || t.requestId || '').trim()] *)
Definition resolved_id (t : json) : string :=
  trim (String_ (or_else (or_else (or_else (get t "id") (get t "reqId"))
                                  (get t "requestId"))
                         (Some (JStr "")))).

Section WithClock.
Variable clock : nat -> string.

(** [v || new Date().toISOString()]: the clock is read only when [v] is falsy. *)
Definition or_now (v : option json) (n : nat) : json * nat :=
  match v with
  | Some x => if truthy x then (x, n) else (JStr (clock n), S n)
  | None => (JStr (clock n), S n)
  end.

Definition normalizeTrip (n : nat) (t : json) : option json * nat :=
  if negb (truthy t) then (None, n)
  else
    let id := resolved_id t in
    if id =? "" then (None, n)
    else
      let '(createdAt, n1) := or_now (get t "createdAt") n in
      let '(updatedAt, n2) := or_now (get t "updatedAt") n1 in
      (Some (JObj (assign (assign [] (own_props t))
                          [("id", JStr id);
                           ("createdAt", createdAt);
                           ("updatedAt", updatedAt)])),
       n2).

(** [trips.map(normalizeTrip).filter(Boolean)] *)
Fixpoint normalizeAll (n : nat) (l : list json) : list json * nat :=
  match l with
  | [] => ([], n)
  | t :: r =>
      let '(o, n1) := normalizeTrip n t in
      let '(rest, n2) := normalizeAll n1 r in
      (match o with Some x => x :: rest | None => rest end, n2)
  end.

(** ** Storage *)

Definition readGlobalMap (c : client) : obj := globalMap c.
Definition readDeskStore (c : client) : obj := deskStore c.

(** The original [localStorage.setItem]: only the two slots the mirror reads
    are tracked. *)
Definition orig_setItem (key : string) (value : obj) (c : client) : client :=
  if key =? "etg-trips-global" then with_globalMap value c
  else if key =? "etg-trips" then with_deskStore value c
  else c.

Definition schedulePush (now : nat) (c : client) : client :=
  if suppress c then c
  else
    let c1 := match pushTimer c with
              | Some id => clearTimeout id c
              | None => c
              end in
    let '(id, c2) := setTimeout PushAllTrips 400 now c1 in
    with_pushTimer (Some id) c2.

(** The patched [localStorage.setItem]. *)
Definition setItem (now : nat) (key : string) (value : obj) (c : client)
  : client :=
  let c1 := orig_setItem key value c in
  if negb (suppress c1) then
    if (key =? "etg-trips-global") || (key =? "etg-trips")
       || (key =? "etg-trips-by-id")
    then schedulePush now c1
    else c1
  else c1.

Definition writeGlobalMap (now : nat) (map : obj) (c : client) : client :=
  setItem now "etg-trips-global" map c.

Definition writeDeskStore (now : nat) (store : obj) (c : client) : client :=
  setItem now "etg-trips" store c.

(** ** [mirrorTripsToLocal] *)

Definition buckets : list string :=
  ["pending"; "pending_manager"; "approved"; "rejected"; "policy_violation";
   "completed"].

(** [g[String(t.id)] = Object.assign({}, g[String(t.id)] || {}, t)] *)
Definition upsertGlobal (g : obj) (t : json) : obj :=
  let k := String_ (get t "id") in
  let prev := or_default (lookup k g) (JObj []) in
  obj_set k (JObj (assign (assign [] (own_props prev)) (own_props t))) g.

(** [if (!Array.isArray(store[b])) store[b] = []] *)
Definition ensureArray (store : obj) (b : string) : obj :=
  match lookup b store with
  | Some (JArr _) => store
  | _ => obj_set b (JArr []) store
  end.

(** [String(x && x.id)] *)
Definition entry_id (x : json) : string :=
  String_ (and_then (Some x) (get x "id")).

(** [store[b].push(tr)]; [None] is the TypeError of calling [push] on
    something that is not an array. *)
Definition push (b : string) (tr : json) (store : obj) : option obj :=
  match lookup b store with
  | Some (JArr l) => Some (obj_set b (JArr (l ++ [tr])%list) store)
  | _ => None
  end.

Definition unshift (b : string) (tr : json) (store : obj) : option obj :=
  match lookup b store with
  | Some (JArr l) => Some (obj_set b (JArr (tr :: l)) store)
  | _ => None
  end.

(** The body of [Object.keys(g).forEach] in rebuild mode; reading [tr.status]
    throws when [tr] is [null]. *)
Definition rebuildStep (store : option obj) (kv : string * json) : option obj :=
  match store with
  | None => None
  | Some s =>
      match snd kv with
      | JNull => None
      | tr => push (statusBucket (get tr "status")) tr s
      end
  end.

(** [store[bb] = (store[bb] || []).filter(x => String(x && x.id) !== String(tr.id))] *)
Definition dropFrom (id : string) (store : option obj) (bb : string)
  : option obj :=
  match store with
  | None => None
  | Some s =>
      match lookup bb s with
      | Some (JArr l) =>
          Some (obj_set bb (JArr (filter (fun x => negb (entry_id x =? id)) l)) s)
      | Some v =>
          if truthy v then None
          else Some (obj_set bb (JArr []) s)
      | None => Some (obj_set bb (JArr []) s)
      end
  end.

(** The body of [list.forEach] in merge mode. *)
Definition mergeStep (store : option obj) (tr : json) : option obj :=
  let b := statusBucket (get tr "status") in
  match fold_left (dropFrom (String_ (get tr "id"))) buckets store with
  | None => None
  | Some s => unshift b tr s
  end.

(** Step 2 of [mirrorTripsToLocal]: the bucket store to write, or [None] when
    a TypeError leaves the [try] block before [writeDeskStore]. *)
Definition mirrorBuckets (mergeOnly : bool) (g : obj) (list : list json)
                         (store : obj) : option obj :=
  let store1 := fold_left ensureArray buckets store in
  if negb mergeOnly then
    let store2 := fold_left (fun s b => obj_set b (JArr []) s) buckets store1 in
    fold_left rebuildStep g (Some store2)
  else
    fold_left mergeStep list (Some store1).

Definition items_of (trips : json) : list json :=
  match trips with
  | JArr l => l
  | _ => []
  end.

Definition mirrorTripsToLocal (now : nat) (trips : json) (mergeOnly : bool)
                              (c : client) : client :=
  let '(list, n) := normalizeAll (ticks c) (items_of trips) in
  match list with
  | [] => with_ticks n c
  | _ :: _ =>
      let c1 := with_suppress true (with_ticks n c) in
      let g := fold_left upsertGlobal list (readGlobalMap c1) in
      let c2 := writeGlobalMap now g c1 in
      let c3 := match mirrorBuckets mergeOnly g list (readDeskStore c2) with
                | Some store => writeDeskStore now store c2
                | None => c2
                end in
      snd (setTimeout LowerFlag 0 now c3)
  end.

(** ** [pushAllTripsToServer] *)

(** [if (t && t.id) mergedById[String(t.id)] = t] *)
Definition takeGlobal (merged : obj) (kv : string * json) : obj :=
  let t := snd kv in
  if truthy_opt (and_then (Some t) (get t "id"))
  then obj_set (String_ (get t "id")) t merged
  else merged.

(** [mergedById[id] = Object.assign({}, mergedById[id] || {}, t)] *)
Definition takeDeskEntry (merged : obj) (t : json) : obj :=
  if truthy_opt (and_then (Some t) (get t "id"))
  then
    let id := String_ (get t "id") in
    let prev := or_default (lookup id merged) (JObj []) in
    obj_set id (JObj (assign (assign [] (own_props prev)) (own_props t))) merged
  else merged.

Definition takeDesk (merged : obj) (kv : string * json) : obj :=
  match snd kv with
  | JArr v => fold_left takeDeskEntry v merged
  | _ => merged
  end.

Definition mergedById (g desk : obj) : obj :=
  fold_left takeDesk desk (fold_left takeGlobal g []).

(** [g[id] = Object.assign({}, g[id] || {}, mergedById[id])] *)
Definition refreshGlobal (g : obj) (kv : string * json) : obj :=
  let prev := or_default (lookup (fst kv) g) (JObj []) in
  obj_set (fst kv)
          (JObj (assign (assign [] (own_props prev)) (own_props (snd kv)))) g.

Definition pushAllTripsToServer (now : nat) (c : client) : client :=
  let g := readGlobalMap c in
  let merged := mergedById g (readDeskStore c) in
  let c1 := with_suppress true c in
  let c2 := writeGlobalMap now (fold_left refreshGlobal merged g) c1 in
  let c3 := snd (setTimeout LowerFlag 0 now c2) in
  let trips := filter truthy (values merged) in
  mkClient (globalMap c3) (deskStore c3) (suppress c3) (pushTimer c3)
           (timers c3) (nextTimerId c3) (ticks c3)
           (pushRuns c3 ++ [now])%list
           (match trips with
            | [] => sent c3
            | _ :: _ => (sent c3 ++ [(now, trips)])%list
            end).

(** ** The event loop *)

Definition run_callback (cb : callback) (now : nat) (c : client) : client :=
  match cb with
  | PushAllTrips => pushAllTripsToServer now c
  | LowerFlag => with_suppress false c
  end.

(** The pending timer to run next among those due by [now]: the earliest due,
    the oldest among equals. *)
Fixpoint next_due (now : nat) (l : list timer) : option timer :=
  match l with
  | [] => None
  | t :: r =>
      match next_due now r with
      | Some t' => if ((due t <=? now) && (due t <=? due t'))%nat then Some t
                   else Some t'
      | None => if (due t <=? now)%nat then Some t else None
      end
  end.

Fixpoint advance_n (fuel now : nat) (c : client) : client :=
  match fuel with
  | O => c
  | S f =>
      match next_due now (timers c) with
      | None => c
      | Some t =>
          advance_n f now
            (run_callback (action t) (due t) (clearTimeout (timer_id t) c))
      end
  end.

(** Run every timer that is due by [now].  A callback schedules at most one
    further timer, and that one schedules none, so twice the number of
    pending timers bounds the number of runs. *)
Definition advance (now : nat) (c : client) : client :=
  advance_n (2 * length (timers c)) now c.

(** ** Entry points *)

(** [socket.on('trip:created' | 'trip:updated', trip => ...)] *)
Definition onTrip (now : nat) (trip : json) (c : client) : client :=
  if truthy trip then mirrorTripsToLocal now (JArr [trip]) true c else c.

(** [socket.on('trip:bulk', trips => ...)] *)
Definition onBulk (now : nat) (trips : json) (c : client) : client :=
  match trips with
  | JArr _ => mirrorTripsToLocal now trips true c
  | _ => c
  end.

(** [initialSync]: [resp] is the body of [GET /api/trips], [None] when the
    request fails. *)
Definition initialSync (now : nat) (resp : option json) (c : client) : client :=
  match resp with
  | Some (JArr l) => mirrorTripsToLocal now (JArr l) false c
  | _ => c
  end.

(** A page writes [value] under [key] at time [now]: timers that are due run
    first, then the patched [setItem]. *)
Definition pageWrite (key : string) (value : obj) (now : nat) (c : client)
  : client :=
  setItem now key value (advance now c).

(** ** Vocabulary of the statements *)

(** The list stored under bucket [b]. *)
Definition bucket_list (b : string) (store : obj) : list json :=
  match lookup b store with
  | Some (JArr l) => l
  | _ => []
  end.

(** How many entries of a bucket list carry the id [id], by the test the
    mirror itself uses. *)
Definition occurrences (id : string) (l : list json) : nat :=
  length (filter (fun x => entry_id x =? id) l).

(** Merge mode applied once per record, in the order given. *)
Definition mergeEach (now : nat) (records : list json) (c : client) : client :=
  fold_left (fun c r => mirrorTripsToLocal now (JArr [r]) true c) records c.

(** A record as the mirror stores it under key [k]: an object with unique
    keys whose [id] is the trimmed, non-empty [k] and which carries both
    timestamps. *)
Definition stored_record (kv : string * json) : bool :=
  match snd kv with
  | JObj o =>
      canonical o &&
      match lookup "id" o with
      | Some (JStr i) => (i =? fst kv) && (trim i =? i) && negb (i =? "")
      | _ => false
      end &&
      truthy_opt (lookup "createdAt" o) && truthy_opt (lookup "updatedAt" o)
  | _ => false
  end.

Definition mirrored_map (g : obj) : bool :=
  canonical g && forallb stored_record g.

End WithClock.

(** The classifier as the specification words it: a priority table of
    keywords, first match wins, [pending] when none matches. *)
Definition priority : list (list string * string) :=
  [(["completed"; "final"], "completed");
   (["approved"], "approved");
   (["rejected"], "rejected");
   (["policy"], "policy_violation");
   (["manager"], "pending_manager")].

Fixpoint first_match (rules : list (list string * string)) (s : string)
  : string :=
  match rules with
  | [] => "pending"
  | (keywords, bucket) :: r =>
      if existsb (includes s) keywords then bucket else first_match r s
  end.

Definition classify (status : string) : string :=
  first_match priority (toLowerCase status).

(** ** Page writes over time *)



Definition mirror_key (k : string) : bool :=
  (k =? "etg-trips-global") || (k =? "etg-trips") || (k =? "etg-trips-by-id").




(** Nothing pending and the suppression flag down. *)
Definition quiescent (c : client) : Prop :=
  timers c = [] /\ suppress c = false.

(** What a run of [pushAllTripsToServer] would post. *)
Definition snapshot (c : client) : list json :=
  filter truthy (values (mergedById (globalMap c) (deskStore c))).

(** Bucket [b] of [s] holds an array. *)
Definition arrayed (b : string) (s : obj) : Prop :=
  exists l, lookup b s = Some (JArr l).

(** After a qualifying write at time [t]: the flag is down and the push
    timer set by that write is the only pending timer. *)
Definition armed (t : nat) (c : client) : Prop :=
  suppress c = false /\
  exists id, timers c = [mkTimer id (t + 400) PushAllTrips] /\
             pushTimer c = Some id.



(** ** The rest of the script *)

(** [String(tr.id)] *)
Definition id_of (tr : json) : string := String_ (get tr "id").

(** A record as [normalizeTrip] returns it: its [id] is a non-empty string. *)
Definition normalized (tr : json) : bool :=
  match get tr "id" with
  | Some (JStr i) => negb (i =? "")
  | _ => false
  end.

(** Whether some record of [list] carries [id]. *)
Definition carries (id : string) (list : list json) : bool :=
  existsb (fun x => id_of x =? id) list.

(** The bucket of the last record of [list] that carries [id]; [d] when
    none does. *)
Definition last_bucket (id : string) (list : list json) (d : string) : string :=
  fold_left (fun acc x => if id_of x =? id
                          then statusBucket (get x "status") else acc)
            list d.

Definition is_push (tm : timer) : bool :=
  match action tm with
  | PushAllTrips => true
  | LowerFlag => false
  end.

(** At most one push timer is pending, and [pushTimer] holds its id. *)
Definition single_push (c : client) : Prop :=
  match filter is_push (timers c) with
  | [] => True
  | [tm] => pushTimer c = Some (timer_id tm)
  | _ :: _ :: _ => False
  end.

(** [options || trip.quotationOptions || trip.optionsShared ||
    trip.travelDeskOptions || null] *)
Definition quotationOptions (trip : json) (options : option json) : json :=
  or_default (or_else (or_else (or_else options (get trip "quotationOptions"))
                               (get trip "optionsShared"))
                      (get trip "travelDeskOptions"))
             JNull.

(** The four fields [etgSendQuotation] sets; [sentAt] is the clock reading. *)
Definition quotationFields (trip : json) (emailHtml options : option json)
                           (sentAt : string) : obj :=
  [("status", JStr "Quotation Sent to User");
   ("quotationHtml", or_default emailHtml (JStr ""));
   ("quotationOptions", quotationOptions trip options);
   ("quotationSentAt", JStr sentAt)].

(** [if (!trip || !trip.id) return;] *)
Definition has_id (trip : option json) : bool :=
  match trip with
  | Some t => truthy t && truthy_opt (get t "id")
  | None => false
  end.

(** The synchronous part of [window.etgSendQuotation]: the id and the body
    of the PATCH it sends, [None] when it returns at once. *)
Definition quotationRequest (clock : nat -> string)
                            (trip emailHtml options : option json)
                            (c : client) : option (string * json) * client :=
  match trip with
  | Some t =>
      if has_id trip then
        (Some (String_ (get t "id"),
               JObj (quotationFields t emailHtml options (clock (ticks c)))),
         with_ticks (S (ticks c)) c)
      else (None, c)
  | None => (None, c)
  end.

(** What [window.etgSendQuotation] does when the PATCH has settled, at time
    [now]: it mirrors the answer, or, when [api] threw ([resp] is [None]),
    the trip itself over what the canonical map holds, with the quotation
    fields on top.  A merge pass does not throw, so the [catch] block runs
    only when [api] did. *)
Definition quotationSettled (clock : nat -> string) (now : nat) (t : json)
                            (emailHtml options : option json)
                            (resp : option json) (c : client) : client :=
  match resp with
  | Some updated => mirrorTripsToLocal clock now (JArr [updated]) true c
  | None =>
      if has_id (Some t) then
        let prev := or_default (lookup (String_ (get t "id")) (readGlobalMap c))
                               (JObj []) in
        let local :=
          JObj (assign (assign (assign [] (own_props prev)) (own_props t))
                       (quotationFields t emailHtml options (clock (ticks c)))) in
        mirrorTripsToLocal clock now (JArr [local]) true
                           (with_ticks (S (ticks c)) c)
      else c
  end.

(** The dispatch [connectSocket] installs: [trip:created] and [trip:updated]
    carry one record, [trip:bulk] an array; no other event has a handler. *)
Definition deliver (clock : nat -> string) (now : nat) (event : string)
                   (payload : json) (c : client) : client :=
  if (event =? "trip:created") || (event =? "trip:updated")
  then onTrip clock now payload c
  else if event =? "trip:bulk" then onBulk clock now payload c
  else c.

(** The records an event hands to the mirror. *)
Definition records_of (event : string) (payload : json) : list json :=
  if (event =? "trip:created") || (event =? "trip:updated") then [payload]
  else if event =? "trip:bulk" then items_of payload
  else [].

(** ** What happens in a browser, over time *)

Inductive happening : Type :=
| PageWrites (key : string) (value : obj)       (* a page calls setItem *)
| TripArrives (trip : json)                     (* trip:created, trip:updated *)
| BulkArrives (trips : json)                    (* trip:bulk *)
| SyncAnswers (resp : option json)              (* initialSync settles *)
| QuotationSent (trip emailHtml options : option json)
                                                (* a page calls etgSendQuotation *)
| QuotationSettles (t : json) (emailHtml options resp : option json)
                                                (* its PATCH settles *)
| TimePasses.

(** One happening at time [now]: the timers due by then run first. *)
Definition happen (clock : nat -> string) (now : nat) (h : happening)
                  (c : client) : client :=
  let c0 := advance now c in
  match h with
  | PageWrites k v => setItem now k v c0
  | TripArrives trip => onTrip clock now trip c0
  | BulkArrives trips => onBulk clock now trips c0
  | SyncAnswers resp => initialSync clock now resp c0
  | QuotationSent trip e o => snd (quotationRequest clock trip e o c0)
  | QuotationSettles t e o resp => quotationSettled clock now t e o resp c0
  | TimePasses => c0
  end.

Definition play (clock : nat -> string) (hs : list (nat * happening))
                (c : client) : client :=
  fold_left (fun c nh => happen clock (fst nh) (snd nh) c) hs c.

(** ** Vocabulary of the further statements *)

(** What [Object.assign({}, g[id] || {}, ...)] copies from the map. *)
Definition entry_props (id : string) (g : obj) : obj :=
  own_props (or_default (lookup id g) (JObj [])).







(** The ids of the pending timers are below the next id to be given out. *)
Definition fresh_ids (c : client) : Prop :=
  forall tm, In tm (timers c) -> timer_id tm < nextTimerId c.



End Client.

(* ------------------------------------------------------------------ *)
(** ** The server side: [server/server.js]                              *)
(* ------------------------------------------------------------------ *)

Module Server.
Import Js.

(** The [store] object, which is also the layout of [data.json]. *)
Record data : Type := mkData {
  trips : obj;
  users : obj
}.

Record server : Type := mkServer {
  store : data;     (* const store = readData() *)
  disk : data;      (* what data.json holds *)
  ticks : nat       (* clock readings made so far *)
}.

(** What a request handler does that the outside can see, in order. *)
Inductive effect : Type :=
| Persisted (d : data)                      (* fs.writeFileSync succeeded *)
| PersistFailed                             (* it threw: console.error *)
| Emitted (event : string) (payload : json) (* io.emit *)
| Responded (status : nat) (body : json).   (* res.status(..).json(..) *)

(** [writeData(store)]; [ok] tells whether [fs.writeFileSync] succeeds. *)
Definition writeData (ok : bool) (s : server) : server * list effect :=
  if ok then (mkServer (store s) (store s) (ticks s), [Persisted (store s)])
  else (s, [PersistFailed]).

Definition set_trip (id : string) (v : json) (s : server) : server :=
  mkServer (mkData (obj_set id v (trips (store s))) (users (store s)))
           (disk s) (ticks s).

(** [t?.k]: [undefined] for a missing [t] and for [null]. *)
Definition get_opt (t : option json) (k : string) : option json :=
  match t with
  | Some x => get x k
  | None => None
  end.

(** [String(t?.id || '').trim()] *)
Definition trimmed_id (t : option json) : string :=
  trim (String_ (or_else (get_opt t "id") (Some (JStr "")))).

Section WithClock.
Variable clock : nat -> string.

(** [normalizeTrip(t)] against the current [store.trips]. *)
Definition normalizeTrip (s : server) (t : option json)
  : option json * server :=
  let id := trimmed_id t in
  if id =? "" then (None, s)
  else
    let now := JStr (clock (ticks s)) in
    let prev := or_default (lookup id (trips (store s))) (JObj []) in
    let tprops := match t with Some x => own_props x | None => [] end in
    (Some (JObj (assign (assign (assign [] (own_props prev)) tprops)
                        [("id", JStr id);
                         ("createdAt",
                          or_default (or_else (get prev "createdAt")
                                              (get_opt t "createdAt")) now);
                         ("updatedAt", now)])),
     mkServer (store s) (disk s) (S (ticks s))).

Definition error_body (msg : string) : json := JObj [("error", JStr msg)].

(** [{ ...trip, id }] *)
Definition with_id (trip : json) (id : string) : json :=
  JObj (obj_set "id" (JStr id) (assign [] (own_props trip))).

(** [app.post('/api/trips', ...)]; [uuid] is what [crypto.randomUUID()]
    returns, [body] is [req.body]. *)
Definition post_trip (ok : bool) (uuid : string) (body : option json)
                     (s : server) : server * list effect :=
  let trip := or_default body (JObj []) in
  let id := trim (String_ (or_else (get trip "id") (Some (JStr uuid)))) in
  match normalizeTrip s (Some (with_id trip id)) with
  | (None, s1) => (s1, [Responded 400 (error_body "Trip id is required.")])
  | (Some merged, s1) =>
      let existed := truthy_opt (lookup id (trips (store s1))) in
      let '(s2, w) := writeData ok (set_trip id merged s1) in
      (s2, w ++ [Emitted (if existed then "trip:updated" else "trip:created")
                         merged;
                 Responded 200 merged])%list
  end.

(** [app.patch('/api/trips/:id', ...)]; [param] is [req.params.id]. *)
Definition patch_trip (ok : bool) (param : string) (body : option json)
                      (s : server) : server * list effect :=
  let id := trim (String_ (or_else (Some (JStr param)) (Some (JStr "")))) in
  if id =? "" then (s, [Responded 400 (error_body "Trip id is required.")])
  else
    let patch := or_default body (JObj []) in
    match normalizeTrip s (Some (with_id patch id)) with
    | (None, s1) => (s1, [Responded 400 (error_body "Trip id is required.")])
    | (Some merged, s1) =>
        let '(s2, w) := writeData ok (set_trip id merged s1) in
        (s2, w ++ [Emitted "trip:updated" merged; Responded 200 merged])%list
    end.

(** The loop of the bulk handler; [changed] collects the normalized records
    (the [trip] halves of the pairs the source pushes), [upserted] counts. *)
Fixpoint bulk_loop (l : list json) (s : server) (upserted : nat)
                   (changed : list json) : server * nat * list json :=
  match l with
  | [] => (s, upserted, changed)
  | t :: r =>
      let id := trimmed_id (Some t) in
      if id =? "" then bulk_loop r s upserted changed
      else
        match normalizeTrip s (Some t) with
        | (None, s1) => bulk_loop r s1 upserted changed
        | (Some merged, s1) =>
            bulk_loop r (set_trip id merged s1) (upserted + 1)
                      (changed ++ [merged])%list
        end
  end.

Definition bulk_body (n : nat) : json :=
  JObj [("ok", JBool true); ("upserted", JNum (Z.of_nat n))].

(** [Array.isArray(req.body?.trips) ? req.body.trips : []] *)
Definition bulk_trips (body : option json) : list json :=
  match get_opt body "trips" with
  | Some (JArr l) => l
  | _ => []
  end.

(** [app.post('/api/trips/bulk', ...)] *)
Definition post_bulk (ok : bool) (body : option json) (s : server)
  : server * list effect :=
  let trips := bulk_trips body in
  match trips with
  | [] => (s, [Responded 200 (bulk_body 0)])
  | _ :: _ =>
      let '(s1, upserted, changed) := bulk_loop trips s 0 [] in
      let '(s2, w) := writeData ok s1 in
      (s2, w ++ [Emitted "trip:bulk" (JArr changed);
                 Responded 200 (bulk_body upserted)])%list
  end.

(** ** Vocabulary of the statements *)

Inductive request : Type :=
| PostTrip (ok : bool) (uuid : string) (body : option json)
| PatchTrip (ok : bool) (param : string) (body : option json)
| PostBulk (ok : bool) (body : option json).

Definition handle (r : request) (s : server) : server * list effect :=
  match r with
  | PostTrip ok uuid body => post_trip ok uuid body s
  | PatchTrip ok param body => patch_trip ok param body s
  | PostBulk ok body => post_bulk ok body s
  end.


Definition serve (rs : list request) (s : server) : server :=
  fold_left (fun s r => fst (handle r s)) rs s.

(** [createdAt] of the record stored under [id]. *)
Definition createdAt_of (s : server) (id : string) : option json :=
  match lookup id (trips (store s)) with
  | Some r => get r "createdAt"
  | None => None
  end.

(** A bulk entry is accepted when its [id] is not missing or blank. *)
Definition accepted (t : json) : bool := negb (missing_or_blank (get t "id")).

(** The accepted entries normalized one after the other, each against the
    store the earlier ones left. *)
Fixpoint upsertEach (s : server) (l : list json) : list json :=
  match l with
  | [] => []
  | t :: r =>
      match normalizeTrip s (Some t) with
      | (Some m, s1) => m :: upsertEach (set_trip (String_ (get m "id")) m s1) r
      | (None, s1) => upsertEach s1 r
      end
  end.


End WithClock.



(** The server after one clock reading. *)
Definition tick (s : server) : server :=
  mkServer (store s) (disk s) (S (ticks s)).

(** ** The rest of the server *)

(** [roleFromEmail(email)] *)
Definition roleFromEmail (email : option json) : string :=
  let e := toLowerCase (String_ (or_else email (Some (JStr "")))) in
  if includes e "traveldesk" then "TRAVEL_DESK"
  else if includes e "travel" && includes e "desk" then "TRAVEL_DESK"
  else if includes e "manager" || includes e "rm" || includes e "approver"
  then "MANAGER"
  else if includes e "admin" || includes e "super" then "SUPER_ADMIN"
  else "EMPLOYEE".

(** [app.get('/api/trips/:id', ...)]: the response. *)
Definition get_trip (param : string) (s : server) : effect :=
  let id := trim (String_ (or_else (Some (JStr param)) (Some (JStr "")))) in
  if id =? "" then Responded 400 (error_body "Trip id is required.")
  else
    match lookup id (trips (store s)) with
    | Some trip =>
        if truthy trip then Responded 200 trip
        else Responded 404 (error_body "Trip not found.")
    | None => Responded 404 (error_body "Trip not found.")
    end.

(** The ids a request names. *)
Definition names (r : request) : list string :=
  match r with
  | PostTrip _ uuid body =>
      [trim (String_ (or_else (get (or_default body (JObj [])) "id")
                              (Some (JStr uuid))))]
  | PatchTrip _ param _ => [trim param]
  | PostBulk _ body => map (fun t => trimmed_id (Some t)) (bulk_trips body)
  end.

(** The record stored under [k] carries [k] as its [id], a trimmed and
    non-empty string. *)
Definition keyed (k : string) (r : json) : Prop :=
  get r "id" = Some (JStr k) /\ trim k = k /\ k <> "".

Definition well_keyed (s : server) : Prop :=
  forall k r, lookup k (trips (store s)) = Some r -> keyed k r.

(** ** [listTrips] *)

Section WithCollation.

(** [a.localeCompare(b)]: negative, zero or positive, as the collation of
    the host decides. *)
Variable localeCompare : string -> string -> Z.





End WithCollation.


End Server.

(* ------------------------------------------------------------------ *)
(** ** Sample data                                                      *)
(* ------------------------------------------------------------------ *)

Module Samples.
Import Js Client.

(** A clock whose readings differ in the milliseconds. *)
Definition demo_clock (n : nat) : string :=
  ("2026-11-02T20:09:00.00" ++ index_key n ++ "Z")%string.

(** A browser whose bucket store is stale: [t1] sits in two buckets and
    [approved] is not an array. *)
Definition demo_client : client :=
  mkClient
    [("t1", JObj [("id", JStr "t1"); ("status", JStr "Pending")])]
    [("pending", JArr [JObj [("id", JStr "t1"); ("status", JStr "Pending")];
                       JObj [("id", JStr "t2")]]);
     ("rejected", JArr [JObj [("id", JStr "t1")]; JNull]);
     ("approved", JStr "stale")]
    false None [] 1 0 [] [].

(** A canonical map with two records that both classify as [pending]. *)
Definition two_pending : obj :=
  [("a", JObj [("id", JStr "a"); ("status", JStr "Pending");
               ("createdAt", JStr "2026-11-01T08:00:00.000Z");
               ("updatedAt", JStr "2026-11-01T08:00:00.000Z")]);
   ("b", JObj [("id", JStr "b"); ("status", JStr "Pending");
               ("createdAt", JStr "2026-11-01T09:00:00.000Z");
               ("updatedAt", JStr "2026-11-01T09:00:00.000Z")])].

(** A fresh browser: nothing stored, nothing pending. *)
Definition fresh_client : client :=
  mkClient [] [] false None [] 1 0 [] [].

(** A server that has stored nothing yet. *)
Definition fresh_server : Server.server :=
  Server.mkServer (Server.mkData [] []) (Server.mkData [] []) 0.

(** The bulk body of the specification's example: two records with an id
    and one without. *)
Definition bulk_example : option json :=
  Some (JObj [("trips", JArr [JObj [("id", JStr "a")];
                              JObj [("id", JStr "b")];
                              JObj [("status", JStr "Pending")]])]).

End Samples.

(* ================================================================== *)
(** * Part II: properties                                              *)
(* ================================================================== *)

Local Open Scope list_scope.

(** ** Objects *)

Module JsFacts.
Import Js.

Lemma eqb_sym (a b : string) : (a =? b) = (b =? a).
Proof.
  destruct (String.eqb_spec a b) as [->|Hab].
  - now rewrite String.eqb_refl.
  - symmetry. apply String.eqb_neq. congruence.
Qed.

Lemma lookup_replace_prop_other k k' v o :
  k <> k' -> lookup k' (replace_prop k v o) = lookup k' o.
Proof.
  intros Hk. induction o as [|[k0 v0] r IH]; simpl; [reflexivity|].
  rewrite IH. destruct (lookup k' r); [now destruct (k0 =? k)|].
  destruct (String.eqb_spec k0 k) as [->|]; simpl; [|reflexivity].
  apply String.eqb_neq in Hk. now rewrite Hk.
Qed.

Lemma lookup_replace_prop_same k v o :
  lookup k o <> None -> lookup k (replace_prop k v o) = Some v.
Proof.
  induction o as [|[k0 v0] r IH]; simpl; [congruence|].
  destruct (lookup k r) eqn:E.
  - intros _. rewrite IH by congruence. now destruct (k0 =? k).
  - intros H. destruct (String.eqb_spec k0 k) as [->|]; [|congruence].
    simpl. rewrite String.eqb_refl.
    assert (Hr : lookup k (replace_prop k v r) = None).
    { clear -E. induction r as [|[k1 v1] r IH]; simpl in *; [reflexivity|].
      destruct (lookup k r); [discriminate|].
      destruct (k1 =? k) eqn:E1; [discriminate|]. simpl.
      rewrite IH by reflexivity. now rewrite E1. }
    now rewrite Hr.
Qed.

Lemma lookup_app k o1 o2 :
  lookup k (o1 ++ o2) =
  match lookup k o2 with Some v => Some v | None => lookup k o1 end.
Proof.
  induction o1 as [|[k0 v0] r IH]; simpl.
  - now destruct (lookup k o2).
  - rewrite IH. now destruct (lookup k o2).
Qed.

Lemma lookup_insert_index_other n k k' v o :
  k <> k' -> lookup k' (insert_index n k v o) = lookup k' o.
Proof.
  intros Hk. apply String.eqb_neq in Hk.
  induction o as [|[k0 v0] r IH]; simpl.
  - now rewrite Hk.
  - destruct (array_index k0) as [m|].
    + destruct (m <? n)%N; simpl.
      * now rewrite IH.
      * destruct (lookup k' r); [reflexivity|].
        destruct (k0 =? k'); [reflexivity|]. now rewrite Hk.
    + simpl. destruct (lookup k' r); [reflexivity|].
      destruct (k0 =? k'); [reflexivity|]. now rewrite Hk.
Qed.

Lemma lookup_insert_index_same n k v o :
  lookup k o = None -> lookup k (insert_index n k v o) = Some v.
Proof.
  induction o as [|[k0 v0] r IH]; simpl.
  - intros _. now rewrite String.eqb_refl.
  - destruct (lookup k r) eqn:E; [discriminate|].
    destruct (k0 =? k) eqn:E0; [discriminate|]. intros _.
    destruct (array_index k0) as [m|].
    + destruct (m <? n)%N; simpl.
      * now rewrite IH.
      * now rewrite E, E0, String.eqb_refl.
    + simpl. now rewrite E, E0, String.eqb_refl.
Qed.

Lemma lookup_obj_set_same k v o : lookup k (obj_set k v o) = Some v.
Proof.
  unfold obj_set. destruct (lookup k o) eqn:E.
  - apply lookup_replace_prop_same. congruence.
  - destruct (array_index k).
    + now apply lookup_insert_index_same.
    + rewrite lookup_app. simpl. now rewrite String.eqb_refl.
Qed.

Lemma lookup_obj_set_other k k' v o :
  k <> k' -> lookup k' (obj_set k v o) = lookup k' o.
Proof.
  intros Hk. unfold obj_set. destruct (lookup k o).
  - now apply lookup_replace_prop_other.
  - destruct (array_index k).
    + now apply lookup_insert_index_other.
    + rewrite lookup_app. simpl. apply String.eqb_neq in Hk. now rewrite Hk.
Qed.

Lemma lookup_obj_set k k' v o :
  lookup k' (obj_set k v o) = if k =? k' then Some v else lookup k' o.
Proof.
  destruct (String.eqb_spec k k') as [->|Hk].
  - apply lookup_obj_set_same.
  - now apply lookup_obj_set_other.
Qed.

(** Decide equality tests between string literals. *)
Ltac str_eqb := cbn [String.eqb Ascii.eqb Bool.eqb andb].

Lemma lookup_assign k acc o :
  lookup k (assign acc o) =
  match lookup k o with Some v => Some v | None => lookup k acc end.
Proof.
  unfold assign. revert acc.
  induction o as [|[k0 v0] r IH]; intros acc; simpl; [reflexivity|].
  rewrite IH. destruct (lookup k r); [reflexivity|].
  rewrite lookup_obj_set. now destruct (k0 =? k).
Qed.

(** [String(s || '')] is [s] for a string [s]. *)
Lemma status_text (s : string) :
  String_ (or_else (Some (JStr s)) (Some (JStr ""))) = s.
Proof.
  unfold or_else. simpl.
  destruct (String.eqb_spec s ""); simpl; congruence.
Qed.

(** *** Spreading arrays and strings yields index keys only *)

Lemma index_key_digit (n : nat) :
  exists c r, index_key n = String c r /\
              (48 <=? nat_of_ascii c)%nat && (nat_of_ascii c <=? 57)%nat = true.
Proof.
  unfold index_key, NilZero.string_of_uint.
  destruct (Nat.to_uint n); cbn [NilEmpty.string_of_uint];
    do 2 eexists; (split; [reflexivity|reflexivity]).
Qed.

Lemma lookup_createdAt_indexed (n : nat) (l : list json) :
  lookup "createdAt" (indexed n l) = None.
Proof.
  revert n. induction l as [|x r IH]; intros n; cbn [indexed lookup];
    [reflexivity|].
  rewrite IH.
  destruct (index_key_digit n) as (c & t & -> & Hc).
  cbn [String.eqb].
  destruct (Ascii.eqb_spec c "c"%char) as [->|]; [discriminate | reflexivity].
Qed.

Lemma lookup_createdAt_own_props (v : json) :
  lookup "createdAt" (own_props v) = get v "createdAt".
Proof.
  destruct v; try reflexivity; apply lookup_createdAt_indexed.
Qed.

(** *** [trim] *)

Lemma trimStart_clean (s : string) : starts_clean (trimStart s).
Proof.
  induction s as [|c r IH]; simpl; [exact I|].
  destruct (is_space c) eqn:E; [exact IH | exact E].
Qed.

Lemma trimStart_id (s : string) : starts_clean s -> trimStart s = s.
Proof. destruct s as [|c r]; simpl; [reflexivity|]. now intros ->. Qed.

Lemma trimEnd_clean (s : string) : starts_clean s -> starts_clean (trimEnd s).
Proof.
  destruct s as [|c r]; simpl; [exact id|].
  intros E. destruct (trimEnd r); simpl; [now rewrite E | exact E].
Qed.

Lemma trimEnd_idempotent (s : string) : trimEnd (trimEnd s) = trimEnd s.
Proof.
  induction s as [|c r IH]; simpl; [reflexivity|].
  destruct (trimEnd r) as [|c' r'] eqn:E.
  - destruct (is_space c) eqn:Ec; simpl; [reflexivity | now rewrite Ec].
  - change (trimEnd (String c (String c' r')))
      with (match trimEnd (String c' r') with
            | EmptyString =>
                if is_space c then EmptyString else String c EmptyString
            | String a r0 => String c (String a r0)
            end).
    now rewrite IH.
Qed.

Lemma trim_idempotent (s : string) : trim (trim s) = trim s.
Proof.
  unfold trim.
  rewrite (trimStart_id (trimEnd (trimStart s))).
  - apply trimEnd_idempotent.
  - apply trimEnd_clean, trimStart_clean.
Qed.

Lemma blank_iff (v : option json) :
  trim (String_ (or_else v (Some (JStr "")))) = "" <->
  missing_or_blank v = true.
Proof.
  unfold or_else, missing_or_blank. destruct v as [x|]; cbn [truthy_opt].
  - destruct (truthy x); cbn [negb orb String_].
    + symmetry. apply String.eqb_eq.
    + split; reflexivity.
  - split; reflexivity.
Qed.

End JsFacts.

(** ** Objects in enumeration order *)

Module CanonicalFacts.
Import Js JsFacts.

Lemma lookup_None_iff k o : lookup k o = None <-> ~ In k (keys o).
Proof.
  induction o as [|[k0 v0] r IH]; simpl; [tauto|].
  destruct (lookup k r).
  - split; [discriminate|]. intros H. exfalso. apply H. right.
    apply Decidable.not_not; [|intros Hn; apply IH in Hn; discriminate].
    destruct (in_dec string_dec k (keys r)); [now left | now right].
  - destruct (String.eqb_spec k0 k) as [->|Hk].
    + split; [discriminate|]. intros H. exfalso. apply H. now left.
    + split; [|reflexivity]. intros _ [H|H]; [contradiction|].
      now apply IH in H.
Qed.

Lemma lookup_In k v o : NoDup (keys o) -> In (k, v) o -> lookup k o = Some v.
Proof.
  induction o as [|[k0 v0] r IH]; simpl; [tauto|].
  intros Hnd Hin. inversion Hnd as [|? ? Hnotin Hnd']; subst.
  destruct Hin as [Heq|Hin].
  - injection Heq as -> ->.
    apply lookup_None_iff in Hnotin. rewrite Hnotin.
    now rewrite String.eqb_refl.
  - now rewrite (IH Hnd' Hin).
Qed.

Lemma replace_prop_same k v o :
  NoDup (keys o) -> In (k, v) o -> replace_prop k v o = o.
Proof.
  induction o as [|[k0 v0] r IH]; simpl; [reflexivity|].
  intros Hnd Hin. inversion Hnd as [|? ? Hnotin Hnd']; subst.
  destruct Hin as [Heq|Hin].
  - injection Heq as -> ->. rewrite String.eqb_refl. f_equal.
    clear -Hnotin. induction r as [|[k1 v1] r IH]; simpl; [reflexivity|].
    simpl in Hnotin.
    destruct (String.eqb_spec k1 k) as [->|]; [tauto|].
    f_equal. apply IH. tauto.
  - destruct (String.eqb_spec k0 k) as [->|].
    + exfalso. apply Hnotin. change k with (fst (k, v)). now apply in_map.
    + f_equal. now apply IH.
Qed.

(** Assigning to a key the value it already has leaves the object as it is. *)
Lemma obj_set_same k v o :
  NoDup (keys o) -> In (k, v) o -> obj_set k v o = o.
Proof.
  intros Hnd Hin. unfold obj_set.
  rewrite (lookup_In _ _ _ Hnd Hin). now apply replace_prop_same.
Qed.

Lemma assign_same o src :
  NoDup (keys o) -> incl src o -> assign o src = o.
Proof.
  intros Hnd. unfold assign.
  induction src as [|[k v] r IH]; simpl; [reflexivity|].
  intros Hincl. rewrite obj_set_same.
  - apply IH. intros kv Hkv. apply Hincl. now right.
  - assumption.
  - apply Hincl. now left.
Qed.

(** In a canonical object every index key after a lower bound exceeds it. *)
Lemma canonical_from_bound n past o :
  canonical_from (Some n) past o = true ->
  forall k m, In k (keys o) -> array_index k = Some m -> (n < m)%N.
Proof.
  revert n past. induction o as [|[k0 v0] r IH]; intros n past H k m;
    simpl; [tauto|].
  simpl in H. destruct (array_index k0) as [m0|] eqn:E0.
  - apply andb_prop in H as [H H2]. apply andb_prop in H as [_ H1].
    apply N.ltb_lt in H1.
    intros [<-|Hin] Hm.
    + rewrite E0 in Hm. injection Hm as <-. exact H1.
    + specialize (IH _ _ H2 _ _ Hin Hm). lia.
  - apply andb_prop in H as [_ H2].
    intros [<-|Hin] Hm; [congruence|]. eapply IH; eauto.
Qed.

Lemma canonical_from_NoDup lo past o :
  canonical_from lo past o = true -> NoDup (keys o).
Proof.
  revert lo past. induction o as [|[k0 v0] r IH]; intros lo past H; simpl;
    [constructor|].
  simpl in H. destruct (array_index k0) as [m0|] eqn:E0.
  - apply andb_prop in H as [_ H2]. constructor; [|eauto].
    intros Hin. pose proof (canonical_from_bound _ _ _ H2 _ _ Hin E0). lia.
  - apply andb_prop in H as [H1 H2]. constructor; [|eauto].
    intros Hin. apply negb_true_iff in H1.
    assert (Ht : existsb (String.eqb k0) (keys r) = true); [|congruence].
    apply existsb_exists. exists k0. split; [assumption|].
    apply String.eqb_refl.
Qed.

Lemma canonical_NoDup o : canonical o = true -> NoDup (keys o).
Proof. apply canonical_from_NoDup. Qed.

Lemma insert_index_last n k v acc :
  (forall k', In k' (keys acc) ->
     exists m, array_index k' = Some m /\ (m < n)%N) ->
  insert_index n k v acc = acc ++ [(k, v)].
Proof.
  induction acc as [|[k0 v0] r IH]; simpl; [reflexivity|].
  intros H. destruct (H k0 (or_introl eq_refl)) as (m & -> & Hm).
  apply N.ltb_lt in Hm. rewrite Hm. f_equal. apply IH. auto.
Qed.

Lemma assign_canonical_from o :
  forall lo past acc,
    canonical_from lo past o = true ->
    below lo past acc ->
    (forall k, In k (keys o) -> ~ In k (keys acc)) ->
    assign acc o = acc ++ o.
Proof.
  unfold assign.
  induction o as [|[k v] r IH]; intros lo past acc H Hb Hd; simpl.
  - now rewrite app_nil_r.
  - simpl in H.
    assert (Hk : lookup k acc = None).
    { apply lookup_None_iff. apply Hd. now left. }
    assert (Hset : obj_set k v acc = acc ++ [(k, v)] /\
                   exists lo' past',
                     canonical_from lo' past' r = true /\
                     below lo' past' (acc ++ [(k, v)]) /\
                     ~ In k (keys r)).
    { unfold obj_set. rewrite Hk.
      destruct (array_index k) as [n|] eqn:E.
      - apply andb_prop in H as [H H2]. apply andb_prop in H as [Hp H1].
        apply negb_true_iff in Hp. subst past. split.
        + apply insert_index_last. intros k' Hk'.
          destruct (Hb eq_refl k' Hk') as (m & n0 & Em & -> & Hle).
          apply N.ltb_lt in H1. exists m. split; [assumption | lia].
        + exists (Some n), false. split; [assumption|]. split.
          * intros _ k' Hk'. unfold keys in Hk'. rewrite map_app in Hk'.
            apply in_app_or in Hk' as [Hk'|[<-|[]]].
            -- destruct (Hb eq_refl k' Hk') as (m & n0 & Em & -> & Hle).
               apply N.ltb_lt in H1. exists m, n. repeat split; auto. lia.
            -- exists n, n. repeat split; auto. lia.
          * intros Hin.
            pose proof (canonical_from_bound _ _ _ H2 _ _ Hin E). lia.
      - apply andb_prop in H as [H1 H2]. split; [reflexivity|].
        exists lo, true. split; [assumption|]. split; [discriminate|].
        intros Hin. apply negb_true_iff in H1.
        assert (Ht : existsb (String.eqb k) (keys r) = true); [|congruence].
        apply existsb_exists. exists k. split; [assumption|].
        apply String.eqb_refl. }
    destruct Hset as (-> & lo' & past' & Hc & Hb' & Hnotin).
    rewrite (IH lo' past' _ Hc Hb').
    + now rewrite <- app_assoc.
    + intros k' Hk' Hin. unfold keys in Hin. rewrite map_app in Hin.
      apply in_app_or in Hin as [Hin|[<-|[]]].
      * apply (Hd k'); [now right | assumption].
      * contradiction.
Qed.

(** Copying a canonical object into the empty object rebuilds it. *)
Lemma assign_canonical o : canonical o = true -> assign [] o = o.
Proof.
  intros H. apply (assign_canonical_from o None false [] H).
  - intros _ k [].
  - intros k _ [].
Qed.

End CanonicalFacts.

(** ** The classifier *)

Module ClassifierFacts.
Import Js Client.

Lemma statusBucket_cascade (status : option json) :
  statusBucket status =
  first_match priority
    (toLowerCase (String_ (or_else status (Some (JStr ""))))).
Proof.
  unfold statusBucket.
  set (s := toLowerCase _).
  cbn [first_match priority existsb].
  rewrite !orb_false_r. reflexivity.
Qed.

Lemma statusBucket_in_buckets (status : option json) :
  In (statusBucket status) buckets.
Proof.
  unfold statusBucket, buckets.
  repeat match goal with
         | |- context [if ?b then _ else _] => destruct b
         end; simpl; tauto.
Qed.

End ClassifierFacts.

(** ** The client normalizer *)

Module NormalizerFacts.
Import Js JsFacts Client.

Section WithClock.
Variable clock : nat -> string.

Lemma normalizeTrip_unfold (n : nat) (t : json) :
  normalizeTrip clock n t =
  if negb (truthy t) || (resolved_id t =? "") then (None, n)
  else
    let c := or_now clock (get t "createdAt") n in
    let u := or_now clock (get t "updatedAt") (snd c) in
    (Some (JObj (assign (assign [] (own_props t))
                        [("id", JStr (resolved_id t));
                         ("createdAt", fst c);
                         ("updatedAt", fst u)])),
     snd u).
Proof.
  unfold normalizeTrip.
  destruct (truthy t); simpl; [|reflexivity].
  destruct (resolved_id t =? ""); [reflexivity|].
  destruct (or_now clock (get t "createdAt") n) as [c n1]. simpl.
  destruct (or_now clock (get t "updatedAt") n1) as [u n2]. reflexivity.
Qed.

Lemma normalizeTrip_rejects (n : nat) (t : json) :
  fst (normalizeTrip clock n t) = None <->
  truthy t = false \/ resolved_id t = "".
Proof.
  rewrite normalizeTrip_unfold.
  destruct (truthy t); simpl.
  - destruct (String.eqb_spec (resolved_id t) ""); simpl; split;
      try tauto; try discriminate.
    intros [H|H]; [discriminate | contradiction].
  - tauto.
Qed.

Lemma normalizeTrip_rejected_ticks (n : nat) (t : json) :
  fst (normalizeTrip clock n t) = None -> snd (normalizeTrip clock n t) = n.
Proof.
  rewrite normalizeTrip_unfold.
  destruct (negb (truthy t) || (resolved_id t =? "")); simpl;
    [reflexivity | discriminate].
Qed.

Lemma or_now_truthy (v : option json) (n : nat) :
  truthy_opt v = true -> or_now clock v n = (or_default v JNull, n) /\
                         Some (or_default v JNull) = v.
Proof.
  destruct v as [x|]; simpl; [|discriminate].
  intros ->. now split.
Qed.

Lemma or_now_falsy (v : option json) (n : nat) :
  truthy_opt v = false -> or_now clock v n = (JStr (clock n), S n).
Proof.
  destruct v as [x|]; simpl; [|reflexivity]. now intros ->.
Qed.

Lemma or_now_ticks (v : option json) (n : nat) :
  n <= snd (or_now clock v n) <= S n.
Proof.
  unfold or_now. destruct v as [x|]; [destruct (truthy x)|]; simpl; lia.
Qed.

(** Only an object resolves to an id. *)
Lemma resolved_id_object (t : json) :
  resolved_id t <> "" -> exists o, t = JObj o.
Proof.
  destruct t; try (intros H; exfalso; apply H; reflexivity).
  intros _. now eexists.
Qed.

(** The normalized record: an object carrying the resolved id, the incoming
    status, and timestamps that are the incoming ones when truthy. *)
Lemma normalizeTrip_accepts (n n' : nat) (t r : json) :
  normalizeTrip clock n t = (Some r, n') ->
  exists o, r = JObj o /\
            resolved_id t <> "" /\
            lookup "id" o = Some (JStr (resolved_id t)) /\
            lookup "status" o = get t "status" /\
            lookup "createdAt" o =
              Some (fst (or_now clock (get t "createdAt") n)) /\
            lookup "updatedAt" o =
              Some (fst (or_now clock (get t "updatedAt")
                                (snd (or_now clock (get t "createdAt") n)))).
Proof.
  rewrite normalizeTrip_unfold.
  destruct (truthy t) eqn:Ht; cbn [negb orb]; [|discriminate].
  destruct (String.eqb_spec (resolved_id t) "") as [|Hid]; [discriminate|].
  cbv zeta. intros H. injection H as <- _.
  destruct (resolved_id_object t Hid) as [o ->].
  eexists; split; [reflexivity|]. split; [assumption|].
  repeat split; rewrite !lookup_obj_set; str_eqb; try reflexivity.
  rewrite lookup_assign. cbn [own_props lookup get].
  now destruct (lookup "status" o).
Qed.

End WithClock.

End NormalizerFacts.

(** ** The bucket store *)

Module BucketFacts.
Import Js JsFacts Client ClassifierFacts.

Lemma arrayed_bucket_list b s :
  arrayed b s -> lookup b s = Some (JArr (bucket_list b s)).
Proof. intros [l E]. unfold bucket_list. now rewrite E. Qed.

Lemma bucket_list_obj_set b k l s :
  bucket_list b (obj_set k (JArr l) s) = if k =? b then l else bucket_list b s.
Proof.
  unfold bucket_list. rewrite lookup_obj_set. now destruct (k =? b).
Qed.

Lemma arrayed_obj_set b k l s :
  arrayed b s -> arrayed b (obj_set k (JArr l) s).
Proof.
  intros [l0 E]. unfold arrayed. rewrite lookup_obj_set.
  destruct (k =? b); eauto.
Qed.

Lemma arrayed_obj_set_same k l s : arrayed k (obj_set k (JArr l) s).
Proof. exists l. apply lookup_obj_set_same. Qed.

Lemma ensureArray_arrayed s b : arrayed b (ensureArray s b).
Proof.
  unfold ensureArray.
  destruct (lookup b s) as [[]|] eqn:E;
    try apply arrayed_obj_set_same.
  eexists; eassumption.
Qed.

Lemma ensureArray_keeps b s b' : arrayed b s -> arrayed b (ensureArray s b').
Proof.
  intros H. unfold ensureArray.
  destruct (lookup b' s) as [[]|]; auto using arrayed_obj_set.
Qed.

Lemma ensureArray_bucket_list b s b' :
  bucket_list b (ensureArray s b') = bucket_list b s.
Proof.
  unfold ensureArray.
  destruct (lookup b' s) as [v|] eqn:E; [destruct v|];
    try reflexivity; rewrite bucket_list_obj_set;
    destruct (String.eqb_spec b' b) as [<-|]; try reflexivity;
    unfold bucket_list; now rewrite E.
Qed.

Lemma ensureAll_arrayed bs s b :
  In b bs -> arrayed b (fold_left ensureArray bs s).
Proof.
  revert s. induction bs as [|b0 r IH]; intros s; simpl; [tauto|].
  intros [->|Hin]; [|now apply IH].
  clear IH. generalize (ensureArray_arrayed s b).
  generalize (ensureArray s b). induction r as [|b1 r IH]; intros s' H;
    simpl; [assumption|].
  apply IH. now apply ensureArray_keeps.
Qed.

Lemma ensureAll_bucket_list bs s b :
  bucket_list b (fold_left ensureArray bs s) = bucket_list b s.
Proof.
  revert s. induction bs as [|b0 r IH]; intros s; simpl; [reflexivity|].
  rewrite IH. apply ensureArray_bucket_list.
Qed.

Lemma dropFrom_arrayed id s bb :
  arrayed bb s ->
  dropFrom id (Some s) bb =
  Some (obj_set bb (JArr (filter (fun x => negb (entry_id x =? id))
                                 (bucket_list bb s))) s).
Proof.
  intros H. unfold dropFrom. now rewrite (arrayed_bucket_list _ _ H).
Qed.

(** Dropping an id from a list of distinct buckets that all hold arrays
    never throws and filters exactly those buckets. *)
Lemma dropFrom_fold id bs :
  NoDup bs ->
  forall s, (forall b, In b bs -> arrayed b s) ->
  exists s',
    fold_left (dropFrom id) bs (Some s) = Some s' /\
    (forall b, arrayed b s -> arrayed b s') /\
    (forall b, In b bs ->
       bucket_list b s' =
       filter (fun x => negb (entry_id x =? id)) (bucket_list b s)) /\
    (forall b, ~ In b bs -> lookup b s' = lookup b s).
Proof.
  induction 1 as [|b0 r Hnotin Hnd IH]; intros s Harr; cbn [fold_left].
  - exists s. repeat split; auto. intros b [].
  - rewrite dropFrom_arrayed by (apply Harr; now left).
    set (s1 := obj_set b0 _ s).
    destruct (IH s1) as (s' & E & Hkeep & Hin & Hout).
    { intros b Hb. apply arrayed_obj_set. apply Harr. now right. }
    exists s'. split; [exact E|]. split; [|split].
    + intros b Hb. apply Hkeep. now apply arrayed_obj_set.
    + intros b [<-|Hb].
      * unfold bucket_list at 1. rewrite (Hout b0 Hnotin).
        unfold s1. rewrite lookup_obj_set_same. reflexivity.
      * rewrite (Hin b Hb). unfold s1. rewrite bucket_list_obj_set.
        destruct (String.eqb_spec b0 b) as [<-|]; [contradiction|reflexivity].
    + intros b Hb. rewrite Hout by (intros Hr; apply Hb; now right).
      unfold s1. apply lookup_obj_set_other. intros ->. apply Hb. now left.
Qed.

Lemma buckets_NoDup : NoDup buckets.
Proof.
  unfold buckets.
  repeat (constructor; [simpl; intros H; intuition discriminate|]).
  constructor.
Qed.

(** One merge step on a store whose six buckets hold arrays. *)
Lemma mergeStep_buckets s tr :
  (forall b, In b buckets -> arrayed b s) ->
  exists s',
    mergeStep (Some s) tr = Some s' /\
    (forall b, In b buckets -> arrayed b s') /\
    (forall b, In b buckets ->
       bucket_list b s' =
       (if statusBucket (get tr "status") =? b then [tr] else []) ++
       filter (fun x => negb (entry_id x =? String_ (get tr "id")))
              (bucket_list b s)).
Proof.
  intros Harr. unfold mergeStep.
  destruct (dropFrom_fold (String_ (get tr "id")) buckets buckets_NoDup s Harr)
    as (s1 & E & Hkeep & Hin & _).
  rewrite E.
  set (bk := statusBucket (get tr "status")).
  assert (Hbk : arrayed bk s1).
  { apply Hkeep, Harr. apply statusBucket_in_buckets. }
  unfold unshift. rewrite (arrayed_bucket_list _ _ Hbk).
  eexists. split; [reflexivity|]. split.
  - intros b Hb. apply arrayed_obj_set. apply Hkeep. now apply Harr.
  - intros b Hb. rewrite bucket_list_obj_set.
    destruct (String.eqb_spec bk b) as [<-|]; simpl;
      rewrite Hin; auto using statusBucket_in_buckets.
Qed.

Lemma occurrences_app id l1 l2 :
  occurrences id (l1 ++ l2) = occurrences id l1 + occurrences id l2.
Proof. unfold occurrences. now rewrite filter_app, length_app. Qed.

Lemma occurrences_dropped id l :
  occurrences id (filter (fun x => negb (entry_id x =? id)) l) = 0.
Proof.
  unfold occurrences. induction l as [|x r IH]; simpl; [reflexivity|].
  destruct (entry_id x =? id) eqn:E; simpl; [assumption|].
  now rewrite E.
Qed.

End BucketFacts.

(** ** [mirrorTripsToLocal] *)

Module MirrorFacts.
Import Js JsFacts Client ClassifierFacts NormalizerFacts BucketFacts.

Lemma with_ticks_same (c : client) : with_ticks (ticks c) c = c.
Proof. now destruct c. Qed.

Section WithClock.
Variable clock : nat -> string.

Lemma normalizeAll_rejected (n : nat) (l : list json) :
  Forall (fun t => forall k, fst (normalizeTrip clock k t) = None) l ->
  normalizeAll clock n l = ([], n).
Proof.
  induction 1 as [|t r Ht _ IH]; simpl; [reflexivity|].
  specialize (Ht n). pose proof (normalizeTrip_rejected_ticks clock n t Ht) as Hn.
  destruct (normalizeTrip clock n t) as [o n1]. simpl in *. subst.
  now rewrite IH.
Qed.

Lemma normalizeAll_single (n n' : nat) (r tr : json) :
  normalizeTrip clock n r = (Some tr, n') ->
  normalizeAll clock n [r] = ([tr], n').
Proof. intros H. simpl. now rewrite H. Qed.

(** What a pass that normalizes at least one record leaves in the two
    storage slots. *)
Lemma mirror_stores now items mergeOnly c list n :
  normalizeAll clock (ticks c) items = (list, n) ->
  list <> [] ->
  globalMap (mirrorTripsToLocal clock now (JArr items) mergeOnly c) =
    fold_left upsertGlobal list (globalMap c) /\
  deskStore (mirrorTripsToLocal clock now (JArr items) mergeOnly c) =
    match mirrorBuckets mergeOnly (fold_left upsertGlobal list (globalMap c))
                        list (deskStore c) with
    | Some s => s
    | None => deskStore c
    end.
Proof.
  intros H Hne. unfold mirrorTripsToLocal. cbn [items_of]. rewrite H.
  destruct list as [|x rest]; [congruence|].
  destruct c as [g d fl pt tm nid tk pr sn].
  cbn -[mirrorBuckets fold_left upsertGlobal].
  destruct (mirrorBuckets mergeOnly _ _ d);
    cbn -[mirrorBuckets fold_left upsertGlobal]; auto.
Qed.

(** A realtime event carrying one record is a merge-mode pass over it. *)
Lemma onTrip_merges (now : nat) (trip : json) (c : client) :
  truthy trip = true ->
  onTrip clock now trip c = mirrorTripsToLocal clock now (JArr [trip]) true c.
Proof. intros H. unfold onTrip. now rewrite H. Qed.

End WithClock.

End MirrorFacts.


(** ** Rebuild mode and merge mode on a mirrored map *)

Module RebuildFacts.
Import Js JsFacts CanonicalFacts Client ClassifierFacts NormalizerFacts.
Import BucketFacts MirrorFacts.

Lemma In_lookup k v o : lookup k o = Some v -> In (k, v) o.
Proof.
  induction o as [|[k0 v0] r IH]; simpl; [discriminate|].
  destruct (lookup k r).
  - intros H. right. now apply IH.
  - destruct (String.eqb_spec k0 k) as [->|]; [|discriminate].
    intros H. injection H as ->. now left.
Qed.

Lemma stored_record_inv (kv : string * json) :
  stored_record kv = true ->
  exists o x y,
    snd kv = JObj o /\ canonical o = true /\
    lookup "id" o = Some (JStr (fst kv)) /\
    trim (fst kv) = fst kv /\ fst kv <> "" /\
    lookup "createdAt" o = Some x /\ truthy x = true /\
    lookup "updatedAt" o = Some y /\ truthy y = true.
Proof.
  unfold stored_record. destruct kv as [k r]. cbn [fst snd].
  destruct r as [| | | | |o]; try discriminate.
  intros H.
  apply andb_prop in H as [H Hu]. apply andb_prop in H as [H Hcr].
  apply andb_prop in H as [Hc Hid].
  destruct (lookup "id" o) as [[| | |i| |]|] eqn:Ei; try discriminate.
  apply andb_prop in Hid as [Hid Hne]. apply andb_prop in Hid as [Hik Htrim].
  apply String.eqb_eq in Hik. subst i.
  apply String.eqb_eq in Htrim. apply negb_true_iff, String.eqb_neq in Hne.
  destruct (lookup "createdAt" o) as [x|] eqn:Ex; [|discriminate].
  destruct (lookup "updatedAt" o) as [y|] eqn:Ey; [|discriminate].
  exists o, x, y. repeat split; try assumption; reflexivity.
Qed.

Lemma resolved_id_stored (o : obj) (k : string) :
  lookup "id" o = Some (JStr k) -> trim k = k -> k <> "" ->
  resolved_id (JObj o) = k.
Proof.
  intros Hid Ht Hk. unfold resolved_id. cbn [get]. rewrite Hid.
  apply String.eqb_neq in Hk.
  unfold or_else. cbn [truthy_opt truthy]. rewrite Hk. cbn [negb].
  cbn [truthy_opt truthy]. rewrite Hk. cbn [negb].
  cbn [truthy_opt truthy]. rewrite Hk. cbn [negb String_ toStr].
  exact Ht.
Qed.

Section WithClock.
Variable clock : nat -> string.

(** A stored record is a fixed point of the client normalizer, and
    normalizing it reads no clock. *)
Lemma normalizeTrip_stored (n : nat) (kv : string * json) :
  stored_record kv = true ->
  normalizeTrip clock n (snd kv) = (Some (snd kv), n).
Proof.
  intros H.
  destruct (stored_record_inv kv H)
    as (o & x & y & -> & Hc & Hid & Ht & Hk & Hx & Hxt & Hy & Hyt).
  rewrite normalizeTrip_unfold.
  rewrite (resolved_id_stored o _ Hid Ht Hk).
  apply String.eqb_neq in Hk. rewrite Hk.
  cbn [truthy negb orb get own_props]. rewrite Hx, Hy.
  unfold or_now. rewrite Hxt. cbn [fst snd]. rewrite Hyt. cbn [fst snd].
  rewrite (assign_canonical o Hc).
  rewrite assign_same; [reflexivity | now apply canonical_NoDup |].
  intros kv' [<-|[<-|[<-|[]]]]; now apply In_lookup.
Qed.

Lemma normalizeAll_stored (n : nat) (l : obj) :
  forallb stored_record l = true ->
  normalizeAll clock n (values l) = (values l, n).
Proof.
  induction l as [|kv r IH]; simpl; [reflexivity|].
  intros H. apply andb_prop in H as [H1 H2].
  rewrite (normalizeTrip_stored n kv H1), (IH H2). reflexivity.
Qed.

End WithClock.

Lemma upsertGlobal_stored (g : obj) (kv : string * json) :
  NoDup (keys g) -> In kv g -> stored_record kv = true ->
  upsertGlobal g (snd kv) = g.
Proof.
  intros Hnd Hin H.
  destruct (stored_record_inv kv H)
    as (o & x & y & Hr & Hc & Hid & _).
  destruct kv as [k r]. cbn [fst snd] in *. subst r.
  unfold upsertGlobal. cbn [get]. rewrite Hid. cbn [String_ toStr].
  rewrite (lookup_In _ _ _ Hnd Hin). cbn [or_default truthy own_props].
  rewrite (assign_canonical o Hc).
  rewrite assign_same by (auto using canonical_NoDup, incl_refl).
  now apply obj_set_same.
Qed.

Lemma upsertAll_stored (g l : obj) :
  NoDup (keys g) -> incl l g -> forallb stored_record l = true ->
  fold_left upsertGlobal (values l) g = g.
Proof.
  intros Hnd. induction l as [|kv r IH]; simpl; [reflexivity|].
  intros Hincl H. apply andb_prop in H as [H1 H2].
  rewrite upsertGlobal_stored; auto with datatypes.
  apply IH; auto. intros x Hx. apply Hincl. now right.
Qed.

(** Emptying the six buckets. *)
Lemma reset_fold (bs : list string) (s : obj) (b : string) :
  In b bs ->
  lookup b (fold_left (fun s b => obj_set b (JArr []) s) bs s) = Some (JArr []).
Proof.
  revert s. induction bs as [|b0 r IH]; intros s; simpl; [tauto|].
  destruct (in_dec string_dec b r) as [Hr|Hr]; [intros _; now apply IH|].
  intros [->|]; [|contradiction].
  clear IH. generalize (lookup_obj_set_same b (JArr []) s).
  generalize (obj_set b (JArr []) s).
  induction r as [|b1 r IH]; intros s' H; simpl; [assumption|].
  apply IH.
  - intros Hin. apply Hr. now right.
  - rewrite lookup_obj_set. destruct (b1 =? b); [reflexivity | assumption].
Qed.

(** Rebuild mode appends every record to the bucket of its status. *)
Lemma rebuild_fold (l : obj) :
  forall s,
    (forall b, In b buckets -> arrayed b s) ->
    (forall kv, In kv l -> snd kv <> JNull) ->
    exists s',
      fold_left rebuildStep l (Some s) = Some s' /\
      (forall b, In b buckets -> arrayed b s') /\
      (forall b, bucket_list b s' =
                 bucket_list b s ++
                 filter (fun r => statusBucket (get r "status") =? b)
                        (values l)).
Proof.
  induction l as [|[k tr] r IH]; intros s Harr Hnn; cbn [fold_left].
  - exists s. repeat split; auto. intros b. simpl. now rewrite app_nil_r.
  - set (bk := statusBucket (get tr "status")).
    assert (Hbk : arrayed bk s) by apply Harr, statusBucket_in_buckets.
    assert (Hstep : rebuildStep (Some s) (k, tr) =
                    Some (obj_set bk (JArr (bucket_list bk s ++ [tr])) s)).
    { assert (Htr : tr <> JNull) by (apply (Hnn (k, tr)); now left).
      pose proof (arrayed_bucket_list _ _ Hbk) as Hl.
      unfold rebuildStep, push. cbn [snd].
      destruct tr; try congruence; fold bk; now rewrite Hl. }
    rewrite Hstep.
    destruct (IH (obj_set bk (JArr (bucket_list bk s ++ [tr])) s))
      as (s' & E & Harr' & Hl).
    + intros b Hb. apply arrayed_obj_set. now apply Harr.
    + intros kv Hkv. apply Hnn. now right.
    + exists s'. split; [exact E|]. split; [exact Harr'|].
      intros b. rewrite Hl, bucket_list_obj_set. cbn [values map snd filter].
      fold bk. destruct (String.eqb_spec bk b) as [<-|].
      * now rewrite <- app_assoc.
      * reflexivity.
Qed.

Lemma entry_id_stored (kv : string * json) :
  stored_record kv = true ->
  entry_id (snd kv) = fst kv /\ String_ (get (snd kv) "id") = fst kv.
Proof.
  intros H.
  destruct (stored_record_inv kv H) as (o & x & y & -> & _ & Hid & _).
  unfold entry_id, and_then. cbn [truthy_opt truthy get]. now rewrite Hid.
Qed.

Lemma filter_keeps_all {A : Type} (p : A -> bool) (l : list A) :
  (forall x, In x l -> p x = true) -> filter p l = l.
Proof.
  induction l as [|x r IH]; simpl; [reflexivity|].
  intros H. rewrite (H x (or_introl eq_refl)). f_equal. apply IH. auto.
Qed.

Section WithClock.
Variable clock : nat -> string.

(** Merge mode on one stored record: it goes to the front of its bucket and
    leaves alone the entries that carry other ids. *)
Lemma merge_stored_record (now : nat) (kv : string * json) (c : client) :
  stored_record kv = true ->
  forall b, In b buckets ->
    bucket_list b
      (deskStore (mirrorTripsToLocal clock now (JArr [snd kv]) true c)) =
    (if statusBucket (get (snd kv) "status") =? b then [snd kv] else []) ++
    filter (fun x => negb (entry_id x =? fst kv))
           (bucket_list b (deskStore c)).
Proof.
  intros H b Hb.
  destruct (mirror_stores clock now [snd kv] true c [snd kv] (ticks c))
    as [_ Hd].
  { apply normalizeAll_single. now apply normalizeTrip_stored. }
  { discriminate. }
  rewrite Hd. unfold mirrorBuckets. cbn [negb fold_left].
  destruct (mergeStep_buckets (fold_left ensureArray buckets (deskStore c))
                              (snd kv))
    as (s' & E & _ & Hl).
  { intros b0 Hb0. now apply ensureAll_arrayed. }
  rewrite E, (Hl b Hb), ensureAll_bucket_list.
  now rewrite (proj2 (entry_id_stored kv H)).
Qed.

Lemma mergeEach_buckets (now : nat) (l : obj) :
  forall (done : obj) (c : client),
    forallb stored_record (done ++ l) = true ->
    NoDup (keys (done ++ l)) ->
    (forall b, In b buckets ->
       bucket_list b (deskStore c) =
       rev (filter (fun r => statusBucket (get r "status") =? b)
                   (values done))) ->
    forall b, In b buckets ->
      bucket_list b (deskStore (mergeEach clock now (values l) c)) =
      rev (filter (fun r => statusBucket (get r "status") =? b)
                  (values (done ++ l))).
Proof.
  induction l as [|kv r IH]; intros done c Hst Hnd Hinv b Hb.
  - rewrite app_nil_r. cbn. now apply Hinv.
  - cbn [values map mergeEach fold_left].
    change (fold_left _ (map snd r) ?x) with (mergeEach clock now (values r) x).
    replace (done ++ kv :: r) with ((done ++ [kv]) ++ r) in *
      by now rewrite <- app_assoc.
    apply IH; auto.
    intros b0 Hb0.
    assert (Hkv : stored_record kv = true).
    { rewrite forallb_app in Hst. apply andb_prop in Hst as [Hst _].
      rewrite forallb_app in Hst. apply andb_prop in Hst as [_ Hst].
      simpl in Hst. now rewrite andb_true_r in Hst. }
    rewrite (merge_stored_record now kv c Hkv b0 Hb0), (Hinv b0 Hb0).
    rewrite filter_keeps_all.
    + unfold values. rewrite map_app, filter_app, rev_app_distr.
      cbn [map filter]. now destruct (statusBucket _ =? b0).
    + intros x Hx. apply in_rev, filter_In in Hx as [Hx _].
      apply in_map_iff in Hx as (kv0 & <- & Hin).
      assert (H0 : stored_record kv0 = true).
      { rewrite forallb_app in Hst. apply andb_prop in Hst as [Hst _].
        rewrite forallb_app in Hst. apply andb_prop in Hst as [Hst _].
        rewrite forallb_forall in Hst. now apply Hst. }
      rewrite (proj1 (entry_id_stored kv0 H0)).
      apply negb_true_iff, String.eqb_neq. intros Heq.
      unfold keys in Hnd. rewrite !map_app in Hnd.
      apply NoDup_app_remove_r in Hnd. cbn [map] in Hnd.
      apply NoDup_remove_2 in Hnd. rewrite app_nil_r in Hnd.
      apply Hnd. rewrite <- Heq. now apply in_map.
Qed.

End WithClock.

End RebuildFacts.

(** ** The server normalizer *)

Module ServerFacts.
Import Js JsFacts Server.

Section WithClock.
Variable clock : nat -> string.

Lemma server_normalizeTrip_rejects (s : server) (t : option json) :
  fst (normalizeTrip clock s t) = None <-> trimmed_id t = "".
Proof.
  unfold normalizeTrip.
  destruct (String.eqb_spec (trimmed_id t) ""); simpl; split;
    try tauto; discriminate.
Qed.

(** What an accepted record looks like. *)
Lemma server_normalizeTrip_accepts (s s' : server) (t : option json) (r : json) :
  normalizeTrip clock s t = (Some r, s') ->
  trimmed_id t <> "" /\
  s' = mkServer (store s) (disk s) (S (ticks s)) /\
  exists o,
    r = JObj o /\
    lookup "id" o = Some (JStr (trimmed_id t)) /\
    lookup "updatedAt" o = Some (JStr (clock (ticks s))) /\
    lookup "createdAt" o =
      Some (or_default
              (or_else (get (or_default (lookup (trimmed_id t)
                                                (trips (store s)))
                                        (JObj [])) "createdAt")
                       (get_opt t "createdAt"))
              (JStr (clock (ticks s)))).
Proof.
  unfold normalizeTrip.
  destruct (String.eqb_spec (trimmed_id t) "") as [|Hid]; [discriminate|].
  intros H. injection H as <- <-.
  split; [assumption|]. split; [reflexivity|].
  eexists. split; [reflexivity|].
  repeat split; rewrite !lookup_obj_set; str_eqb; reflexivity.
Qed.

Lemma server_normalizeTrip_none (s s' : server) (t : option json) :
  normalizeTrip clock s t = (None, s') -> s' = s.
Proof.
  unfold normalizeTrip. destruct (trimmed_id t =? ""); [|discriminate].
  now intros H; injection H.
Qed.

Lemma server_normalizeTrip_some (s : server) (t : option json) :
  trimmed_id t <> "" ->
  exists m, normalizeTrip clock s t =
            (Some m, mkServer (store s) (disk s) (S (ticks s))).
Proof.
  intros H. unfold normalizeTrip. apply String.eqb_neq in H. rewrite H.
  now eexists.
Qed.

(** A stored truthy [createdAt] survives normalization. *)
Lemma server_normalizeTrip_keeps_createdAt (s s' : server) (t : option json)
      (m v : json) :
  truthy v = true ->
  createdAt_of s (trimmed_id t) = Some v ->
  normalizeTrip clock s t = (Some m, s') ->
  get m "createdAt" = Some v.
Proof.
  intros Hv Hc H.
  destruct (server_normalizeTrip_accepts _ _ _ _ H)
    as (_ & _ & o & -> & _ & _ & Hcr).
  cbn [get]. rewrite Hcr. f_equal.
  unfold createdAt_of in Hc.
  destruct (lookup (trimmed_id t) (trips (store s))) as [r0|];
    [|discriminate].
  assert (Hr0 : truthy r0 = true).
  { destruct r0; try discriminate. reflexivity. }
  cbn [or_default]. rewrite Hr0, Hc.
  unfold or_else. cbn [truthy_opt]. rewrite Hv. cbn [or_default].
  now rewrite Hv.
Qed.

End WithClock.

Lemma createdAt_of_set_trip (id' id : string) (m : json) (s : server) :
  createdAt_of (set_trip id' m s) id =
  if id' =? id then get m "createdAt" else createdAt_of s id.
Proof.
  unfold createdAt_of, set_trip. cbn [store trips].
  rewrite lookup_obj_set. now destruct (id' =? id).
Qed.

Lemma writeData_store (ok : bool) (s : server) :
  store (fst (writeData ok s)) = store s.
Proof. now destruct ok. Qed.

Lemma trimmed_id_with_id (trip : json) (id : string) :
  trimmed_id (Some (with_id trip id)) = trim id.
Proof.
  unfold trimmed_id, with_id. cbn [get_opt get].
  rewrite lookup_obj_set_same. unfold or_else. cbn [truthy_opt truthy].
  destruct (String.eqb_spec id ""); cbn [negb String_ toStr]; congruence.
Qed.

Section WithClock2.
Variable clock : nat -> string.

(** Storing a normalized record keeps every stored truthy [createdAt]. *)
Lemma upsert_keeps_createdAt (s s1 : server) (t : option json) (m v : json)
      (id : string) :
  truthy v = true ->
  createdAt_of s id = Some v ->
  normalizeTrip clock s t = (Some m, s1) ->
  createdAt_of (set_trip (trimmed_id t) m s1) id = Some v.
Proof.
  intros Hv Hc H. rewrite createdAt_of_set_trip.
  destruct (String.eqb_spec (trimmed_id t) id) as [<-|].
  - eapply server_normalizeTrip_keeps_createdAt; eauto.
  - destruct (server_normalizeTrip_accepts clock _ _ _ _ H) as (_ & -> & _).
    exact Hc.
Qed.

(** The two outcomes of [POST /api/trips]. *)
Lemma post_trip_cases (ok : bool) (uuid : string) (body : option json)
      (s : server) :
  let trip := or_default body (JObj []) in
  let id := trim (String_ (or_else (get trip "id") (Some (JStr uuid)))) in
  (id = "" /\
   post_trip clock ok uuid body s =
   (s, [Responded 400 (error_body "Trip id is required.")]))
  \/
  (id <> "" /\
   exists m,
     normalizeTrip clock s (Some (with_id trip id)) = (Some m, tick s) /\
     trimmed_id (Some (with_id trip id)) = id /\
     post_trip clock ok uuid body s =
     (fst (writeData ok (set_trip id m (tick s))),
      snd (writeData ok (set_trip id m (tick s))) ++
      [Emitted (if truthy_opt (lookup id (trips (store s)))
                then "trip:updated" else "trip:created") m;
       Responded 200 m])).
Proof.
  intros trip id.
  assert (Hid : trimmed_id (Some (with_id trip id)) = id).
  { rewrite trimmed_id_with_id. apply trim_idempotent. }
  unfold post_trip. fold trip. fold id.
  destruct (String.eqb_spec id "") as [E|E].
  - left. split; [exact E|].
    unfold normalizeTrip. rewrite Hid.
    apply String.eqb_eq in E. now rewrite E.
  - right. split; [exact E|].
    destruct (server_normalizeTrip_some clock s (Some (with_id trip id)))
      as [m Hm]; [congruence|].
    exists m. split; [exact Hm|]. split; [exact Hid|].
    rewrite Hm. unfold tick. cbn [store].
    now destruct (writeData ok _).
Qed.

(** The two outcomes of [PATCH /api/trips/:id]. *)
Lemma patch_trip_cases (ok : bool) (param : string) (body : option json)
      (s : server) :
  let patch := or_default body (JObj []) in
  let id := trim param in
  (id = "" /\
   patch_trip clock ok param body s =
   (s, [Responded 400 (error_body "Trip id is required.")]))
  \/
  (id <> "" /\
   exists m,
     normalizeTrip clock s (Some (with_id patch id)) = (Some m, tick s) /\
     trimmed_id (Some (with_id patch id)) = id /\
     patch_trip clock ok param body s =
     (fst (writeData ok (set_trip id m (tick s))),
      snd (writeData ok (set_trip id m (tick s))) ++
      [Emitted "trip:updated" m; Responded 200 m])).
Proof.
  intros patch id.
  assert (Hid : trimmed_id (Some (with_id patch id)) = id).
  { rewrite trimmed_id_with_id. apply trim_idempotent. }
  unfold patch_trip. rewrite status_text. fold patch. fold id.
  destruct (String.eqb_spec id "") as [E|E].
  - left. now split.
  - right. split; [exact E|].
    destruct (server_normalizeTrip_some clock s (Some (with_id patch id)))
      as [m Hm]; [congruence|].
    exists m. split; [exact Hm|]. split; [exact Hid|].
    rewrite Hm. unfold tick.
    now destruct (writeData ok _).
Qed.

Lemma accepted_iff (t : json) :
  accepted t = true <-> trimmed_id (Some t) <> "".
Proof.
  unfold accepted, trimmed_id. cbn [get_opt].
  rewrite negb_true_iff, <- not_true_iff_false, <- blank_iff. tauto.
Qed.

(** One iteration of the bulk loop on an accepted entry. *)
Lemma bulk_loop_step (t : json) (r : list json) (s : server) (u : nat)
      (ch : list json) :
  accepted t = true ->
  exists m,
    normalizeTrip clock s (Some t) = (Some m, tick s) /\
    String_ (get m "id") = trimmed_id (Some t) /\
    bulk_loop clock (t :: r) s u ch =
    bulk_loop clock r (set_trip (trimmed_id (Some t)) m (tick s)) (u + 1)
              (ch ++ [m]).
Proof.
  intros Ha. apply accepted_iff in Ha.
  destruct (server_normalizeTrip_some clock s (Some t) Ha) as [m Hm].
  exists m. split; [exact Hm|]. split.
  - destruct (server_normalizeTrip_accepts clock _ _ _ _ Hm)
      as (_ & _ & o & -> & Ho & _).
    cbn [get]. now rewrite Ho.
  - cbn [bulk_loop]. apply String.eqb_neq in Ha. now rewrite Ha, Hm.
Qed.

Lemma bulk_loop_skip (t : json) (r : list json) (s : server) (u : nat)
      (ch : list json) :
  accepted t = false ->
  bulk_loop clock (t :: r) s u ch = bulk_loop clock r s u ch.
Proof.
  intros Ha. cbn [bulk_loop].
  destruct (String.eqb_spec (trimmed_id (Some t)) "") as [|E];
    [reflexivity|].
  apply accepted_iff in E. congruence.
Qed.

(** The loop counts the accepted entries and collects their normalized
    records, in order. *)
Lemma bulk_loop_spec (l : list json) :
  forall (s : server) (u : nat) (ch : list json),
    snd (fst (bulk_loop clock l s u ch)) = u + length (filter accepted l) /\
    snd (bulk_loop clock l s u ch) =
      ch ++ upsertEach clock s (filter accepted l).
Proof.
  induction l as [|t r IH]; intros s u ch.
  - cbn. now rewrite Nat.add_0_r, app_nil_r.
  - cbn [filter]. destruct (accepted t) eqn:Ha.
    + destruct (bulk_loop_step t r s u ch Ha) as (m & Hm & Hi & ->).
      destruct (IH (set_trip (trimmed_id (Some t)) m (tick s)) (u + 1)
                   (ch ++ [m])) as [-> ->].
      cbn [length upsertEach]. rewrite Hm, Hi, <- app_assoc.
      split; [lia | reflexivity].
    + rewrite (bulk_loop_skip t r s u ch Ha). apply IH.
Qed.

(** A property of the server that storing a normalized record preserves
    holds after the loop. *)
Lemma bulk_loop_invariant (P : server -> Prop) :
  (forall s t m s1,
     P s -> normalizeTrip clock s (Some t) = (Some m, s1) ->
     P (set_trip (trimmed_id (Some t)) m s1)) ->
  forall (l : list json) (s : server) (u : nat) (ch : list json),
    P s -> P (fst (fst (bulk_loop clock l s u ch))).
Proof.
  intros Hstep l. induction l as [|t r IH]; intros s u ch HP; [exact HP|].
  destruct (accepted t) eqn:Ha.
  - destruct (bulk_loop_step t r s u ch Ha) as (m & Hm & _ & ->).
    apply IH. eapply Hstep; eauto.
  - rewrite (bulk_loop_skip t r s u ch Ha). now apply IH.
Qed.


(** The two outcomes of [POST /api/trips/bulk]. *)
Lemma post_bulk_cases (ok : bool) (body : option json) (s : server) :
  (bulk_trips body = [] /\
   post_bulk clock ok body s = (s, [Responded 200 (bulk_body 0)]))
  \/
  (bulk_trips body <> [] /\
   let acc := filter accepted (bulk_trips body) in
   let s1 := fst (fst (bulk_loop clock (bulk_trips body) s 0 [])) in
   post_bulk clock ok body s =
   (fst (writeData ok s1),
    snd (writeData ok s1) ++
    [Emitted "trip:bulk" (JArr (upsertEach clock s acc));
     Responded 200 (bulk_body (length acc))])).
Proof.
  unfold post_bulk.
  destruct (bulk_trips body) as [|t r] eqn:E; [now left|].
  right. split; [discriminate|]. cbv zeta.
  destruct (bulk_loop_spec (t :: r) s 0 []) as [Hu Hc].
  destruct (bulk_loop clock (t :: r) s 0 []) as [[s1 u] ch].
  cbn [fst snd] in *. subst u ch. cbn [app Nat.add].
  now destruct (writeData ok s1).
Qed.

(** No request changes a truthy [createdAt] once it is stored. *)
Lemma handle_keeps_createdAt (rq : request) (s : server) (id : string)
      (v : json) :
  truthy v = true ->
  createdAt_of s id = Some v ->
  createdAt_of (fst (handle clock rq s)) id = Some v.
Proof.
  intros Hv Hc.
  assert (Hw : forall ok s0,
             createdAt_of (fst (writeData ok s0)) id = createdAt_of s0 id).
  { intros ok s0. unfold createdAt_of. now rewrite writeData_store. }
  destruct rq as [ok uuid body | ok param body | ok body]; cbn [handle].
  - destruct (post_trip_cases ok uuid body s)
      as [[_ ->] | (_ & m & Hm & Hid & ->)]; [exact Hc|].
    cbn [fst]. rewrite Hw, <- Hid at 1.
    eapply upsert_keeps_createdAt; eauto.
  - destruct (patch_trip_cases ok param body s)
      as [[_ ->] | (_ & m & Hm & Hid & ->)]; [exact Hc|].
    cbn [fst]. rewrite Hw, <- Hid at 1.
    eapply upsert_keeps_createdAt; eauto.
  - destruct (post_bulk_cases ok body s) as [[_ ->] | [_ ->]]; [exact Hc|].
    cbn [fst]. rewrite Hw.
    apply (bulk_loop_invariant
             (fun s0 => createdAt_of s0 id = Some v)); [|exact Hc].
    intros s0 t m s1 H0 Hn. eapply upsert_keeps_createdAt; eauto.
Qed.

Lemma serve_keeps_createdAt (rs : list request) :
  forall (s : server) (id : string) (v : json),
    truthy v = true ->
    createdAt_of s id = Some v ->
    createdAt_of (serve clock rs s) id = Some v.
Proof.
  induction rs as [|rq r IH]; intros s id v Hv Hc; [exact Hc|].
  cbn [serve fold_left]. apply IH; [exact Hv|].
  now apply handle_keeps_createdAt.
Qed.

End WithClock2.

End ServerFacts.

(** ** The debounced push *)

Module SchedulerFacts.
Import Js Client.



(** One run of the push routine: it is recorded, it posts the snapshot when
    there is one, it raises the flag and schedules its lowering. *)
Lemma pushAllTripsToServer_effect (now : nat) (c : client) :
  pushRuns (pushAllTripsToServer now c) = pushRuns c ++ [now] /\
  sent (pushAllTripsToServer now c) =
    sent c ++ match snapshot c with [] => [] | l => [(now, l)] end /\
  timers (pushAllTripsToServer now c) =
    timers c ++ [mkTimer (nextTimerId c) (now + 0) LowerFlag] /\
  suppress (pushAllTripsToServer now c) = true /\
  pushTimer (pushAllTripsToServer now c) = pushTimer c /\
  deskStore (pushAllTripsToServer now c) = deskStore c.
Proof.
  destruct c as [g d fl pt tm nid tk pr sn].
  unfold pushAllTripsToServer, snapshot.
  cbn -[mergedById fold_left filter values].
  repeat split.
  destruct (filter truthy (values (mergedById g d))); cbn;
    [now rewrite app_nil_r | reflexivity].
Qed.

Lemma advance_quiescent (now : nat) (c : client) :
  timers c = [] -> advance now c = c.
Proof. intros H. unfold advance. now rewrite H. Qed.


Lemma advance_n_fire (f now : nat) (c : client) (tm : timer) :
  next_due now (timers c) = Some tm ->
  advance_n (S f) now c =
  advance_n f now
    (run_callback (action tm) (due tm) (clearTimeout (timer_id tm) c)).
Proof. intros H. cbn [advance_n]. now rewrite H. Qed.

Lemma clearTimeout_only (id : nat) (c : client) (tm : timer) :
  timers c = [tm] -> timer_id tm = id ->
  timers (clearTimeout id c) = [] /\
  pushRuns (clearTimeout id c) = pushRuns c /\
  sent (clearTimeout id c) = sent c /\
  snapshot (clearTimeout id c) = snapshot c /\
  pushTimer (clearTimeout id c) = pushTimer c /\
  nextTimerId (clearTimeout id c) = nextTimerId c.
Proof.
  intros Ht Hid. destruct c. cbn [timers] in Ht. subst.
  unfold clearTimeout. cbn [timers filter with_timers].
  rewrite Nat.eqb_refl. repeat split.
Qed.

(** The pending push timer fires once its quiet period has passed, and the
    flag it raises is lowered again right after. *)
Lemma advance_armed_fire (t now : nat) (c : client) :
  armed t c -> t + 400 <= now ->
  quiescent (advance now c) /\
  pushRuns (advance now c) = pushRuns c ++ [t + 400] /\
  sent (advance now c) =
    sent c ++ match snapshot c with [] => [] | l => [(t + 400, l)] end.
Proof.
  intros (Hs & id & Ht & Hp) Hle.
  apply Nat.leb_le in Hle.
  unfold advance. rewrite Ht. cbn [length Nat.mul Nat.add].
  rewrite (advance_n_fire 1 now c (mkTimer id (t + 400) PushAllTrips))
    by (rewrite Ht; cbn [next_due due]; now rewrite Hle).
  cbn [timer_id action due run_callback].
  destruct (clearTimeout_only id c _ Ht eq_refl)
    as (Ht1 & Hr1 & Hs1 & Hsnap1 & _ & _).
  set (c1 := clearTimeout id c) in *.
  destruct (pushAllTripsToServer_effect (t + 400) c1)
    as (Hr2 & Hs2 & Ht2 & _).
  rewrite Ht1 in Ht2. cbn [app] in Ht2.
  set (c2 := pushAllTripsToServer (t + 400) c1) in *.
  rewrite (advance_n_fire 0 now c2 _)
    by (rewrite Ht2; cbn [next_due due]; now rewrite Nat.add_0_r, Hle).
  cbn [timer_id action due run_callback advance_n].
  destruct (clearTimeout_only (nextTimerId c1) c2 _ Ht2 eq_refl)
    as (Ht3 & Hr3 & Hs3 & _).
  set (c3 := clearTimeout (nextTimerId c1) c2) in *.
  assert (Hw : timers (with_suppress false c3) = timers c3 /\
               suppress (with_suppress false c3) = false /\
               pushRuns (with_suppress false c3) = pushRuns c3 /\
               sent (with_suppress false c3) = sent c3)
    by (now destruct c3).
  destruct Hw as (Hw1 & Hf & Hw2 & Hw3).
  unfold quiescent.
  rewrite Hw1, Hw2, Hw3, Ht3, Hf, Hr3, Hs3, Hr2, Hs2, Hr1, Hs1, Hsnap1.
  repeat split.
Qed.


(** *** The fuel of [advance] is enough *)














End SchedulerFacts.
(* ================================================================== *)
(** * The mirror: merge mode and the empty pass                        *)
(* ================================================================== *)

Import Js JsFacts CanonicalFacts Client ClassifierFacts NormalizerFacts.
Import BucketFacts MirrorFacts RebuildFacts Samples.




(** C10.  A pass over an empty list, or over a list whose entries the
    normalizer all rejects, returns before touching anything, in either
    mode: storage, flag, timers and clock stay as they were.  So an initial
    sync whose pull brings no record the normalizer accepts leaves the
    canonical map and every bucket list as they stood, stale or not. *)
Theorem mirror_without_records_changes_nothing :
  forall (clock : nat -> string) (now : nat) (trips : json) (mergeOnly : bool)
         (c : client),
    Forall (fun t => forall k, fst (normalizeTrip clock k t) = None)
           (items_of trips) ->
    mirrorTripsToLocal clock now trips mergeOnly c = c /\
    initialSync clock now (Some trips) c = c.
Proof.
  intros clock now trips mergeOnly c H.
  assert (Hm : forall m, mirrorTripsToLocal clock now trips m c = c).
  { intros m. unfold mirrorTripsToLocal.
    rewrite (normalizeAll_rejected clock _ _ H). apply with_ticks_same. }
  split; [apply Hm|].
  unfold initialSync. destruct trips; try reflexivity. apply Hm.
Qed.

Lemma mirror_without_records_changes_nothing_witness :
  let trips := JArr [JNull; JObj [("status", JStr "Approved")];
                     JObj [("id", JStr "   ")]; JStr "t9"] in
  mirrorTripsToLocal demo_clock 3 trips false demo_client = demo_client /\
  initialSync demo_clock 3 (Some trips) demo_client = demo_client.
Proof.
  intros trips.
  apply (mirror_without_records_changes_nothing demo_clock 3 trips false
                                                demo_client).
  repeat constructor.
Defined.

(** An initial sync that pulls zero records keeps the stale bucket store. *)
Example initial_sync_of_nothing :
  deskStore (initialSync demo_clock 3 (Some (JArr [])) demo_client) =
  deskStore demo_client.
Proof. reflexivity. Qed.

(** C4, as the code has it.  For a non-empty canonical map of stored records,
    rebuild mode fills each bucket with the records of that bucket in
    map-iteration order, which is the reverse of what merge mode, applied
    once per record in map-iteration order from empty buckets, leaves there:
    same members, same field contents, opposite order. *)
Theorem rebuild_is_merge_each_reversed :
  forall (clock : nat -> string) (now now' : nat) (g : obj) (c c0 : client),
    mirrored_map g = true ->
    g <> [] ->
    globalMap c = g ->
    (forall b, In b buckets -> bucket_list b (deskStore c0) = []) ->
    forall b, In b buckets ->
      let rebuilt :=
        bucket_list b (deskStore (mirrorTripsToLocal clock now
                                    (JArr (values g)) false c)) in
      let merged :=
        bucket_list b (deskStore (mergeEach clock now' (values g) c0)) in
      rebuilt = filter (fun r => statusBucket (get r "status") =? b) (values g)
      /\ rebuilt = rev merged.
Proof.
  intros clock now now' g c c0 Hg Hne Hgc Hempty b Hb rebuilt merged.
  unfold mirrored_map in Hg. apply andb_prop in Hg as [Hcan Hst].
  pose proof (canonical_NoDup g Hcan) as Hnd.
  assert (Hr : rebuilt =
               filter (fun r => statusBucket (get r "status") =? b) (values g)).
  { unfold rebuilt.
    destruct (mirror_stores clock now (values g) false c (values g) (ticks c))
      as [_ Hd].
    { now apply normalizeAll_stored. }
    { destruct g; [congruence | discriminate]. }
    rewrite Hd, Hgc, (upsertAll_stored g g Hnd (incl_refl g) Hst).
    unfold mirrorBuckets. cbn [negb].
    set (s2 := fold_left (fun s b0 => obj_set b0 (JArr []) s) buckets _).
    destruct (rebuild_fold g s2) as (s' & E & _ & Hl).
    - intros b0 Hb0. exists []. now apply reset_fold.
    - intros kv Hkv. rewrite forallb_forall in Hst.
      destruct (stored_record_inv kv (Hst kv Hkv)) as (o & _ & _ & -> & _).
      discriminate.
    - rewrite E, Hl. unfold bucket_list at 1. unfold s2.
      now rewrite reset_fold. }
  split; [exact Hr|].
  rewrite Hr. unfold merged.
  rewrite (mergeEach_buckets clock now' g [] c0); auto.
  now rewrite rev_involutive.
Qed.

Lemma rebuild_is_merge_each_reversed_witness :
  let c := with_globalMap two_pending demo_client in
  let rebuilt :=
    bucket_list "pending"
      (deskStore (mirrorTripsToLocal demo_clock 5
                    (JArr (values two_pending)) false c)) in
  let merged :=
    bucket_list "pending"
      (deskStore (mergeEach demo_clock 9 (values two_pending) fresh_client)) in
  rebuilt = filter (fun r => statusBucket (get r "status") =? "pending")
                   (values two_pending)
  /\ rebuilt = rev merged.
Proof.
  intros c.
  apply (rebuild_is_merge_each_reversed demo_clock 5 9 two_pending c
                                        fresh_client).
  - reflexivity.
  - discriminate.
  - reflexivity.
  - intros b _. reflexivity.
  - simpl. tauto.
Defined.

(** C4 as stated fails: with two records in one bucket, rebuild mode lists
    them in map-iteration order and merge-per-record in the opposite order. *)
Lemma rebuild_differs_from_merge_each :
  mirrored_map two_pending = true /\
  bucket_list "pending"
    (deskStore (mirrorTripsToLocal demo_clock 5 (JArr (values two_pending))
                                   false
                                   (with_globalMap two_pending fresh_client)))
  <>
  bucket_list "pending"
    (deskStore (mergeEach demo_clock 5 (values two_pending)
                          (with_globalMap two_pending fresh_client))).
Proof.
  split; [reflexivity|]. vm_compute. discriminate.
Qed.

(* ================================================================== *)
(** * The classifier and the two normalizers                           *)
(* ================================================================== *)

Import ServerFacts.

(** C2, as the code has it.  [statusBucket] is a function of the status
    text: it lower-cases it and takes the first match of the priority table
    (completed or final, approved, rejected, policy, manager), [pending] when
    none matches.  A status containing "rejected" and none of "completed",
    "final" and "approved" classifies as [rejected] whether or not it
    contains "manager"; "Pending Manager Approval - Rejected" does. *)
Theorem statusBucket_follows_priority :
  (forall status : option json,
     statusBucket status =
     classify (String_ (or_else status (Some (JStr ""))))) /\
  (forall s : string, statusBucket (Some (JStr s)) = classify s) /\
  (forall s : string,
     includes (toLowerCase s) "rejected" = true ->
     includes (toLowerCase s) "completed" = false ->
     includes (toLowerCase s) "final" = false ->
     includes (toLowerCase s) "approved" = false ->
     statusBucket (Some (JStr s)) = "rejected") /\
  statusBucket (Some (JStr "Pending Manager Approval - Rejected")) = "rejected".
Proof.
  split; [exact statusBucket_cascade|]. split; [|split].
  - intros s. rewrite statusBucket_cascade, status_text. reflexivity.
  - intros s Hr Hc Hf Ha. unfold statusBucket. rewrite status_text.
    now rewrite Hc, Hf, Ha, Hr.
  - reflexivity.
Qed.

Lemma statusBucket_follows_priority_witness :
  statusBucket (Some (JStr "Rejected by Manager (policy)")) = "rejected".
Proof.
  apply (proj1 (proj2 (proj2 statusBucket_follows_priority))); reflexivity.
Defined.

(** C2 as stated fails: a status can contain both "manager" and "rejected"
    and still classify as [approved], which is earlier in the order. *)
Lemma manager_and_rejected_not_always_rejected :
  let s := "manager approved, director rejected" in
  includes s "manager" = true /\ includes s "rejected" = true /\
  statusBucket (Some (JStr s)) <> "rejected".
Proof.
  repeat split. vm_compute. discriminate.
Qed.

(** C5, as the code has it.  The server normalizer returns [null] exactly
    when [id] is missing or blank after trimming.  The client normalizer
    falls back from [id] to [reqId] and then [requestId]: it returns [null]
    exactly when the first truthy one of the three is missing or blank. *)
Theorem normalizer_rejects_iff_no_id :
  forall clock : nat -> string,
    (forall (s : Server.server) (t : option json),
       fst (Server.normalizeTrip clock s t) = None <->
       missing_or_blank (Server.get_opt t "id") = true) /\
    (forall (n : nat) (t : json),
       fst (normalizeTrip clock n t) = None <->
       missing_or_blank (or_else (or_else (get t "id") (get t "reqId"))
                                 (get t "requestId")) = true).
Proof.
  intros clock. split.
  - intros s t. rewrite server_normalizeTrip_rejects.
    apply blank_iff.
  - intros n t. rewrite NormalizerFacts.normalizeTrip_rejects.
    unfold resolved_id. rewrite blank_iff. split; [|tauto].
    intros [Ht|H]; [|exact H].
    destruct t; try discriminate; reflexivity.
Qed.

Lemma normalizer_rejects_iff_no_id_witness :
  fst (Server.normalizeTrip demo_clock
         (Server.mkServer (Server.mkData [] []) (Server.mkData [] []) 0)
         (Some (JObj [("id", JStr "   "); ("status", JStr "Pending")])))
  = None.
Proof.
  apply (proj1 (normalizer_rejects_iff_no_id demo_clock)). reflexivity.
Defined.

(** C5 as stated fails on the client: a record without [id] is accepted
    when it carries [reqId]. *)
Lemma client_accepts_record_without_id :
  let t := JObj [("reqId", JStr "r1"); ("status", JStr "Pending")] in
  get t "id" = None /\ fst (normalizeTrip demo_clock 0 t) <> None.
Proof.
  split; [reflexivity|]. vm_compute. discriminate.
Qed.

(** C1, as the code has it.  The server normalizer sets [updatedAt] to the
    current clock reading on every pass, whatever the input carries, so
    across passes [updatedAt] advances exactly as the clock readings do.  The
    client normalizer keeps a truthy incoming [updatedAt] and takes a clock
    reading only when there is none. *)
Theorem updatedAt_on_normalization :
  forall clock : nat -> string,
    (forall (s s' : Server.server) (t : option json) (r : json),
       Server.normalizeTrip clock s t = (Some r, s') ->
       get r "updatedAt" = Some (JStr (clock (Server.ticks s))) /\
       Server.ticks s' = S (Server.ticks s)) /\
    (forall (s1 s1' s2 s2' : Server.server) (t1 t2 : option json)
            (r1 r2 : json),
       Server.normalizeTrip clock s1 t1 = (Some r1, s1') ->
       Server.normalizeTrip clock s2 t2 = (Some r2, s2') ->
       (clock (Server.ticks s1) <? clock (Server.ticks s2))%string = true ->
       exists u1 u2,
         get r1 "updatedAt" = Some (JStr u1) /\
         get r2 "updatedAt" = Some (JStr u2) /\
         (u1 <? u2)%string = true) /\
    (forall (n n' : nat) (t r : json),
       normalizeTrip clock n t = (Some r, n') ->
       (truthy_opt (get t "updatedAt") = true ->
        get r "updatedAt" = get t "updatedAt") /\
       (truthy_opt (get t "updatedAt") = false ->
        exists k, n <= k <= S n /\ get r "updatedAt" = Some (JStr (clock k)))).
Proof.
  intros clock.
  assert (Hs : forall s s' t r,
             Server.normalizeTrip clock s t = (Some r, s') ->
             get r "updatedAt" = Some (JStr (clock (Server.ticks s))) /\
             Server.ticks s' = S (Server.ticks s)).
  { intros s s' t r H.
    destruct (server_normalizeTrip_accepts clock _ _ _ _ H)
      as (_ & -> & o & -> & _ & Hu & _).
    now split. }
  split; [exact Hs|]. split.
  - intros s1 s1' s2 s2' t1 t2 r1 r2 H1 H2 Hlt.
    destruct (Hs _ _ _ _ H1) as [E1 _]. destruct (Hs _ _ _ _ H2) as [E2 _].
    eauto.
  - intros n n' t r H.
    destruct (NormalizerFacts.normalizeTrip_accepts clock _ _ _ _ H)
      as (o & -> & _ & _ & _ & _ & Hu).
    cbn [get]. rewrite Hu. split; intros Ht.
    + destruct (or_now_truthy clock (get t "updatedAt")
                  (snd (or_now clock (get t "createdAt") n)) Ht) as [-> E].
      exact E.
    + rewrite (or_now_falsy clock _ _ Ht). cbn [fst].
      exists (snd (or_now clock (get t "createdAt") n)).
      split; [apply or_now_ticks | reflexivity].
Qed.

Lemma updatedAt_on_normalization_witness :
  let s := Server.mkServer
             (Server.mkData
                [("t1", JObj [("id", JStr "t1");
                              ("createdAt", JStr "2026-11-01T08:00:00.000Z");
                              ("updatedAt", JStr "2026-11-01T08:00:00.000Z")])]
                [])
             (Server.mkData [] []) 3 in
  get (JObj [("id", JStr "t1");
             ("createdAt", JStr "2026-11-01T08:00:00.000Z");
             ("updatedAt", JStr "2026-11-02T20:09:00.003Z")]) "updatedAt"
    = Some (JStr (demo_clock 3)) /\
  Server.ticks (Server.mkServer (Server.store s) (Server.disk s) 4) = 4.
Proof.
  intros s.
  apply (proj1 (updatedAt_on_normalization demo_clock) s _
               (Some (JObj [("id", JStr "t1")]))).
  reflexivity.
Defined.

(** C1 as stated fails on the client: a record that carries [updatedAt]
    keeps it through normalization, pass after pass, and it is not the
    current time. *)
Lemma client_keeps_incoming_updatedAt :
  let t := JObj [("id", JStr "t1");
                 ("updatedAt", JStr "2020-01-01T00:00:00.000Z")] in
  match normalizeTrip demo_clock 0 t with
  | (Some r1, n1) =>
      match normalizeTrip demo_clock (n1 + 5) r1 with
      | (Some r2, _) =>
          get r1 "updatedAt" = Some (JStr "2020-01-01T00:00:00.000Z") /\
          get r1 "updatedAt" <> Some (JStr (demo_clock 0)) /\
          get r1 "updatedAt" <> Some (JStr (demo_clock 1)) /\
          get r2 "updatedAt" = get r1 "updatedAt"
      | _ => False
      end
  | _ => False
  end.
Proof.
  vm_compute. repeat split; discriminate.
Qed.

(* ================================================================== *)
(** * The server: persist, broadcast, bulk upsert, timestamps          *)
(* ================================================================== *)










(** The specification's example, evaluated. *)
Example bulk_example_outcome :
  snd (Server.post_bulk demo_clock true bulk_example fresh_server) =
  [Server.Persisted
     (Server.mkData
        [("a", JObj [("id", JStr "a");
                     ("createdAt", JStr "2026-11-02T20:09:00.000Z");
                     ("updatedAt", JStr "2026-11-02T20:09:00.000Z")]);
         ("b", JObj [("id", JStr "b");
                     ("createdAt", JStr "2026-11-02T20:09:00.001Z");
                     ("updatedAt", JStr "2026-11-02T20:09:00.001Z")])]
        []);
   Server.Emitted "trip:bulk"
     (JArr [JObj [("id", JStr "a");
                  ("createdAt", JStr "2026-11-02T20:09:00.000Z");
                  ("updatedAt", JStr "2026-11-02T20:09:00.000Z")];
            JObj [("id", JStr "b");
                  ("createdAt", JStr "2026-11-02T20:09:00.001Z");
                  ("updatedAt", JStr "2026-11-02T20:09:00.001Z")]]);
   Server.Responded 200 (JObj [("ok", JBool true); ("upserted", JNum 2)])].
Proof. reflexivity. Qed.


(** [createdAt] of a fresh create whose body carries none: the clock. *)
Lemma fresh_create_createdAt (clock : nat -> string) (s : Server.server)
      (trip : json) (id : string) (m : json) :
  truthy_opt (lookup id (Server.trips (Server.store s))) = false ->
  truthy_opt (get trip "createdAt") = false ->
  Server.trimmed_id (Some (Server.with_id trip id)) = id ->
  Server.normalizeTrip clock s (Some (Server.with_id trip id)) = (Some m, Server.tick s) ->
  get m "createdAt" = Some (JStr (clock (Server.ticks s))) /\
  get m "updatedAt" = Some (JStr (clock (Server.ticks s))).
Proof.
  intros Hfresh Hnone Hid Hm.
  destruct (server_normalizeTrip_accepts clock _ _ _ _ Hm)
    as (_ & _ & o & -> & _ & Hu & Hc).
  cbn [get]. split; [|exact Hu].
  rewrite Hc, Hid. f_equal.
  assert (Hprev : or_default (lookup id (Server.trips (Server.store s)))
                             (JObj []) = JObj []).
  { destruct (lookup id _) as [r|]; [|reflexivity].
    cbn [truthy_opt] in Hfresh. cbn [or_default]. now rewrite Hfresh. }
  rewrite Hprev. cbn [get lookup Server.get_opt].
  unfold Server.with_id. cbn [get].
  rewrite lookup_obj_set, lookup_assign, lookup_createdAt_own_props.
  str_eqb. cbn [lookup].
  unfold or_else. cbn [truthy_opt].
  destruct (get trip "createdAt") as [x|]; cbn [truthy_opt] in *.
  - cbn [or_default]. now rewrite Hnone.
  - reflexivity.
Qed.

(** C8, as the code has it.  On the server a truthy [createdAt], once
    stored for an id, survives every later request.  A create of a fresh id
    whose body carries no [createdAt] answers a record whose [createdAt] and
    [updatedAt] are both the clock reading of the create; a PATCH of that id
    after any further requests answers the same [createdAt] and an
    [updatedAt] equal to the clock reading of the PATCH, which is strictly
    later whenever that reading is. *)
Theorem createdAt_is_set_once :
  forall clock : nat -> string,
    (forall (rs : list Server.request) (s : Server.server) (id : string)
            (v : json),
       truthy v = true ->
       Server.createdAt_of s id = Some v ->
       Server.createdAt_of (Server.serve clock rs s) id = Some v) /\
    (forall (ok : bool) (uuid : string) (body : option json)
            (s : Server.server),
       let trip := or_default body (JObj []) in
       let id := trim (String_ (or_else (get trip "id") (Some (JStr uuid)))) in
       let created := Server.post_trip clock ok uuid body s in
       id <> "" ->
       truthy_opt (lookup id (Server.trips (Server.store s))) = false ->
       truthy_opt (get trip "createdAt") = false ->
       clock (Server.ticks s) <> "" ->
       exists w m1,
         snd created = [w; Server.Emitted "trip:created" m1;
                        Server.Responded 200 m1] /\
         get m1 "createdAt" = Some (JStr (clock (Server.ticks s))) /\
         get m1 "updatedAt" = Some (JStr (clock (Server.ticks s))) /\
         forall (rs : list Server.request) (ok' : bool) (param : string)
                (body' : option json),
           trim param = id ->
           let s2 := Server.serve clock rs (fst created) in
           exists w' m2,
             snd (Server.patch_trip clock ok' param body' s2) =
               [w'; Server.Emitted "trip:updated" m2;
                Server.Responded 200 m2] /\
             get m2 "createdAt" = get m1 "createdAt" /\
             get m2 "updatedAt" = Some (JStr (clock (Server.ticks s2))) /\
             ((clock (Server.ticks s) <? clock (Server.ticks s2))%string = true ->
              exists u1 u2,
                get m1 "updatedAt" = Some (JStr u1) /\
                get m2 "updatedAt" = Some (JStr u2) /\
                (u1 <? u2)%string = true)).
Proof.
  intros clock. split; [intros rs; apply serve_keeps_createdAt|].
  intros ok uuid body s trip id created Hid Hfresh Hnone Hclock.
  pose proof (post_trip_cases clock ok uuid body s) as Hcases.
  cbv zeta in Hcases. fold trip in Hcases. fold id in Hcases.
  destruct Hcases as [[E _] | (_ & m1 & Hm1 & Hi & E)]; [contradiction|].
  destruct (fresh_create_createdAt clock s trip id m1 Hfresh Hnone Hi Hm1)
    as [Hc1 Hu1].
  assert (Hstored : Server.createdAt_of (fst created) id =
                    Some (JStr (clock (Server.ticks s)))).
  { unfold created. rewrite E. cbn [fst].
    unfold Server.createdAt_of. rewrite writeData_store.
    cbn [Server.set_trip Server.store Server.trips].
    now rewrite lookup_obj_set_same. }
  assert (Htruthy : truthy (JStr (clock (Server.ticks s))) = true).
  { cbn [truthy]. apply negb_true_iff. now apply String.eqb_neq. }
  assert (Hw : exists w,
             snd (Server.writeData ok (Server.set_trip id m1 (Server.tick s))) = [w]).
  { destruct ok; now eexists. }
  destruct Hw as [w Hw].
  exists w, m1. split; [|split; [exact Hc1|split; [exact Hu1|]]].
  { unfold created. rewrite E. cbn [snd]. rewrite Hw, Hfresh. reflexivity. }
  intros rs ok' param body' Hp s2.
  pose proof (serve_keeps_createdAt clock rs _ _ _ Htruthy Hstored) as Hkept.
  fold s2 in Hkept.
  pose proof (patch_trip_cases clock ok' param body' s2) as Hcases.
  cbv zeta in Hcases. rewrite Hp in Hcases.
  destruct Hcases as [[E2 _] | (_ & m2 & Hm2 & Hi2 & E2)]; [contradiction|].
  rewrite <- Hi2 in Hkept.
  pose proof (server_normalizeTrip_keeps_createdAt clock _ _ _ _ _
                Htruthy Hkept Hm2) as Hc2.
  destruct (server_normalizeTrip_accepts clock _ _ _ _ Hm2)
    as (_ & _ & o2 & -> & _ & Hu2 & _).
  assert (Hw' : exists w',
             snd (Server.writeData ok'
                    (Server.set_trip id (JObj o2) (Server.tick s2))) = [w']).
  { destruct ok'; now eexists. }
  destruct Hw' as [w' Hw'].
  exists w', (JObj o2). rewrite E2. cbn [snd]. rewrite Hw'.
  split; [reflexivity|]. split; [now rewrite Hc2, Hc1|].
  split; [exact Hu2|].
  intros Hlt. exists (clock (Server.ticks s)), (clock (Server.ticks s2)).
  now repeat split.
Qed.

Lemma createdAt_is_set_once_witness :
  let body := Some (JObj [("id", JStr "t1"); ("status", JStr "Pending")]) in
  let created := Server.post_trip demo_clock true "uuid-1" body fresh_server in
  exists w m1,
    snd created = [w; Server.Emitted "trip:created" m1;
                   Server.Responded 200 m1] /\
    get m1 "createdAt" = Some (JStr (demo_clock 0)) /\
    get m1 "updatedAt" = Some (JStr (demo_clock 0)) /\
    forall (rs : list Server.request) (ok' : bool) (param : string)
           (body' : option json),
      trim param = "t1" ->
      let s2 := Server.serve demo_clock rs (fst created) in
      exists w' m2,
        snd (Server.patch_trip demo_clock ok' param body' s2) =
          [w'; Server.Emitted "trip:updated" m2; Server.Responded 200 m2] /\
        get m2 "createdAt" = get m1 "createdAt" /\
        get m2 "updatedAt" = Some (JStr (demo_clock (Server.ticks s2))) /\
        ((demo_clock 0 <? demo_clock (Server.ticks s2))%string = true ->
         exists u1 u2,
           get m1 "updatedAt" = Some (JStr u1) /\
           get m2 "updatedAt" = Some (JStr u2) /\
           (u1 <? u2)%string = true).
Proof.
  intros body created.
  apply (proj2 (createdAt_is_set_once demo_clock) true "uuid-1" body
               fresh_server).
  - vm_compute. discriminate.
  - reflexivity.
  - reflexivity.
  - vm_compute. discriminate.
Defined.

(** C8 as stated fails for a create whose body carries [createdAt]: the
    answer keeps the incoming value, which is not its [updatedAt]. *)
Lemma fresh_create_keeps_incoming_createdAt :
  let out := Server.post_trip demo_clock true "uuid-1"
               (Some (JObj [("id", JStr "t1"); ("status", JStr "Pending");
                            ("createdAt", JStr "2020-01-01T00:00:00.000Z")]))
               fresh_server in
  exists m,
    In (Server.Responded 200 m) (snd out) /\
    get m "createdAt" = Some (JStr "2020-01-01T00:00:00.000Z") /\
    get m "createdAt" <> get m "updatedAt".
Proof.
  eexists. vm_compute.
  split; [right; right; left; reflexivity|]. split; [reflexivity|discriminate].
Qed.

(* ================================================================== *)
(** * The debounced push                                               *)
(* ================================================================== *)

Import SchedulerFacts.




(* ================================================================== *)
(** * Part III: further properties of the code                         *)
(* ================================================================== *)

(** ** Array-index keys name their number uniquely *)

Module IndexFacts.
Import Js JsFacts CanonicalFacts.

Lemma digit_of_bound (c : ascii) (d : N) :
  digit_of c = Some d -> (d < 10)%N.
Proof.
  unfold digit_of.
  destruct ((48 <=? N_of_ascii c) && (N_of_ascii c <=? 57))%N eqn:E;
    [|discriminate].
  apply andb_prop in E as [E1 E2].
  apply N.leb_le in E1. apply N.leb_le in E2.
  intros H. injection H as <-. lia.
Qed.

Lemma digit_of_inj (c1 c2 : ascii) (d : N) :
  digit_of c1 = Some d -> digit_of c2 = Some d -> c1 = c2.
Proof.
  unfold digit_of.
  destruct ((48 <=? N_of_ascii c1) && (N_of_ascii c1 <=? 57))%N eqn:E1;
    [|discriminate].
  destruct ((48 <=? N_of_ascii c2) && (N_of_ascii c2 <=? 57))%N eqn:E2;
    [|discriminate].
  apply andb_prop in E1 as [E1 _]. apply andb_prop in E2 as [E2 _].
  apply N.leb_le in E1. apply N.leb_le in E2.
  intros H1 H2. injection H1 as H1. injection H2 as H2.
  rewrite <- (ascii_N_embedding c1), <- (ascii_N_embedding c2).
  f_equal. lia.
Qed.

Lemma pow10_cons (c : ascii) (s : string) :
  pow10 (String c s) = (10 * pow10 s)%N.
Proof.
  unfold pow10. cbn [String.length].
  now rewrite Nat2N.inj_succ, N.pow_succ_r'.
Qed.

(** The accumulator only shifts the value that is read. *)
Lemma parse_digits_acc (s : string) :
  forall acc : N,
    parse_digits s acc =
    option_map (fun v => (acc * pow10 s + v)%N) (parse_digits s 0).
Proof.
  induction s as [|c r IH]; intros acc.
  - cbn. f_equal. lia.
  - cbn [parse_digits]. destruct (digit_of c) as [d|]; [|reflexivity].
    rewrite (IH (acc * 10 + d)%N), (IH (0 * 10 + d)%N).
    destruct (parse_digits r 0) as [v|]; [|reflexivity].
    cbn [option_map]. f_equal. rewrite pow10_cons. lia.
Qed.

Lemma parse_digits_cons (c : ascii) (r : string) (v : N) :
  parse_digits (String c r) 0 = Some v ->
  exists d w, digit_of c = Some d /\ parse_digits r 0 = Some w /\
              v = (d * pow10 r + w)%N.
Proof.
  cbn [parse_digits]. destruct (digit_of c) as [d|]; [|discriminate].
  rewrite parse_digits_acc.
  destruct (parse_digits r 0) as [w|]; [|discriminate].
  cbn [option_map]. intros H. injection H as <-.
  exists d, w. split; [reflexivity|]. split; [reflexivity | lia].
Qed.

Lemma parse_digits_bound (s : string) :
  forall v, parse_digits s 0 = Some v -> (v < pow10 s)%N.
Proof.
  induction s as [|c r IH]; intros v H.
  - cbn in H. injection H as <-. cbn. lia.
  - apply parse_digits_cons in H as (d & w & Hd & Hw & ->).
    apply digit_of_bound in Hd. specialize (IH w Hw).
    rewrite pow10_cons. nia.
Qed.

(** Two digit strings of one length with one value are one string. *)
Lemma parse_digits_inj_length (s1 : string) :
  forall (s2 : string) (v : N),
    String.length s1 = String.length s2 ->
    parse_digits s1 0 = Some v -> parse_digits s2 0 = Some v -> s1 = s2.
Proof.
  induction s1 as [|c1 r1 IH]; intros [|c2 r2] v Hl H1 H2;
    try discriminate; [reflexivity|].
  injection Hl as Hl.
  apply parse_digits_cons in H1 as (d1 & w1 & Hd1 & Hw1 & E1).
  apply parse_digits_cons in H2 as (d2 & w2 & Hd2 & Hw2 & E2).
  assert (Hp : pow10 r1 = pow10 r2) by (unfold pow10; now rewrite Hl).
  pose proof (parse_digits_bound _ _ Hw1) as B1.
  pose proof (parse_digits_bound _ _ Hw2) as B2.
  rewrite Hp in *.
  assert (Hq : d1 = d2 /\ w1 = w2).
  { apply (N.div_mod_unique (pow10 r2)); try assumption. lia. }
  destruct Hq as [-> ->].
  f_equal.
  - eapply digit_of_inj; eauto.
  - eapply IH; eauto.
Qed.

(** The shape of [array_index] on a non-empty key. *)
Lemma array_index_unfold (c : ascii) (r : string) :
  array_index (String c r) =
  if Ascii.eqb c "0" then
    match r with EmptyString => Some 0%N | String _ _ => None end
  else
    match parse_digits (String c r) 0 with
    | Some n => if (n <? 4294967295)%N then Some n else None
    | None => None
    end.
Proof.
  destruct c as [[] [] [] [] [] [] [] []]; reflexivity.
Qed.

Lemma digit_of_zero (c : ascii) : digit_of c = Some 0%N -> c = "0"%char.
Proof. intros H. eapply digit_of_inj; [exact H | reflexivity]. Qed.

(** A key that is an array index has as many characters as its number has
    digits: its value lies between the powers of ten around its length. *)
Lemma array_index_range (c : ascii) (r : string) (n : N) :
  array_index (String c r) = Some n ->
  parse_digits (String c r) 0 = Some n /\
  (n = 0%N /\ r = EmptyString \/ (pow10 r <= n)%N).
Proof.
  rewrite array_index_unfold.
  destruct (Ascii.eqb_spec c "0") as [->|Hc].
  - destruct r; [|discriminate]. intros H. injection H as <-.
    split; [reflexivity | now left].
  - destruct (parse_digits (String c r) 0) as [v|] eqn:E; [|discriminate].
    destruct (v <? 4294967295)%N; [|discriminate].
    intros H. injection H as <-. split; [reflexivity|]. right.
    apply parse_digits_cons in E as (d & w & Hd & Hw & ->).
    assert (d <> 0%N).
    { intros ->. apply Hc. now apply digit_of_zero. }
    nia.
Qed.

Lemma pow10_length_lt (s1 s2 : string) :
  (pow10 s1 < 10 * pow10 s2)%N -> String.length s1 <= String.length s2.
Proof.
  unfold pow10. intros H.
  rewrite <- N.pow_succ_r' in H.
  apply N.pow_lt_mono_r_iff in H; lia.
Qed.

Lemma array_index_inj (k1 k2 : string) (n : N) :
  array_index k1 = Some n -> array_index k2 = Some n -> k1 = k2.
Proof.
  destruct k1 as [|c1 r1]; [discriminate|].
  destruct k2 as [|c2 r2]; [discriminate|].
  intros H1 H2.
  apply array_index_range in H1 as [P1 R1].
  apply array_index_range in H2 as [P2 R2].
  pose proof (parse_digits_bound _ _ P1) as B1.
  pose proof (parse_digits_bound _ _ P2) as B2.
  rewrite pow10_cons in B1, B2.
  apply (parse_digits_inj_length _ _ n); try assumption.
  cbn [String.length]. f_equal.
  assert (Hp : forall s, (0 < pow10 s)%N).
  { intros s. unfold pow10. apply N.neq_0_lt_0, N.pow_nonzero. discriminate. }
  destruct R1 as [[-> ->]|R1], R2 as [[E2 ->]|R2].
  - reflexivity.
  - exfalso. pose proof (Hp r2). lia.
  - exfalso. pose proof (Hp r1). lia.
  - apply Nat.le_antisymm; apply pow10_length_lt; lia.
Qed.

End IndexFacts.

(** ** Property definition keeps an object canonical *)

Module CanonicalSetFacts.
Import Js JsFacts CanonicalFacts IndexFacts.

Lemma canonical_from_keys (o1 : obj) :
  forall (o2 : obj) (lo : option N) (past : bool),
    keys o1 = keys o2 ->
    canonical_from lo past o1 = canonical_from lo past o2.
Proof.
  induction o1 as [|[k1 v1] r1 IH]; intros [|[k2 v2] r2] lo past H;
    try discriminate; [reflexivity|].
  unfold keys in H. cbn [map fst] in H. injection H as -> Hr.
  fold (keys r1) in Hr. fold (keys r2) in Hr.
  cbn [canonical_from]. rewrite Hr.
  destruct (array_index k2); now rewrite (IH r2) by exact Hr.
Qed.

Lemma keys_replace_prop (k : string) (v : json) (o : obj) :
  keys (replace_prop k v o) = keys o.
Proof.
  unfold keys. induction o as [|[k0 v0] r IH]; cbn [replace_prop map];
    [reflexivity|].
  rewrite IH. now destruct (k0 =? k).
Qed.

Lemma canonical_from_past (o : obj) (lo lo' : option N) :
  canonical_from lo true o = canonical_from lo' true o.
Proof.
  induction o as [|[k v] r IH]; cbn [canonical_from]; [reflexivity|].
  destruct (array_index k); [reflexivity|]. now rewrite IH.
Qed.

Lemma canonical_from_append (k : string) (v : json) (o : obj) :
  forall (lo : option N) (past : bool),
    array_index k = None -> ~ In k (keys o) ->
    canonical_from lo past o = true ->
    canonical_from lo past (o ++ [(k, v)]) = true.
Proof.
  intros lo past Hk. revert lo past.
  induction o as [|[k0 v0] r IH]; intros lo past Hnotin H.
  - cbn. now rewrite Hk.
  - cbn [app canonical_from] in *.
    destruct (array_index k0) as [m|].
    + apply andb_prop in H as [H1 H2]. rewrite H1. cbn [andb].
      apply IH; [|exact H2]. intros Hin. apply Hnotin. now right.
    + apply andb_prop in H as [H1 H2]. apply andb_true_intro. split.
      * apply negb_true_iff. apply negb_true_iff in H1.
        fold (keys (r ++ [(k, v)])). fold (keys r) in H1.
        unfold keys. rewrite map_app, existsb_app. fold (keys r).
        rewrite H1. cbn. rewrite orb_false_r.
        apply String.eqb_neq. intros ->. apply Hnotin. now left.
      * apply IH; [|exact H2]. intros Hin. apply Hnotin. now right.
Qed.

Lemma canonical_from_insert (n : N) (k : string) (v : json) (o : obj) :
  forall lo : option N,
    array_index k = Some n -> ~ In k (keys o) ->
    match lo with Some m => (m < n)%N | None => True end ->
    canonical_from lo false o = true ->
    canonical_from lo false (insert_index n k v o) = true.
Proof.
  intros lo Hk. revert lo.
  assert (Hhead : forall lo o0,
             match lo with Some m => (m < n)%N | None => True end ->
             canonical_from (Some n) false o0 = true ->
             canonical_from lo false ((k, v) :: o0) = true).
  { intros lo o0 Hlo H0. cbn [canonical_from]. rewrite Hk, H0.
    cbn [negb andb]. rewrite andb_true_r.
    destruct lo as [m|]; [now apply N.ltb_lt | reflexivity]. }
  induction o as [|[k0 v0] r IH]; intros lo Hnotin Hlo H.
  - cbn [insert_index]. now apply Hhead.
  - cbn [insert_index]. cbn [canonical_from] in H.
    destruct (array_index k0) as [m|] eqn:E0.
    + apply andb_prop in H as [H1 H2].
      destruct (m <? n)%N eqn:Emn.
      * cbn [canonical_from]. rewrite E0, H1. cbn [andb].
        apply IH; [| now apply N.ltb_lt | exact H2].
        intros Hin. apply Hnotin. now right.
      * apply Hhead; [exact Hlo|]. cbn [canonical_from]. rewrite E0, H2.
        cbn [negb andb]. rewrite andb_true_r. apply N.ltb_lt.
        apply N.ltb_ge in Emn.
        assert (m <> n).
        { intros ->. apply Hnotin. left. cbn.
          eapply array_index_inj; eauto. }
        lia.
    + apply Hhead; [exact Hlo|]. cbn [canonical_from]. rewrite E0.
      apply andb_prop in H as [H1 H2]. rewrite H1. cbn [andb].
      now rewrite (canonical_from_past r (Some n) lo).
Qed.

(** [o[k] = v] keeps a canonical object canonical. *)
Lemma obj_set_canonical (k : string) (v : json) (o : obj) :
  canonical o = true -> canonical (obj_set k v o) = true.
Proof.
  unfold canonical, obj_set. intros H.
  destruct (lookup k o) eqn:E.
  - now rewrite (canonical_from_keys _ o _ _ (keys_replace_prop k v o)).
  - apply lookup_None_iff in E.
    destruct (array_index k) as [n|] eqn:Ek.
    + now apply canonical_from_insert.
    + now apply canonical_from_append.
Qed.

Lemma assign_canonical_acc (src acc : obj) :
  canonical acc = true -> canonical (assign acc src) = true.
Proof.
  unfold assign. revert acc.
  induction src as [|[k v] r IH]; intros acc H; [exact H|].
  cbn [fold_left fst snd]. apply IH. now apply obj_set_canonical.
Qed.

(** An object built by copying into [{}] is canonical, whatever is copied. *)
Lemma assign_from_empty_canonical (src : obj) : canonical (assign [] src) = true.
Proof. now apply assign_canonical_acc. Qed.

(** *** Lower-casing and substring search *)

Lemma lower_char_idempotent (c : ascii) :
  lower_char (lower_char c) = lower_char c.
Proof. destruct c as [[] [] [] [] [] [] [] []]; reflexivity. Qed.

Lemma toLowerCase_idempotent (s : string) :
  toLowerCase (toLowerCase s) = toLowerCase s.
Proof.
  induction s as [|c r IH]; cbn; [reflexivity|].
  now rewrite lower_char_idempotent, IH.
Qed.

Lemma prefix_app_l (a b s : string) :
  prefix (a ++ b)%string s = true -> prefix a s = true.
Proof.
  revert s. induction a as [|c r IH]; intros s; [now destruct s|].
  destruct s as [|c' s']; cbn; [discriminate|].
  destruct (ascii_dec c c'); [apply IH | discriminate].
Qed.

Lemma includes_cons (c : ascii) (hay needle : string) :
  includes hay needle = true -> includes (String c hay) needle = true.
Proof. intros H. cbn [includes]. rewrite H. apply orb_true_r. Qed.

Lemma includes_app_l (a b : string) (hay : string) :
  includes hay (a ++ b)%string = true -> includes hay a = true.
Proof.
  induction hay as [|c r IH]; cbn [includes].
  - rewrite !orb_false_r. apply prefix_app_l.
  - intros H. apply orb_prop in H as [H|H].
    + apply prefix_app_l in H. now rewrite H.
    + rewrite (IH H). apply orb_true_r.
Qed.

Lemma prefix_app_r (a b s : string) :
  prefix (a ++ b)%string s = true -> includes s b = true.
Proof.
  revert s. induction a as [|c r IH]; intros s.
  - cbn [append]. intros H. destruct s; cbn [includes]; now rewrite H.
  - destruct s as [|c' s']; cbn [append prefix]; [discriminate|].
    destruct (ascii_dec c c'); [|discriminate].
    intros H. apply includes_cons. now apply IH.
Qed.

Lemma includes_app_r (a b : string) (hay : string) :
  includes hay (a ++ b)%string = true -> includes hay b = true.
Proof.
  induction hay as [|c r IH]; cbn [includes].
  - rewrite orb_false_r. intros H. apply prefix_app_r in H. exact H.
  - intros H. apply orb_prop in H as [H|H].
    + apply prefix_app_r in H. exact H.
    + apply includes_cons. now apply IH.
Qed.

End CanonicalSetFacts.

(** ** The mirror, further *)

Module MirrorMoreFacts.
Import Js JsFacts CanonicalFacts Client ClassifierFacts NormalizerFacts.
Import BucketFacts MirrorFacts RebuildFacts SchedulerFacts CanonicalSetFacts.

Lemma normalized_inv (tr : json) :
  normalized tr = true ->
  exists o i, tr = JObj o /\ lookup "id" o = Some (JStr i) /\ i <> "" /\
              id_of tr = i /\ entry_id tr = i.
Proof.
  unfold normalized, id_of, entry_id, and_then.
  destruct tr as [| | | | |o]; try discriminate. cbn [get truthy_opt truthy].
  destruct (lookup "id" o) as [[| | |i| |]|] eqn:E; try discriminate.
  intros H. apply negb_true_iff, String.eqb_neq in H.
  exists o, i. repeat split; try assumption; reflexivity.
Qed.

Section WithClock.
Variable clock : nat -> string.

Lemma normalizeTrip_normalized (n n' : nat) (t tr : json) :
  normalizeTrip clock n t = (Some tr, n') -> normalized tr = true.
Proof.
  intros H.
  destruct (normalizeTrip_accepts clock _ _ _ _ H) as (o & -> & Hne & Ho & _).
  unfold normalized. cbn [get]. rewrite Ho.
  now apply negb_true_iff, String.eqb_neq.
Qed.

Lemma normalizeAll_normalized (l : list json) :
  forall n, Forall (fun tr => normalized tr = true)
                   (fst (normalizeAll clock n l)).
Proof.
  induction l as [|t r IH]; intros n; cbn [normalizeAll]; [constructor|].
  destruct (normalizeTrip clock n t) as [[tr|] n1] eqn:E;
    specialize (IH n1); destruct (normalizeAll clock n1 r) as [rest n2];
    cbn [fst] in *; [|exact IH].
  constructor; [|exact IH]. eapply normalizeTrip_normalized; eauto.
Qed.

(** What a pass that normalizes at least one record does to the timers and
    the flag: it raises the flag and schedules its lowering, nothing else. *)
Lemma mirror_schedule now items mergeOnly c list n :
  normalizeAll clock (ticks c) items = (list, n) ->
  list <> [] ->
  let c' := mirrorTripsToLocal clock now (JArr items) mergeOnly c in
  timers c' = timers c ++ [mkTimer (nextTimerId c) (now + 0) LowerFlag] /\
  suppress c' = true /\ pushTimer c' = pushTimer c /\
  pushRuns c' = pushRuns c /\ sent c' = sent c /\ ticks c' = n.
Proof.
  intros H Hne. unfold mirrorTripsToLocal. cbn [items_of]. rewrite H.
  destruct list as [|x rest]; [congruence|].
  destruct c as [g d fl pt tm nid tk pr sn].
  cbn -[mirrorBuckets fold_left upsertGlobal].
  destruct (mirrorBuckets mergeOnly _ _ d);
    cbn -[mirrorBuckets fold_left upsertGlobal]; repeat split.
Qed.

Lemma mirror_nothing now trips mergeOnly c n :
  normalizeAll clock (ticks c) (items_of trips) = ([], n) ->
  mirrorTripsToLocal clock now trips mergeOnly c = with_ticks n c.
Proof. intros H. unfold mirrorTripsToLocal. now rewrite H. Qed.

End WithClock.

(** *** The canonical map after a pass *)

Lemma upsertGlobal_other (g : obj) (tr : json) (k : string) :
  id_of tr <> k -> lookup k (upsertGlobal g tr) = lookup k g.
Proof. intros H. unfold upsertGlobal. now apply lookup_obj_set_other. Qed.

Lemma upsertAll_other (list : list json) :
  forall (g : obj) (k : string),
    carries k list = false ->
    lookup k (fold_left upsertGlobal list g) = lookup k g.
Proof.
  induction list as [|tr r IH]; intros g k H; [reflexivity|].
  cbn [carries existsb] in H. apply orb_false_elim in H as [H1 H2].
  cbn [fold_left]. rewrite (IH _ _ H2).
  apply upsertGlobal_other. now apply String.eqb_neq.
Qed.

(** *** The bucket store after a merge step *)

Lemma ensureAll_lookup_other (bs : list string) :
  forall (s : obj) (k : string),
    ~ In k bs -> lookup k (fold_left ensureArray bs s) = lookup k s.
Proof.
  induction bs as [|b r IH]; intros s k H; [reflexivity|].
  cbn [fold_left]. rewrite IH by (intros Hin; apply H; now right).
  unfold ensureArray.
  destruct (lookup b s) as [[]|]; try reflexivity;
    apply lookup_obj_set_other; intros ->; apply H; now left.
Qed.

Lemma mergeStep_frame (s s' : obj) (tr : json) (k : string) :
  (forall b, In b buckets -> arrayed b s) ->
  mergeStep (Some s) tr = Some s' ->
  ~ In k buckets -> lookup k s' = lookup k s.
Proof.
  intros Harr E Hk. unfold mergeStep in E.
  destruct (dropFrom_fold (id_of tr) buckets buckets_NoDup s Harr)
    as (s1 & E1 & _ & _ & Hout).
  unfold id_of in E1. rewrite E1 in E. unfold unshift in E.
  destruct (lookup _ s1) as [[| | | |l|]|]; try discriminate.
  injection E as <-. rewrite lookup_obj_set_other; [now apply Hout|].
  intros <-. apply Hk. apply statusBucket_in_buckets.
Qed.

(** How often an id occurs in a bucket after one merge step. *)
Lemma mergeStep_occurrences (s : obj) (tr : json) :
  (forall b, In b buckets -> arrayed b s) ->
  normalized tr = true ->
  exists s',
    mergeStep (Some s) tr = Some s' /\
    (forall b, In b buckets -> arrayed b s') /\
    (forall id b, In b buckets ->
       occurrences id (bucket_list b s') =
       if id_of tr =? id
       then (if statusBucket (get tr "status") =? b then 1 else 0)
       else occurrences id (bucket_list b s)).
Proof.
  intros Harr Hn.
  destruct (mergeStep_buckets s tr Harr) as (s' & E & Harr' & Hl).
  exists s'. split; [exact E|]. split; [exact Harr'|].
  intros id b Hb. rewrite (Hl b Hb), occurrences_app.
  destruct (normalized_inv tr Hn) as (o & i & -> & Ho & Hi & Hid & He).
  unfold id_of in *. rewrite Hid.
  assert (Hone : occurrences id [JObj o] = if i =? id then 1 else 0).
  { unfold occurrences. cbn [filter]. rewrite He. now destruct (i =? id). }
  destruct (String.eqb_spec i id) as [->|Hne].
  - rewrite occurrences_dropped, Nat.add_0_r.
    destruct (statusBucket _ =? b); [|reflexivity].
    now rewrite Hone.
  - assert (Hz : occurrences id
                   (if statusBucket (get (JObj o) "status") =? b
                    then [JObj o] else []) = 0).
    { destruct (_ =? b); [exact Hone | reflexivity]. }
    rewrite Hz. cbn [Nat.add]. unfold occurrences.
    f_equal. clear -Hne.
    induction (bucket_list b s) as [|x r IH]; [reflexivity|].
    cbn [filter].
    destruct (entry_id x =? i) eqn:E1; cbn [negb filter].
    + apply String.eqb_eq in E1. rewrite E1.
      apply String.eqb_neq in Hne. now rewrite Hne.
    + destruct (entry_id x =? id); [f_equal|]; exact IH.
Qed.

Lemma last_bucket_carried (id : string) (list : list json) :
  forall d d', carries id list = true ->
               last_bucket id list d = last_bucket id list d'.
Proof.
  unfold last_bucket, carries.
  induction list as [|x r IH]; intros d d' H; [discriminate|].
  cbn [existsb fold_left] in *.
  destruct (id_of x =? id) eqn:E; [|now apply IH].
  destruct (existsb (fun x0 => id_of x0 =? id) r) eqn:Er;
    [now apply IH|].
  clear -Er. revert Er.
  generalize (statusBucket (get x "status")) as a.
  induction r as [|y r IH]; intros a Er; [reflexivity|].
  cbn [existsb] in Er. apply orb_false_elim in Er as [E1 E2].
  cbn [fold_left]. rewrite E1. now apply IH.
Qed.

(** A merge pass over a whole list: an id the list carries ends once in the
    bucket of its last record; the others are where they were. *)
Lemma mergeAll_occurrences (list : list json) :
  forall s : obj,
    (forall b, In b buckets -> arrayed b s) ->
    Forall (fun tr => normalized tr = true) list ->
    exists s',
      fold_left mergeStep list (Some s) = Some s' /\
      (forall id b, In b buckets ->
         occurrences id (bucket_list b s') =
         if carries id list
         then (if last_bucket id list "pending" =? b then 1 else 0)
         else occurrences id (bucket_list b s)).
Proof.
  induction list as [|tr r IH]; intros s Harr Hall.
  - exists s. now split.
  - inversion Hall as [|? ? Hn Hr]; subst.
    destruct (mergeStep_occurrences s tr Harr Hn) as (s1 & E1 & Harr1 & Ho1).
    destruct (IH s1 Harr1 Hr) as (s' & E & Ho).
    exists s'. cbn [fold_left]. rewrite E1. split; [exact E|].
    intros id b Hb. rewrite (Ho id b Hb), (Ho1 id b Hb).
    cbn [carries existsb]. fold (carries id r).
    unfold last_bucket at 2. cbn [fold_left].
    fold (last_bucket id r (if id_of tr =? id
                            then statusBucket (get tr "status")
                            else "pending")).
    destruct (carries id r) eqn:Ec.
    + rewrite orb_true_r.
      now rewrite (last_bucket_carried id r
                     (if id_of tr =? id
                      then statusBucket (get tr "status") else "pending")
                     "pending" Ec).
    + rewrite orb_false_r.
      destruct (id_of tr =? id); [|reflexivity].
      assert (Hl : forall d, last_bucket id r d = d).
      { clear -Ec. unfold last_bucket, carries in *.
        induction r as [|y r IH]; intros d; [reflexivity|].
        cbn [existsb] in Ec. apply orb_false_elim in Ec as [E1 E2].
        cbn [fold_left]. rewrite E1. now apply IH. }
      now rewrite Hl.
Qed.

(** *** Rebuild mode on a map with a [null] entry *)

Lemma rebuild_fold_thrown (l : obj) : fold_left rebuildStep l None = None.
Proof. induction l as [|kv r IH]; [reflexivity | exact IH]. Qed.

Lemma rebuild_fold_null (l : obj) (k : string) :
  forall st, In (k, JNull) l -> fold_left rebuildStep l st = None.
Proof.
  induction l as [|kv r IH]; intros st; [intros []|].
  intros [->|Hin]; cbn [fold_left].
  - destruct st; cbn [rebuildStep snd]; apply rebuild_fold_thrown.
  - now apply IH.
Qed.

End MirrorMoreFacts.

(** ** The classifier on a status that is not text *)

Module ClassifierMoreFacts.
Import Js JsFacts Client ClassifierFacts.






End ClassifierMoreFacts.

(** ** The client normalizer on its own output *)

Module NormalizerMoreFacts.
Import Js JsFacts CanonicalFacts Client NormalizerFacts RebuildFacts.
Import CanonicalSetFacts.

Section WithClock.
Variable clock : nat -> string.
Hypothesis clock_text : forall k, clock k <> "".

Lemma or_now_value_truthy (v : option json) (n : nat) :
  truthy (fst (or_now clock v n)) = true.
Proof.
  assert (Hc : truthy (JStr (clock n)) = true).
  { cbn [truthy]. apply negb_true_iff, String.eqb_neq, clock_text. }
  unfold or_now. destruct v as [x|]; [destruct (truthy x) eqn:E|];
    cbn [fst]; assumption.
Qed.

Lemma normalizeTrip_output_stored (n n' : nat) (t r : json) :
  normalizeTrip clock n t = (Some r, n') ->
  stored_record (resolved_id t, r) = true.
Proof.
  intros H. pose proof H as H0. rewrite normalizeTrip_unfold in H0.
  destruct (negb (truthy t) || (resolved_id t =? "")) eqn:E; [discriminate|].
  cbv zeta in H0. injection H0 as Hr _.
  destruct (normalizeTrip_accepts clock _ _ _ _ H)
    as (o & -> & Hne & Hid & _ & Hc & Hu).
  injection Hr as Hr.
  unfold stored_record. cbn [snd fst]. rewrite Hid, Hc, Hu.
  cbn [truthy_opt]. rewrite !or_now_value_truthy, String.eqb_refl.
  apply String.eqb_neq in Hne. rewrite Hne.
  assert (Ht : trim (resolved_id t) = resolved_id t)
    by (unfold resolved_id; apply trim_idempotent).
  rewrite Ht, String.eqb_refl. cbn [andb negb]. rewrite !andb_true_r.
  rewrite <- Hr.
  do 3 apply obj_set_canonical. apply assign_from_empty_canonical.
Qed.

End WithClock.

End NormalizerMoreFacts.

(** ** A mirror pass as a whole *)

Module MirrorPassFacts.
Import Js JsFacts CanonicalFacts Client ClassifierFacts NormalizerFacts.
Import BucketFacts MirrorFacts RebuildFacts SchedulerFacts CanonicalSetFacts.
Import MirrorMoreFacts.

(** *** Step 1: the canonical map *)

Lemma upsertGlobal_same (g : obj) (tr : json) :
  lookup (id_of tr) (upsertGlobal g tr) =
  Some (JObj (assign (assign [] (entry_props (id_of tr) g)) (own_props tr))).
Proof. unfold upsertGlobal, entry_props, id_of. apply lookup_obj_set_same. Qed.





(** *** Step 2: the bucket store *)

Lemma mergeAll_frame (list : list json) :
  forall (s s' : obj) (k : string),
    (forall b, In b buckets -> arrayed b s) ->
    fold_left mergeStep list (Some s) = Some s' ->
    ~ In k buckets -> lookup k s' = lookup k s.
Proof.
  induction list as [|tr r IH]; intros s s' k Harr E Hk; cbn [fold_left] in E.
  - now injection E as <-.
  - destruct (mergeStep_buckets s tr Harr) as (s1 & E1 & Harr1 & _).
    rewrite E1 in E. rewrite (IH _ _ _ Harr1 E Hk).
    eapply mergeStep_frame; eauto.
Qed.

Lemma reset_frame (bs : list string) :
  forall (s : obj) (k : string),
    ~ In k bs ->
    lookup k (fold_left (fun s b => obj_set b (JArr []) s) bs s) = lookup k s.
Proof.
  induction bs as [|b r IH]; intros s k H; [reflexivity|].
  cbn [fold_left]. rewrite IH by (intros Hin; apply H; now right).
  apply lookup_obj_set_other. intros ->. apply H. now left.
Qed.

Lemma rebuildStep_frame (s s1 : obj) (kv : string * json) (k : string) :
  rebuildStep (Some s) kv = Some s1 -> ~ In k buckets ->
  lookup k s1 = lookup k s.
Proof.
  intros E Hk.
  assert (Hp : forall tr, push (statusBucket (get tr "status")) tr s = Some s1 ->
                          lookup k s1 = lookup k s).
  { intros tr Ep. unfold push in Ep.
    destruct (lookup _ s) as [[| | | |l|]|]; try discriminate.
    injection Ep as <-. apply lookup_obj_set_other.
    intros <-. apply Hk, statusBucket_in_buckets. }
  unfold rebuildStep in E. destruct (snd kv); try discriminate; eauto.
Qed.

Lemma rebuild_frame (l : obj) :
  forall (s s' : obj) (k : string),
    fold_left rebuildStep l (Some s) = Some s' ->
    ~ In k buckets -> lookup k s' = lookup k s.
Proof.
  induction l as [|kv r IH]; intros s s' k E Hk; cbn [fold_left] in E.
  - now injection E as <-.
  - destruct (rebuildStep (Some s) kv) as [s1|] eqn:E1.
    + rewrite (IH _ _ _ E Hk). eapply rebuildStep_frame; eauto.
    + now rewrite rebuild_fold_thrown in E.
Qed.

Lemma mirrorBuckets_frame (mergeOnly : bool) (g : obj) (list : list json)
      (store s' : obj) (k : string) :
  mirrorBuckets mergeOnly g list store = Some s' ->
  ~ In k buckets -> lookup k s' = lookup k store.
Proof.
  unfold mirrorBuckets. intros E Hk.
  destruct mergeOnly; cbn [negb] in E.
  - rewrite (mergeAll_frame _ _ _ _ (fun b Hb => ensureAll_arrayed _ _ _ Hb) E Hk).
    now apply ensureAll_lookup_other.
  - rewrite (rebuild_frame _ _ _ _ E Hk), reset_frame by assumption.
    now apply ensureAll_lookup_other.
Qed.

(** Rebuild mode on a map without [null] entries. *)
Lemma rebuild_buckets (g : obj) (list : list json) (store : obj) :
  (forall kv, In kv g -> snd kv <> JNull) ->
  exists s',
    mirrorBuckets false g list store = Some s' /\
    forall b, In b buckets ->
      bucket_list b s' =
      filter (fun r => statusBucket (get r "status") =? b) (values g).
Proof.
  intros Hnn. unfold mirrorBuckets. cbn [negb].
  set (s0 := fold_left (fun s b => obj_set b (JArr []) s) buckets _).
  assert (H0 : forall b, In b buckets -> lookup b s0 = Some (JArr [])).
  { intros b Hb. now apply reset_fold. }
  destruct (rebuild_fold g s0) as (s' & E & _ & Hl).
  - intros b Hb. exists []. now apply H0.
  - exact Hnn.
  - exists s'. split; [exact E|]. intros b Hb. rewrite Hl.
    unfold bucket_list at 1. now rewrite (H0 b Hb).
Qed.

Lemma rebuild_buckets_null (g : obj) (list : list json) (store : obj)
      (k : string) :
  lookup k g = Some JNull -> mirrorBuckets false g list store = None.
Proof.
  intros H. unfold mirrorBuckets. cbn [negb].
  apply (rebuild_fold_null _ k). now apply In_lookup.
Qed.

(** *** The flag after a pass *)

Lemma advance_lower_only (now later id : nat) (c : client) :
  timers c = [mkTimer id now LowerFlag] -> now <= later ->
  advance later c = with_suppress false (with_timers [] c).
Proof.
  intros H Hle. destruct c as [g d fl pt tm nid tk pr sn].
  cbn [timers] in H. subst tm. unfold advance.
  cbn [timers length Nat.mul Nat.add advance_n next_due due].
  rewrite (proj2 (Nat.leb_le now later) Hle).
  unfold clearTimeout. cbn [timers filter timer_id]. rewrite Nat.eqb_refl.
  reflexivity.
Qed.

End MirrorPassFacts.

(** ** The event loop under arbitrary happenings *)

Module LoopFacts.
Import Js JsFacts Client MirrorFacts SchedulerFacts MirrorMoreFacts.

Lemma filter_comm {A : Type} (p q : A -> bool) (l : list A) :
  filter p (filter q l) = filter q (filter p l).
Proof.
  induction l as [|x r IH]; [reflexivity|]. cbn [filter].
  destruct (q x) eqn:Eq, (p x) eqn:Ep; cbn [filter];
    rewrite ?Eq, ?Ep, IH; reflexivity.
Qed.

Lemma orig_setItem_loop (k : string) (v : obj) (c : client) :
  timers (orig_setItem k v c) = timers c /\
  pushTimer (orig_setItem k v c) = pushTimer c /\
  suppress (orig_setItem k v c) = suppress c /\
  nextTimerId (orig_setItem k v c) = nextTimerId c /\
  pushRuns (orig_setItem k v c) = pushRuns c /\
  sent (orig_setItem k v c) = sent c.
Proof.
  unfold orig_setItem.
  destruct (k =? "etg-trips-global"); [now destruct c|].
  destruct (k =? "etg-trips"); now destruct c.
Qed.

Lemma setItem_cases (now : nat) (k : string) (v : obj) (c : client) :
  ((suppress c = true \/ mirror_key k = false) /\
   setItem now k v c = orig_setItem k v c)
  \/
  (suppress c = false /\ mirror_key k = true /\
   setItem now k v c = schedulePush now (orig_setItem k v c)).
Proof.
  unfold setItem. cbv zeta.
  destruct (orig_setItem_loop k v c) as (_ & _ & -> & _).
  fold (mirror_key k).
  destruct (suppress c); cbn [negb]; [left; auto|].
  destruct (mirror_key k); [right; auto | left; auto].
Qed.

Lemma schedulePush_loop (now : nat) (c : client) :
  suppress c = false ->
  timers (schedulePush now c) =
    match pushTimer c with
    | Some id => filter (fun t => negb (timer_id t =? id)%nat) (timers c)
    | None => timers c
    end ++ [mkTimer (nextTimerId c) (now + 400) PushAllTrips] /\
  pushTimer (schedulePush now c) = Some (nextTimerId c) /\
  suppress (schedulePush now c) = false /\
  pushRuns (schedulePush now c) = pushRuns c /\
  sent (schedulePush now c) = sent c.
Proof.
  destruct c as [g d fl pt tm nid tk pr sn]. cbn [suppress]. intros ->.
  unfold schedulePush. cbn [suppress pushTimer].
  destruct pt; cbn; repeat split.
Qed.

(** *** At most one push timer is pending *)

Lemma single_push_sub (q : timer -> bool) (c c' : client) :
  filter is_push (timers c') = filter q (filter is_push (timers c)) ->
  pushTimer c' = pushTimer c ->
  single_push c -> single_push c'.
Proof.
  unfold single_push. intros -> ->.
  destruct (filter is_push (timers c)) as [|tm [|tm2 r]]; cbn [filter];
    [auto | | intros []].
  now destruct (q tm).
Qed.

Lemma single_push_same (c c' : client) :
  filter is_push (timers c') = filter is_push (timers c) ->
  pushTimer c' = pushTimer c ->
  single_push c -> single_push c'.
Proof.
  intros Ht Hp. apply (single_push_sub (fun _ => true)); [|exact Hp].
  rewrite Ht. clear. induction (filter is_push (timers c)) as [|x r IH];
    [reflexivity|]. cbn [filter]. now rewrite <- IH.
Qed.

Lemma filter_push_lower (l : list timer) (id d : nat) :
  filter is_push (l ++ [mkTimer id d LowerFlag]) = filter is_push l.
Proof. rewrite filter_app. cbn. apply app_nil_r. Qed.

Lemma single_push_clearTimeout (id : nat) (c : client) :
  single_push c -> single_push (clearTimeout id c).
Proof.
  apply (single_push_sub (fun t => negb (timer_id t =? id)%nat));
    [|now destruct c].
  destruct c as [g d fl pt tm nid tk pr sn]. cbn [clearTimeout timers with_timers].
  apply filter_comm.
Qed.

Lemma single_push_schedulePush (now : nat) (c : client) :
  suppress c = false -> single_push c -> single_push (schedulePush now c).
Proof.
  intros Hs H. destruct (schedulePush_loop now c Hs) as (Ht & Hp & _).
  unfold single_push in *. rewrite Ht, Hp, filter_app. cbn [filter is_push action app].
  assert (E : filter is_push
                (match pushTimer c with
                 | Some id => filter (fun t => negb (timer_id t =? id)%nat) (timers c)
                 | None => timers c
                 end) = []).
  { destruct (filter is_push (timers c)) as [|tm [|tm2 r]] eqn:Ef;
      [| |contradiction].
    - destruct (pushTimer c); [|exact Ef].
      now rewrite filter_comm, Ef.
    - rewrite H, filter_comm, Ef. cbn [filter]. now rewrite Nat.eqb_refl. }
  now rewrite E.
Qed.

Lemma single_push_setItem (now : nat) (k : string) (v : obj) (c : client) :
  single_push c -> single_push (setItem now k v c).
Proof.
  intros H.
  destruct (orig_setItem_loop k v c) as (Ht & Hp & Hs & _).
  assert (H1 : single_push (orig_setItem k v c)).
  { apply (single_push_same c); [now rewrite Ht | exact Hp | exact H]. }
  destruct (setItem_cases now k v c) as [[_ ->]|(Hf & _ & ->)]; [exact H1|].
  apply single_push_schedulePush; [congruence | exact H1].
Qed.

Section WithClock.
Variable clock : nat -> string.

(** What any pass does to the timers and the flag. *)
Lemma mirror_loop (now : nat) (trips : json) (mergeOnly : bool) (c : client) :
  let c' := mirrorTripsToLocal clock now trips mergeOnly c in
  pushTimer c' = pushTimer c /\ pushRuns c' = pushRuns c /\ sent c' = sent c /\
  ((timers c' = timers c /\ suppress c' = suppress c) \/
   (timers c' = timers c ++ [mkTimer (nextTimerId c) (now + 0) LowerFlag] /\
    suppress c' = true)).
Proof.
  cbv zeta.
  destruct (normalizeAll clock (ticks c) (items_of trips)) as [list n] eqn:E.
  destruct list as [|x rest].
  - rewrite (mirror_nothing clock now trips mergeOnly c n E).
    destruct c; cbn; auto 6.
  - assert (Ht : mirrorTripsToLocal clock now trips mergeOnly c =
                 mirrorTripsToLocal clock now (JArr (items_of trips)) mergeOnly c)
      by reflexivity.
    rewrite Ht.
    destruct (mirror_schedule clock now (items_of trips) mergeOnly c _ _ E)
      as (H1 & H2 & H3 & H4 & H5 & _); [discriminate|].
    auto 6.
Qed.

Lemma single_push_mirror (now : nat) (trips : json) (mergeOnly : bool)
      (c : client) :
  single_push c -> single_push (mirrorTripsToLocal clock now trips mergeOnly c).
Proof.
  destruct (mirror_loop now trips mergeOnly c) as (Hp & _ & _ & [[Ht _]|[Ht _]]);
    apply single_push_same; try exact Hp; rewrite Ht;
    [reflexivity | apply filter_push_lower].
Qed.

End WithClock.

Lemma single_push_run (tm : timer) (now : nat) (c : client) :
  single_push c -> single_push (run_callback (action tm) now c).
Proof.
  destruct (action tm); cbn [run_callback].
  - destruct (pushAllTripsToServer_effect now c) as (_ & _ & Ht & _ & Hp & _).
    apply single_push_same; [|exact Hp]. rewrite Ht. apply filter_push_lower.
  - apply single_push_same; now destruct c.
Qed.

Lemma single_push_advance_n (f now : nat) :
  forall c, single_push c -> single_push (advance_n f now c).
Proof.
  induction f as [|f IH]; intros c H; cbn [advance_n]; [exact H|].
  destruct (next_due now (timers c)) as [tm|]; [|exact H].
  apply IH, single_push_run, single_push_clearTimeout, H.
Qed.

(** *** The flag never stays up *)








Section WithClock2.
Variable clock : nat -> string.



Lemma quotationRequest_loop (trip e o : option json) (c : client) :
  let c' := snd (quotationRequest clock trip e o c) in
  timers c' = timers c /\ pushTimer c' = pushTimer c /\
  suppress c' = suppress c.
Proof.
  unfold quotationRequest. destruct trip as [t|]; [|now cbn].
  destruct (has_id (Some t)); now destruct c.
Qed.

Lemma quotationSettled_mirror (now : nat) (t : json)
      (e o resp : option json) (c : client) :
  quotationSettled clock now t e o resp c = c \/
  exists trips c0,
    quotationSettled clock now t e o resp c =
      mirrorTripsToLocal clock now trips true c0 /\
    timers c0 = timers c /\ pushTimer c0 = pushTimer c /\
    suppress c0 = suppress c /\ nextTimerId c0 = nextTimerId c /\
    pushRuns c0 = pushRuns c /\ sent c0 = sent c.
Proof.
  unfold quotationSettled. destruct resp as [updated|].
  - right. exists (JArr [updated]), c. repeat split.
  - destruct (has_id (Some t)); [|now left].
    right. eexists _, (with_ticks (S (ticks c)) c).
    split; [reflexivity|]. now destruct c.
Qed.

(** One happening keeps both invariants. *)
Lemma happen_single_push (now : nat) (h : happening) (c : client) :
  single_push c -> single_push (happen clock now h c).
Proof.
  intros H. unfold happen. cbv zeta.
  assert (H0 : single_push (advance now c)) by now apply single_push_advance_n.
  destruct h as [k v|trip|trips|resp|trip e o|t e o resp|].
  - now apply single_push_setItem.
  - unfold onTrip. destruct (truthy trip); [|exact H0].
    now apply single_push_mirror.
  - unfold onBulk. destruct trips; try exact H0. now apply single_push_mirror.
  - unfold initialSync. destruct resp as [[| | | |l|]|]; try exact H0.
    now apply single_push_mirror.
  - destruct (quotationRequest_loop trip e o (advance now c)) as (Ht & Hp & _).
    apply (single_push_same (advance now c)); [now rewrite Ht | exact Hp | exact H0].
  - destruct (quotationSettled_mirror now t e o resp (advance now c))
      as [->|(trips & c0 & -> & Ht & Hp & _)]; [exact H0|].
    apply single_push_mirror.
    apply (single_push_same (advance now c)); [now rewrite Ht | exact Hp | exact H0].
  - exact H0.
Qed.


Lemma play_single_push (hs : list (nat * happening)) :
  forall c, single_push c -> single_push (play clock hs c).
Proof.
  induction hs as [|[n h] r IH]; intros c H; [exact H|].
  cbn [play fold_left fst snd]. apply IH. now apply happen_single_push.
Qed.

End WithClock2.

End LoopFacts.

(** ** [pushAllTripsToServer]: what is posted, what is refreshed *)

Module PushFacts.
Import Js JsFacts CanonicalFacts Client RebuildFacts SchedulerFacts.
Import CanonicalSetFacts MirrorMoreFacts.

Lemma In_replace_prop (k : string) (v : json) (o : obj) (kv : string * json) :
  In kv (replace_prop k v o) -> kv = (k, v) \/ In kv o.
Proof.
  induction o as [|[k0 v0] r IH]; cbn [replace_prop In]; [tauto|].
  intros [H|H].
  - destruct (String.eqb_spec k0 k) as [->|]; [now left | right; now left].
  - destruct (IH H); [now left | right; now right].
Qed.

Lemma In_insert_index (n : N) (k : string) (v : json) (o : obj)
      (kv : string * json) :
  In kv (insert_index n k v o) -> kv = (k, v) \/ In kv o.
Proof.
  induction o as [|[k0 v0] r IH]; cbn [insert_index].
  - intros [H|[]]. now left.
  - destruct (array_index k0) as [m|]; [destruct (m <? n)%N|].
    + intros [H|H]; [right; now left|].
      destruct (IH H); [now left | right; now right].
    + intros [H|H]; [now left | now right].
    + intros [H|H]; [now left | now right].
Qed.

Lemma In_obj_set (k : string) (v : json) (o : obj) (kv : string * json) :
  In kv (obj_set k v o) -> kv = (k, v) \/ In kv o.
Proof.
  unfold obj_set. destruct (lookup k o).
  - apply In_replace_prop.
  - destruct (array_index k).
    + apply In_insert_index.
    + intros H. apply in_app_or in H as [H|[H|[]]]; [now right | now left].
Qed.














(** *** The refresh of the canonical map *)



End PushFacts.

(** ** Merge mode as a whole, and the quotation hook *)

Module MergePassFacts.
Import Js JsFacts CanonicalFacts Client ClassifierFacts NormalizerFacts.
Import BucketFacts MirrorFacts RebuildFacts CanonicalSetFacts.
Import MirrorMoreFacts MirrorPassFacts.

Section WithClock.
Variable clock : nat -> string.

Lemma pass_map (now : nat) (items : list json) (mergeOnly : bool)
      (c : client) (list : list json) (n : nat) :
  normalizeAll clock (ticks c) items = (list, n) ->
  globalMap (mirrorTripsToLocal clock now (JArr items) mergeOnly c) =
  fold_left upsertGlobal list (globalMap c).
Proof.
  intros H. destruct list as [|x r].
  - rewrite (mirror_nothing clock now (JArr items) mergeOnly c n H).
    now destruct c.
  - apply (mirror_stores clock now items mergeOnly c _ _ H). discriminate.
Qed.

Lemma pass_ticks (now : nat) (items : list json) (mergeOnly : bool)
      (c : client) (list : list json) (n : nat) :
  normalizeAll clock (ticks c) items = (list, n) ->
  ticks (mirrorTripsToLocal clock now (JArr items) mergeOnly c) = n.
Proof.
  intros H. destruct list as [|x r].
  - rewrite (mirror_nothing clock now (JArr items) mergeOnly c n H).
    now destruct c.
  - apply (mirror_schedule clock now items mergeOnly c _ _ H). discriminate.
Qed.

Lemma merge_pass_buckets (now : nat) (items : list json) (c : client)
      (list : list json) (n : nat) :
  normalizeAll clock (ticks c) items = (list, n) ->
  forall id b, In b buckets ->
    occurrences id
      (bucket_list b
         (deskStore (mirrorTripsToLocal clock now (JArr items) true c))) =
    if carries id list
    then (if last_bucket id list "pending" =? b then 1 else 0)
    else occurrences id (bucket_list b (deskStore c)).
Proof.
  intros H id b Hb. destruct list as [|x r] eqn:El.
  - rewrite (mirror_nothing clock now (JArr items) true c n H).
    now destruct c.
  - rewrite <- El in *.
    destruct (mirror_stores clock now items true c list n H) as [_ Hd];
      [congruence|].
    rewrite Hd. unfold mirrorBuckets. cbn [negb].
    destruct (mergeAll_occurrences list
                (fold_left ensureArray buckets (deskStore c)))
      as (s' & E & Ho).
    + intros b0 Hb0. now apply ensureAll_arrayed.
    + pose proof (normalizeAll_normalized clock items (ticks c)) as Hn.
      now rewrite H in Hn.
    + rewrite E, (Ho id b Hb), ensureAll_bucket_list. reflexivity.
Qed.

(** The fields of a normalized record other than the three it sets. *)
Lemma normalizeTrip_other_fields (n n' : nat) (t : json) (o : obj)
      (f : string) :
  normalizeTrip clock n t = (Some (JObj o), n') ->
  f <> "id" -> f <> "createdAt" -> f <> "updatedAt" ->
  lookup f o = get t f.
Proof.
  rewrite normalizeTrip_unfold.
  destruct (truthy t) eqn:Ht; cbn [negb orb]; [|discriminate].
  destruct (String.eqb_spec (resolved_id t) "") as [|Hid]; [discriminate|].
  cbv zeta. intros H Hf1 Hf2 Hf3. injection H as <- _.
  destruct (resolved_id_object t Hid) as [ot ->].
  apply not_eq_sym, String.eqb_neq in Hf1, Hf2, Hf3.
  rewrite !lookup_obj_set, Hf1, Hf2, Hf3.
  rewrite lookup_assign. cbn [own_props lookup get].
  now destruct (lookup f ot).
Qed.

End WithClock.

(** *** [etgSendQuotation] when the PATCH fails *)

Lemma has_id_inv (t : json) :
  has_id (Some t) = true ->
  exists o v, t = JObj o /\ lookup "id" o = Some v /\ truthy v = true.
Proof.
  unfold has_id. intros H. apply andb_prop in H as [_ H].
  destruct t as [| | | | |o]; try discriminate. cbn [get] in H.
  destruct (lookup "id" o) as [v|] eqn:E; [|discriminate].
  now exists o, v.
Qed.

Lemma resolved_id_of_id (o : obj) (v : json) :
  lookup "id" o = Some v -> truthy v = true ->
  resolved_id (JObj o) = trim (toStr v).
Proof.
  intros H Hv. unfold resolved_id, or_else. cbn [get]. rewrite H.
  cbn [truthy_opt]. rewrite Hv. cbn [truthy_opt]. rewrite Hv.
  cbn [truthy_opt]. now rewrite Hv.
Qed.

Section WithClock2.
Variable clock : nat -> string.

(** The record the fallback mirrors, and what the normalizer makes of it. *)
Lemma fallback_record (t : json) (e o : option json) (c : client) :
  has_id (Some t) = true -> resolved_id t <> "" ->
  let local :=
    JObj (assign (assign (assign [] (entry_props (String_ (get t "id"))
                                                 (readGlobalMap c)))
                         (own_props t))
                 (quotationFields t e o (clock (ticks c)))) in
  exists r n,
    normalizeTrip clock (S (ticks c)) local = (Some (JObj r), n) /\
    lookup "id" r = Some (JStr (resolved_id t)) /\
    (forall f v, In (f, v) (quotationFields t e o (clock (ticks c))) ->
                 lookup f r = Some v).
Proof.
  intros Hid Hne local.
  destruct (has_id_inv t Hid) as (ot & v & -> & Hv & Htv).
  assert (Hl : get local "id" = Some v).
  { unfold local. cbn [get]. rewrite !lookup_assign.
    cbn [quotationFields lookup]. str_eqb. cbn [own_props]. now rewrite Hv. }
  assert (Hr : resolved_id local = resolved_id (JObj ot)).
  { rewrite (resolved_id_of_id ot v Hv Htv).
    exact (resolved_id_of_id _ v Hl Htv). }
  destruct (normalizeTrip clock (S (ticks c)) local) as [[r|] n] eqn:E.
  - destruct (normalizeTrip_accepts clock _ _ _ _ E) as (r0 & -> & _ & Hi & _).
    exists r0, n. split; [reflexivity|]. split; [now rewrite Hi, Hr|].
    intros f w Hin.
    assert (Hq : lookup f (quotationFields (JObj ot) e o (clock (ticks c))) =
                 Some w /\ f <> "id" /\ f <> "createdAt" /\ f <> "updatedAt").
    { cbn [quotationFields In] in Hin.
      destruct Hin as [H|[H|[H|[H|[]]]]]; injection H as <- <-;
        cbn [quotationFields lookup]; str_eqb;
        (split; [reflexivity|]); repeat split; discriminate. }
    destruct Hq as (Hq & H1 & H2 & H3).
    rewrite (normalizeTrip_other_fields clock _ _ _ _ f E H1 H2 H3).
    unfold local. cbn [get]. rewrite lookup_assign. now rewrite Hq.
  - exfalso.
    assert (Hn : fst (normalizeTrip clock (S (ticks c)) local) = None)
      by now rewrite E.
    apply normalizeTrip_rejects in Hn as [Hn|Hn]; [discriminate|].
    apply Hne. now rewrite <- Hr.
Qed.

End WithClock2.

End MergePassFacts.

(** ** The server, further *)

Module ServerMoreFacts.
Import Js JsFacts CanonicalFacts Server ServerFacts CanonicalSetFacts.

Lemma set_trip_lookup (id k : string) (m : json) (s : server) :
  lookup k (trips (store (set_trip id m s))) =
  if id =? k then Some m else lookup k (trips (store s)).
Proof. unfold set_trip. cbn [store trips]. apply lookup_obj_set. Qed.

Lemma set_trip_users (id : string) (m : json) (s : server) :
  users (store (set_trip id m s)) = users (store s).
Proof. reflexivity. Qed.

Lemma trimmed_id_trimmed (t : option json) :
  trim (trimmed_id t) = trimmed_id t.
Proof. unfold trimmed_id. apply trim_idempotent. Qed.

Lemma or_default_truthy (a : option json) (d : json) :
  truthy d = true -> truthy (or_default a d) = true.
Proof.
  intros H. unfold or_default. destruct a as [x|]; [|exact H].
  destruct (truthy x) eqn:E; assumption.
Qed.

(** The response of [GET /api/trips/:id] for a stored record. *)
Lemma get_trip_stored (id : string) (m : json) (s : server) :
  trim id = id -> id <> "" -> truthy m = true ->
  lookup id (trips (store s)) = Some m ->
  get_trip id s = Responded 200 m.
Proof.
  intros Ht Hne Hm Hl. unfold get_trip. rewrite status_text, Ht.
  apply String.eqb_neq in Hne. now rewrite Hne, Hl, Hm.
Qed.

(** A write outcome is neither an event nor a response. *)
Lemma writeData_effect (ok : bool) (s : server) :
  exists w, snd (writeData ok s) = [w] /\
            (w = Persisted (store s) \/ w = PersistFailed).
Proof. destruct ok; eexists; split; try reflexivity; auto. Qed.

Section WithClock.
Variable clock : nat -> string.

(** The fields of a normalized record other than the three it sets: the
    incoming one when there is one, else the stored one. *)
Lemma server_normalizeTrip_fields (s s' : server) (t : option json) (o : obj)
      (f : string) :
  normalizeTrip clock s t = (Some (JObj o), s') ->
  f <> "id" -> f <> "createdAt" -> f <> "updatedAt" ->
  lookup f o =
  match lookup f (match t with Some x => own_props x | None => [] end) with
  | Some v => Some v
  | None => lookup f (own_props (or_default (lookup (trimmed_id t)
                                                    (trips (store s)))
                                            (JObj [])))
  end.
Proof.
  unfold normalizeTrip. destruct (trimmed_id t =? ""); [discriminate|].
  cbv zeta. intros H Hf1 Hf2 Hf3. injection H as <- _.
  apply not_eq_sym, String.eqb_neq in Hf1, Hf2, Hf3.
  rewrite !lookup_obj_set, Hf1, Hf2, Hf3.
  rewrite !lookup_assign. cbn [lookup].
  destruct (lookup f (match t with Some x => own_props x | None => [] end));
    [reflexivity|].
  now destruct (lookup f _).
Qed.

(** The record the server normalizer returns is one the client stores as
    it is. *)
Lemma server_output_stored (s s' : server) (t : option json) (m : json) :
  (forall k, clock k <> "") ->
  normalizeTrip clock s t = (Some m, s') ->
  Client.stored_record (trimmed_id t, m) = true.
Proof.
  intros Hclock H. pose proof H as H0. unfold normalizeTrip in H0.
  destruct (trimmed_id t =? "") eqn:E; [discriminate|].
  cbv zeta in H0. injection H0 as Hm _.
  destruct (server_normalizeTrip_accepts clock _ _ _ _ H)
    as (_ & _ & o & -> & Hid & Hu & Hcr).
  injection Hm as Hm.
  assert (Hnow : truthy (JStr (clock (ticks s))) = true).
  { cbn [truthy]. apply negb_true_iff, String.eqb_neq, Hclock. }
  unfold Client.stored_record. cbn [fst snd]. rewrite Hid, Hcr, Hu.
  cbn [truthy_opt]. rewrite Hnow, (or_default_truthy _ _ Hnow).
  rewrite String.eqb_refl, E, trimmed_id_trimmed, String.eqb_refl.
  cbn [andb negb]. rewrite !andb_true_r.
  rewrite <- Hm.
  do 3 apply obj_set_canonical.
  apply assign_canonical_acc, assign_from_empty_canonical.
Qed.

Lemma upsertEach_all (P : json -> Prop) :
  (forall s t m s1, normalizeTrip clock s t = (Some m, s1) -> P m) ->
  forall (l : list json) (s : server), Forall P (upsertEach clock s l).
Proof.
  intros HP l. induction l as [|t r IH]; intros s; cbn [upsertEach];
    [constructor|].
  destruct (normalizeTrip clock s (Some t)) as [[m|] s1] eqn:E; [|apply IH].
  constructor; [eapply HP; eauto | apply IH].
Qed.

(** *** Properties of the store that every request keeps *)

Section Invariant.
Variable P : server -> Prop.
Hypothesis P_store : forall s s', store s = store s' -> P s -> P s'.
Hypothesis P_step :
  forall s t m s1,
    P s -> normalizeTrip clock s t = (Some m, s1) ->
    P (set_trip (trimmed_id t) m s1).

Lemma handle_invariant (rq : request) (s : server) :
  P s -> P (fst (handle clock rq s)).
Proof.
  intros H.
  assert (Hw : forall ok s0, P s0 -> P (fst (writeData ok s0))).
  { intros ok s0. apply P_store. now rewrite writeData_store. }
  destruct rq as [ok uuid body | ok param body | ok body]; cbn [handle].
  - destruct (post_trip_cases clock ok uuid body s)
      as [[_ ->] | (_ & m & Hm & Hid & ->)]; [exact H|].
    cbn [fst]. apply Hw. rewrite <- Hid at 1. eapply P_step; eauto.
  - destruct (patch_trip_cases clock ok param body s)
      as [[_ ->] | (_ & m & Hm & Hid & ->)]; [exact H|].
    cbn [fst]. apply Hw. rewrite <- Hid at 1. eapply P_step; eauto.
  - destruct (post_bulk_cases clock ok body s) as [[_ ->] | [_ ->]];
      [exact H|].
    cbn [fst]. apply Hw. apply (bulk_loop_invariant clock P); [|exact H].
    intros s0 t m s1 H0 Hn. eapply P_step; eauto.
Qed.

Lemma serve_invariant (rs : list request) :
  forall s, P s -> P (serve clock rs s).
Proof.
  induction rs as [|rq r IH]; intros s H; [exact H|].
  cbn [serve fold_left]. apply IH. now apply handle_invariant.
Qed.

End Invariant.

Lemma well_keyed_step (s s1 : server) (t : option json) (m : json) :
  well_keyed s -> normalizeTrip clock s t = (Some m, s1) ->
  well_keyed (set_trip (trimmed_id t) m s1).
Proof.
  intros H Hn k r. rewrite set_trip_lookup.
  destruct (server_normalizeTrip_accepts clock _ _ _ _ Hn)
    as (Hne & -> & o & -> & Hid & _).
  destruct (String.eqb_spec (trimmed_id t) k) as [<-|].
  - intros E. injection E as <-. repeat split; try assumption.
    apply trimmed_id_trimmed.
  - apply H.
Qed.


(** *** What a request leaves alone *)



(** *** A request that is refused *)

Lemma handle_refused (rq : request) (s s' : server) (effects : list effect)
      (body : json) :
  handle clock rq s = (s', effects) ->
  In (Responded 400 body) effects ->
  s' = s /\ effects = [Responded 400 (error_body "Trip id is required.")] /\
  exists id, names rq = [id] /\ id = "".
Proof.
  intros H Hin.
  assert (Hno : forall ok s0 e m,
             ~ In (Responded 400 body)
                  (snd (writeData ok s0) ++ [Emitted e m; Responded 200 m])).
  { intros ok s0 e m Hi.
    destruct (writeData_effect ok s0) as (w & Hw & Hc). rewrite Hw in Hi.
    cbn [app In] in Hi.
    destruct Hi as [Hi|[Hi|[Hi|[]]]]; try discriminate.
    destruct Hc as [-> | ->]; discriminate. }
  destruct rq as [ok uuid body0 | ok param body0 | ok body0];
    cbn [handle names] in *.
  - destruct (post_trip_cases clock ok uuid body0 s)
      as [[E1 E] | (_ & m & _ & _ & E)]; rewrite E in H;
      injection H as <- <-.
    + repeat split. eexists. split; [reflexivity | exact E1].
    + now apply Hno in Hin.
  - destruct (patch_trip_cases clock ok param body0 s)
      as [[E1 E] | (_ & m & _ & _ & E)]; rewrite E in H;
      injection H as <- <-.
    + repeat split. eexists. split; [reflexivity | exact E1].
    + now apply Hno in Hin.
  - destruct (post_bulk_cases clock ok body0 s) as [[_ E] | [_ E]];
      rewrite E in H; injection H as <- <-.
    + destruct Hin as [Hi|[]]. discriminate.
    + exfalso. destruct (writeData_effect ok
                           (fst (fst (bulk_loop clock (bulk_trips body0) s 0 []))))
        as (w & Hw & Hc).
      rewrite Hw in Hin. cbn [app In] in Hin.
      destruct Hin as [Hi|[Hi|[Hi|[]]]]; try discriminate.
      destruct Hc as [-> | ->]; discriminate.
Qed.

(** The only event of a bulk request is [trip:bulk]. *)
Lemma bulk_events (ok : bool) (body : option json) (s s' : server)
      (effects : list effect) (e : string) (m : json) :
  post_bulk clock ok body s = (s', effects) ->
  In (Emitted e m) effects -> e = "trip:bulk".
Proof.
  intros H Hi.
  destruct (post_bulk_cases clock ok body s) as [[_ E] | [_ E]];
    rewrite E in H; injection H as <- <-.
  - destruct Hi as [Hi|[]]. discriminate.
  - destruct (writeData_effect ok
                (fst (fst (bulk_loop clock (bulk_trips body) s 0 []))))
      as (w & Hw & Hc).
    rewrite Hw in Hi. cbn [app In] in Hi.
    destruct Hi as [Hi|[Hi|[Hi|[]]]]; try discriminate.
    + destruct Hc as [-> | ->]; discriminate.
    + now injection Hi.
Qed.

(** *** The outcome of a request for one record that is not refused *)

Lemma single_outcome (ok : bool) (id : string) (m : json) (s s' : server)
      (e : string) (effects : list effect) :
  (fst (writeData ok (set_trip id m (tick s))),
   snd (writeData ok (set_trip id m (tick s))) ++
   [Emitted e m; Responded 200 m]) = (s', effects) ->
  lookup id (trips (store s')) = Some m /\
  (forall r, In (Responded 200 r) effects -> r = m) /\
  (forall ev r, In (Emitted ev r) effects -> ev = e /\ r = m).
Proof.
  intros H. injection H as <- <-.
  rewrite writeData_store, set_trip_lookup, String.eqb_refl.
  split; [reflexivity|].
  destruct (writeData_effect ok (set_trip id m (tick s))) as (w & -> & Hc).
  cbn [app In].
  split.
  - intros r [Hi|[Hi|[Hi|[]]]]; try discriminate.
    + destruct Hc as [-> | ->]; discriminate.
    + now injection Hi.
  - intros ev r [Hi|[Hi|[Hi|[]]]]; try discriminate.
    + destruct Hc as [-> | ->]; discriminate.
    + injection Hi as <- <-. now split.
Qed.

End WithClock.

(** *** [roleFromEmail] *)

Lemma roleFromEmail_cascade (email : option json) :
  let e := toLowerCase (String_ (or_else email (Some (JStr "")))) in
  roleFromEmail email =
  if includes e "travel" && includes e "desk" then "TRAVEL_DESK"
  else if includes e "manager" || includes e "rm" || includes e "approver"
  then "MANAGER"
  else if includes e "admin" || includes e "super" then "SUPER_ADMIN"
  else "EMPLOYEE".
Proof.
  cbv zeta. unfold roleFromEmail.
  set (e := toLowerCase _).
  destruct (includes e "traveldesk") eqn:E; [|reflexivity].
  rewrite (includes_app_l "travel" "desk" e E).
  now rewrite (includes_app_r "travel" "desk" e E).
Qed.

End ServerMoreFacts.

(** ** From the server's events to the browser's mirror *)

Module EndToEndFacts.
Import Js JsFacts CanonicalFacts Client NormalizerFacts MirrorFacts.
Import RebuildFacts ServerFacts ServerMoreFacts Samples.

Lemma demo_clock_text (k : nat) : demo_clock k <> "".
Proof. unfold demo_clock. cbn. discriminate. Qed.

Lemma normalizeAll_fixed (clock : nat -> string) (l : list json) (n : nat) :
  Forall (fun m => forall k, normalizeTrip clock k m = (Some m, k)) l ->
  normalizeAll clock n l = (l, n).
Proof.
  induction 1 as [|m r Hm _ IH]; cbn [normalizeAll]; [reflexivity|].
  now rewrite Hm, IH.
Qed.

Section WithClock.
Variable clock : nat -> string.

(** Every record of every event a handler emits satisfies what every
    normalized record satisfies. *)
Lemma emitted_records (P : json -> Prop) (rq : Server.request)
      (s s' : Server.server) (effects : list Server.effect)
      (ev : string) (payload : json) :
  (forall s0 t m s1, Server.normalizeTrip clock s0 t = (Some m, s1) -> P m) ->
  Server.handle clock rq s = (s', effects) ->
  In (Server.Emitted ev payload) effects ->
  (ev = "trip:created" \/ ev = "trip:updated" \/ ev = "trip:bulk") /\
  Forall P (records_of ev payload).
Proof.
  intros HP H Hin.
  destruct rq as [ok uuid body | ok param body | ok body];
    cbn [Server.handle] in H.
  - destruct (post_trip_cases clock ok uuid body s)
      as [[_ E] | (_ & m & Hm & _ & E)]; rewrite E in H.
    + injection H as <- <-. destruct Hin as [Hi|[]]. discriminate.
    + destruct (single_outcome _ _ _ _ _ _ _ H) as (_ & _ & He).
      destruct (He ev payload Hin) as [-> ->].
      destruct (truthy_opt _); (split; [tauto|]);
        repeat constructor; eapply HP; eauto.
  - destruct (patch_trip_cases clock ok param body s)
      as [[_ E] | (_ & m & Hm & _ & E)]; rewrite E in H.
    + injection H as <- <-. destruct Hin as [Hi|[]]. discriminate.
    + destruct (single_outcome _ _ _ _ _ _ _ H) as (_ & _ & He).
      destruct (He ev payload Hin) as [-> ->].
      split; [tauto|]. repeat constructor. eapply HP; eauto.
  - destruct (post_bulk_cases clock ok body s) as [[_ E] | [_ E]];
      rewrite E in H; injection H as <- <-.
    + destruct Hin as [Hi|[]]. discriminate.
    + destruct (writeData_effect ok
                  (fst (fst (Server.bulk_loop clock (Server.bulk_trips body) s 0 []))))
        as (w & Hw & Hc).
      rewrite Hw in Hin. cbn [app In] in Hin.
      destruct Hin as [Hi|[Hi|[Hi|[]]]]; try discriminate.
      * destruct Hc as [-> | ->]; discriminate.
      * injection Hi as <- <-. split; [tauto|].
        cbn. now apply upsertEach_all.
Qed.

End WithClock.

End EndToEndFacts.

(** ** The store and the map after an event *)

Module AgreementFacts.
Import Js JsFacts CanonicalFacts Client NormalizerFacts MirrorFacts.
Import RebuildFacts ServerFacts MirrorMoreFacts ServerMoreFacts EndToEndFacts.






Section WithClock.
Variable clock : nat -> string.



End WithClock.

(** What the dispatch of an emitted event amounts to: one merge pass over
    its records, which the normalizer returns as they are. *)
Lemma deliver_pass (clockS clockC : nat -> string) (rq : Server.request)
      (s s' : Server.server) (effects : list Server.effect)
      (ev : string) (payload : json) (now : nat) (c : client) :
  (forall k, clockS k <> "") ->
  Server.handle clockS rq s = (s', effects) ->
  In (Server.Emitted ev payload) effects ->
  normalizeAll clockC (ticks c) (records_of ev payload) =
    (records_of ev payload, ticks c) /\
  deliver clockC now ev payload c =
    mirrorTripsToLocal clockC now (JArr (records_of ev payload)) true c.
Proof.
  intros Hclock H Hin.
  destruct (emitted_records clockS
              (fun r => exists id, stored_record (id, r) = true)
              rq s s' effects ev payload) as [Hev Hall]; try assumption.
  { intros s0 t r s1 Hn. exists (Server.trimmed_id t).
    now apply (server_output_stored clockS s0 s1). }
  assert (E : normalizeAll clockC (ticks c) (records_of ev payload) =
              (records_of ev payload, ticks c)).
  { apply normalizeAll_fixed. eapply Forall_impl; [|exact Hall].
    intros r [id Hid] k. apply (normalizeTrip_stored clockC k (id, r) Hid). }
  split; [exact E|]. clear E.
  destruct Hev as [->|[->| ->]];
    cbn [deliver records_of String.eqb Ascii.eqb Bool.eqb andb orb] in *.
  - inversion Hall as [|? ? [id Hid] _]; subst.
    destruct (stored_record_inv _ Hid) as (o & _ & _ & Ho & _).
    cbn [snd] in Ho. now subst payload.
  - inversion Hall as [|? ? [id Hid] _]; subst.
    destruct (stored_record_inv _ Hid) as (o & _ & _ & Ho & _).
    cbn [snd] in Ho. now subst payload.
  - destruct payload as [| | | |l|]; cbn [onBulk items_of];
      try reflexivity;
      now rewrite (mirror_nothing clockC now (JArr []) true c (ticks c) eq_refl),
        with_ticks_same.
Qed.

End AgreementFacts.


(** ** A pending push and a server event *)

Module PendingPushFacts.
Import Js JsFacts Client MirrorFacts SchedulerFacts MirrorMoreFacts LoopFacts.

Lemma advance_n_stable (f now : nat) (c : client) :
  next_due now (timers c) = None -> advance_n f now c = c.
Proof. intros H. destruct f; cbn [advance_n]; [reflexivity | now rewrite H]. Qed.

Lemma advance_n_add (f1 f2 now : nat) :
  forall c, advance_n (f1 + f2) now c = advance_n f2 now (advance_n f1 now c).
Proof.
  induction f1 as [|f1 IH]; intros c; [reflexivity|].
  cbn [Nat.add advance_n].
  destruct (next_due now (timers c)) as [tm|] eqn:E; [apply IH|].
  now rewrite advance_n_stable.
Qed.

(** Running the timers due from an armed state with fuel to spare. *)
Lemma advance_n_armed_fire (t now k : nat) (c : client) :
  armed t c -> t + 400 <= now ->
  advance_n (2 + k) now c = advance now c.
Proof.
  intros Ha Hle.
  destruct (advance_armed_fire t now c Ha Hle) as [[Ht _] _].
  rewrite advance_n_add.
  assert (E : advance_n 2 now c = advance now c).
  { unfold advance. destruct Ha as (_ & id & -> & _). reflexivity. }
  rewrite E. apply advance_n_stable. now rewrite Ht.
Qed.

Section WithClock.
Variable clock : nat -> string.

(** A mirror pass while a push is pending: the lowering of the flag runs
    first and leaves the push armed as it was. *)
Lemma mirror_keeps_armed (t now later : nat) (trips : json) (mergeOnly : bool)
      (c : client) :
  armed t c -> fresh_ids c -> now < t + 400 -> t + 400 <= later ->
  let c1 := mirrorTripsToLocal clock now trips mergeOnly c in
  exists c2,
    advance later c1 = advance later c2 /\ armed t c2 /\
    pushRuns c2 = pushRuns c /\ sent c2 = sent c /\
    snapshot c2 = snapshot c1.
Proof.
  intros Ha Hf Hlt Hle c1.
  destruct (mirror_loop clock now trips mergeOnly c)
    as (Hp & Hr & Hsn & [[Ht Hs]|[Ht Hs]]); fold c1 in Hp, Hr, Hsn, Ht, Hs.
  - exists c1. split; [reflexivity|]. split; [|auto].
    destruct Ha as (Hs0 & id & Ht0 & Hp0).
    split; [congruence|]. exists id. split; congruence.
  - destruct Ha as (Hs0 & id & Ht0 & Hp0).
    assert (Hid : id < nextTimerId c).
    { apply (Hf (mkTimer id (t + 400) PushAllTrips)). rewrite Ht0. now left. }
    rewrite Ht0 in Ht. cbn [app] in Ht.
    set (L := mkTimer (nextTimerId c) (now + 0) LowerFlag) in *.
    set (P := mkTimer id (t + 400) PushAllTrips) in *.
    assert (Hnext : next_due later (timers c1) = Some L).
    { rewrite Ht. unfold L, P. cbn [next_due due].
      replace (now + 0 <=? later)%nat with true
        by (symmetry; apply Nat.leb_le; lia).
      cbn [due].
      replace (t + 400 <=? now + 0)%nat with false
        by (symmetry; apply Nat.leb_gt; lia).
      now rewrite andb_false_r. }
    exists (with_suppress false (clearTimeout (nextTimerId c) c1)).
    assert (Htc : timers (with_suppress false (clearTimeout (nextTimerId c) c1)) = [P]).
    { destruct c1 as [g1 d1 fl1 pt1 tm1 nid1 tk1 pr1 sn1].
      cbn [timers] in Ht. subst tm1.
      cbn [clearTimeout with_suppress with_timers timers filter timer_id L P].
      rewrite Nat.eqb_refl.
      replace (id =? nextTimerId c)%nat with false
        by (symmetry; apply Nat.eqb_neq; lia).
      reflexivity. }
    assert (Harm : armed t (with_suppress false (clearTimeout (nextTimerId c) c1))).
    { split; [now destruct c1|]. exists id. split; [exact Htc|].
      rewrite <- Hp0, <- Hp. now destruct c1. }
    split; [|split; [exact Harm|]].
    + unfold advance at 1. rewrite Ht. cbn [length Nat.mul Nat.add].
      rewrite (advance_n_fire 3 later c1 L Hnext).
      cbn [action L run_callback timer_id].
      apply (advance_n_armed_fire t later 1 _ Harm Hle).
    + rewrite <- Hr, <- Hsn. now destruct c1.
Qed.

End WithClock.

End PendingPushFacts.

(** ** Repeating a request, repeating an event *)

Module RepeatFacts.
Import Js JsFacts CanonicalFacts Client RebuildFacts CanonicalSetFacts.
Import MirrorMoreFacts MirrorPassFacts PushFacts ServerFacts ServerMoreFacts.

Lemma replace_prop_noop (k : string) (v : json) (o : obj) :
  (forall v', In (k, v') o -> v' = v) -> replace_prop k v o = o.
Proof.
  induction o as [|[k0 v0] r IH]; intros H; cbn [replace_prop]; [reflexivity|].
  rewrite IH by (intros v' Hin; apply H; now right).
  destruct (String.eqb_spec k0 k) as [->|]; [|reflexivity].
  now rewrite (H v0 (or_introl eq_refl)).
Qed.

Lemma replace_prop_bindings (k : string) (v v' : json) (o : obj) :
  In (k, v') (replace_prop k v o) -> v' = v.
Proof.
  induction o as [|[k0 v0] r IH]; cbn [replace_prop In]; [tauto|].
  intros [H|H]; [|now apply IH].
  destruct (String.eqb_spec k0 k) as [->|Hne].
  - now injection H.
  - injection H as H _. contradiction.
Qed.

Lemma obj_set_bindings (k : string) (v v' : json) (o : obj) :
  In (k, v') (obj_set k v o) -> v' = v.
Proof.
  unfold obj_set. destruct (lookup k o) eqn:E.
  - apply replace_prop_bindings.
  - assert (Hn : In (k, v') o -> v' = v).
    { intros Hin. apply lookup_None_iff in E. exfalso. apply E.
      change k with (fst (k, v')). now apply in_map. }
    destruct (array_index k).
    + intros H. apply In_insert_index in H as [H|H]; [now injection H | auto].
    + intros H. apply in_app_or in H as [H|[H|[]]]; [auto | now injection H].
Qed.

Lemma obj_set_twice (k : string) (v : json) (o : obj) :
  obj_set k v (obj_set k v o) = obj_set k v o.
Proof.
  unfold obj_set at 1. rewrite lookup_obj_set_same.
  apply replace_prop_noop. intros v'. apply obj_set_bindings.
Qed.

(** Copying a canonical source over an object leaves an object that holds
    every property of the source; copying the source again changes
    nothing. *)
Lemma assign_again (acc src : obj) :
  canonical acc = true -> canonical src = true ->
  assign (assign acc src) src = assign acc src.
Proof.
  intros Ha Hs. apply assign_same.
  - now apply canonical_NoDup, assign_canonical_acc.
  - intros [k v] Hin. apply In_lookup. rewrite lookup_assign.
    now rewrite (lookup_In _ _ _ (canonical_NoDup _ Hs) Hin).
Qed.

Lemma upsertGlobal_twice (g : obj) (kv : string * json) :
  stored_record kv = true ->
  upsertGlobal (upsertGlobal g (snd kv)) (snd kv) = upsertGlobal g (snd kv).
Proof.
  intros H.
  destruct (stored_record_inv kv H) as (o & x & y & Hr & Hc & _).
  rewrite Hr.
  set (X := assign (assign [] (entry_props (id_of (JObj o)) g)) o).
  assert (E1 : upsertGlobal g (JObj o) = obj_set (id_of (JObj o)) (JObj X) g)
    by reflexivity.
  rewrite E1. unfold upsertGlobal at 1. fold (id_of (JObj o)).
  rewrite lookup_obj_set_same. cbn [or_default truthy own_props].
  assert (HX : canonical X = true)
    by apply assign_canonical_acc, assign_from_empty_canonical.
  rewrite (assign_canonical X HX).
  unfold X at 1. rewrite assign_again;
    [| apply assign_from_empty_canonical | exact Hc].
  fold X. apply obj_set_twice.
Qed.

Lemma filter_twice {A : Type} (p : A -> bool) (l : list A) :
  filter p (filter p l) = filter p l.
Proof.
  induction l as [|x r IH]; [reflexivity|]. cbn [filter].
  destruct (p x) eqn:E; cbn [filter]; [rewrite E; f_equal|]; exact IH.
Qed.

Section WithClock.
Variable clock : nat -> string.
Hypothesis clock_text : forall k, clock k <> "".


End WithClock.

End RepeatFacts.


(** ** A bulk upsert as a sequence of creates *)

Module BulkSequenceFacts.
Import Js JsFacts CanonicalFacts CanonicalSetFacts Server ServerFacts.
Import ServerMoreFacts.

(** *** Overwriting one key commutes with defining another *)

Lemma replace_prop_comm_ne (k k0 : string) (x v0 : json) (o : obj) :
  k0 <> k ->
  replace_prop k x (replace_prop k0 v0 o) =
  replace_prop k0 v0 (replace_prop k x o).
Proof.
  intros Hne.
  induction o as [|[k1 v1] r IH]; cbn [replace_prop]; [reflexivity|].
  rewrite IH. f_equal.
  destruct (String.eqb_spec k1 k0) as [->|H0].
  - apply String.eqb_neq in Hne. rewrite Hne. now rewrite String.eqb_refl.
  - destruct (String.eqb_spec k1 k) as [->|H1];
      apply String.eqb_neq in H0; now rewrite H0.
Qed.

Lemma replace_prop_insert_ne (k k0 : string) (x v0 : json) (n : N) (o : obj) :
  k0 <> k ->
  replace_prop k x (insert_index n k0 v0 o) =
  insert_index n k0 v0 (replace_prop k x o).
Proof.
  intros Hne. apply String.eqb_neq in Hne.
  induction o as [|[k1 v1] r IH]; cbn [insert_index replace_prop].
  - now rewrite Hne.
  - assert (E : array_index (fst (if k1 =? k then (k1, x) else (k1, v1))) =
                array_index k1) by now destruct (k1 =? k).
    destruct (k1 =? k) eqn:E1; cbn [fst] in E;
      destruct (array_index k1) as [m|];
      try destruct (m <? n)%N; cbn [replace_prop];
      rewrite ?E1, ?Hne, ?IH; reflexivity.
Qed.

Lemma replace_prop_app (k : string) (x : json) (o1 o2 : obj) :
  replace_prop k x (o1 ++ o2) = replace_prop k x o1 ++ replace_prop k x o2.
Proof.
  induction o1 as [|[k1 v1] r IH]; cbn [app replace_prop]; [reflexivity|].
  now rewrite IH.
Qed.

(** Overwriting [k] after defining another key: the same as defining the
    other key after overwriting [k]. *)
Lemma replace_prop_obj_set_ne (k k0 : string) (x v0 : json) (o : obj) :
  k0 <> k ->
  replace_prop k x (obj_set k0 v0 o) = obj_set k0 v0 (replace_prop k x o).
Proof.
  intros Hne. unfold obj_set.
  rewrite (lookup_replace_prop_other k k0 x o) by congruence.
  destruct (lookup k0 o).
  - now apply replace_prop_comm_ne.
  - destruct (array_index k0).
    + now apply replace_prop_insert_ne.
    + rewrite replace_prop_app. cbn [replace_prop].
      apply String.eqb_neq in Hne. now rewrite Hne.
Qed.

Lemma replace_prop_absent (k : string) (x : json) (o : obj) :
  lookup k o = None -> replace_prop k x o = o.
Proof.
  intros H. apply lookup_None_iff in H.
  induction o as [|[k1 v1] r IH]; cbn [replace_prop]; [reflexivity|].
  rewrite IH by (intros Hin; apply H; now right).
  destruct (String.eqb_spec k1 k) as [->|]; [|reflexivity].
  exfalso. apply H. now left.
Qed.

Lemma replace_prop_again (k : string) (x y : json) (o : obj) :
  replace_prop k x (replace_prop k y o) = replace_prop k x o.
Proof.
  induction o as [|[k1 v1] r IH]; cbn [replace_prop]; [reflexivity|].
  rewrite IH. f_equal.
  destruct (String.eqb_spec k1 k) as [->|H1].
  - now rewrite String.eqb_refl.
  - apply String.eqb_neq in H1. now rewrite H1.
Qed.

Lemma replace_prop_insert_same (k : string) (x y : json) (n : N) (o : obj) :
  lookup k o = None ->
  replace_prop k x (insert_index n k y o) = insert_index n k x o.
Proof.
  intros H.
  induction o as [|[k1 v1] r IH]; cbn [insert_index replace_prop].
  - now rewrite String.eqb_refl.
  - cbn [lookup] in H.
    destruct (lookup k r) eqn:Er; [discriminate|].
    destruct (k1 =? k) eqn:E1; [discriminate|].
    destruct (array_index k1) as [m|]; [destruct (m <? n)%N|];
      cbn [replace_prop]; rewrite ?E1, ?String.eqb_refl.
    + now rewrite IH.
    + f_equal. f_equal. apply replace_prop_absent. exact Er.
    + f_equal. f_equal. apply replace_prop_absent. exact Er.
Qed.

(** Whatever value [k] was given, overwriting it yields what defining it
    with the final value yields. *)
Lemma replace_prop_obj_set_same (k : string) (x y : json) (o : obj) :
  replace_prop k x (obj_set k y o) = obj_set k x o.
Proof.
  unfold obj_set. destruct (lookup k o) eqn:E.
  - apply replace_prop_again.
  - destruct (array_index k).
    + now apply replace_prop_insert_same.
    + rewrite replace_prop_app, (replace_prop_absent k x o E).
      cbn [replace_prop]. now rewrite String.eqb_refl.
Qed.

Lemma lookup_replace_prop_None (k : string) (x : json) (o : obj) (k' : string) :
  lookup k' (replace_prop k x o) = None <-> lookup k' o = None.
Proof.
  rewrite !lookup_None_iff. now rewrite keys_replace_prop.
Qed.

(** Two objects that agree once [k] is overwritten agree once [k] is
    defined. *)
Lemma obj_set_agree (k : string) (x : json) (o1 o2 : obj) :
  replace_prop k x o1 = replace_prop k x o2 ->
  obj_set k x o1 = obj_set k x o2.
Proof.
  intros H.
  rewrite <- (replace_prop_obj_set_same k x x o1).
  rewrite <- (replace_prop_obj_set_same k x x o2).
  assert (Hl : lookup k o1 = None <-> lookup k o2 = None).
  { rewrite <- (lookup_replace_prop_None k x o1 k), H.
    apply lookup_replace_prop_None. }
  unfold obj_set.
  destruct (lookup k o1) eqn:E1, (lookup k o2) eqn:E2.
  - now rewrite !replace_prop_again.
  - destruct Hl as [_ Hl]. now specialize (Hl eq_refl).
  - destruct Hl as [Hl _]. now specialize (Hl eq_refl).
  - rewrite (replace_prop_absent k x o1 E1) in H.
    rewrite (replace_prop_absent k x o2 E2) in H. now subst o2.
Qed.

(** Copying a source whose [k] was overwritten, or the source itself: no
    difference once [k] is overwritten in the result. *)
Lemma assign_agree (k : string) (x y : json) (src : obj) :
  forall a1 a2 : obj,
    replace_prop k x a1 = replace_prop k x a2 ->
    replace_prop k x (assign a1 (replace_prop k y src)) =
    replace_prop k x (assign a2 src).
Proof.
  unfold assign.
  induction src as [|[k0 v0] r IH]; intros a1 a2 H; [exact H|].
  cbn [replace_prop fold_left].
  destruct (String.eqb_spec k0 k) as [->|Hne]; cbn [fst snd]; apply IH.
  - rewrite !replace_prop_obj_set_same. now apply obj_set_agree.
  - rewrite !replace_prop_obj_set_ne by exact Hne. now rewrite H.
Qed.

Section WithClock.
Variable clock : nat -> string.

(** [normalizeTrip] reads the store and the clock, nothing else. *)
Lemma normalizeTrip_reads (s s' : server) (t : option json) :
  store s = store s' -> ticks s = ticks s' ->
  fst (normalizeTrip clock s' t) = fst (normalizeTrip clock s t).
Proof.
  intros Hs Ht. unfold normalizeTrip.
  destruct (trimmed_id t =? ""); [reflexivity|].
  cbv zeta. cbn [fst]. now rewrite Hs, Ht.
Qed.

(** [{ ...trip, id }] with the trimmed id of [trip] normalizes as [trip]
    does. *)
Lemma normalizeTrip_with_id (s : server) (o : obj) :
  canonical o = true ->
  accepted (JObj o) = true ->
  fst (normalizeTrip clock s
         (Some (with_id (JObj o) (trimmed_id (Some (JObj o)))))) =
  fst (normalizeTrip clock s (Some (JObj o))).
Proof.
  intros Hc Ha.
  set (id := trimmed_id (Some (JObj o))).
  assert (Hid : trimmed_id (Some (with_id (JObj o) id)) = id).
  { rewrite trimmed_id_with_id. apply trimmed_id_trimmed. }
  assert (Hne : id <> "") by now apply accepted_iff.
  assert (Hin : lookup "id" o <> None).
  { unfold accepted, missing_or_blank in Ha. cbn [get] in Ha.
    destruct (lookup "id" o); [discriminate | discriminate]. }
  unfold normalizeTrip. rewrite Hid. fold id.
  apply String.eqb_neq in Hne. rewrite Hne. cbv zeta. cbn [fst].
  f_equal. f_equal.
  assert (Hw : own_props (with_id (JObj o) id) = replace_prop "id" (JStr id) o).
  { unfold with_id. cbn [own_props]. rewrite (assign_canonical o Hc).
    unfold obj_set. destruct (lookup "id" o); [reflexivity | contradiction]. }
  assert (Hcr : get_opt (Some (with_id (JObj o) id)) "createdAt" =
                get_opt (Some (JObj o)) "createdAt").
  { cbn [get_opt]. unfold with_id. cbn [get].
    rewrite lookup_obj_set_other by discriminate.
    cbn [own_props]. now rewrite (assign_canonical o Hc). }
  rewrite Hcr, Hw.
  set (A := assign [] (own_props _)).
  set (cr := or_default _ _).
  change (assign ?a [("id", ?i); ("createdAt", ?c); ("updatedAt", ?u)])
    with (obj_set "updatedAt" u (obj_set "createdAt" c (obj_set "id" i a))).
  do 2 f_equal.
  apply obj_set_agree. now apply assign_agree.
Qed.

(** The loop of the bulk handler and the accepted entries created one by
    one leave the same store and the same clock. *)
Lemma bulk_loop_as_creates (ok : bool) (uuid : string) (l : list json) :
  forall (s s' : server) (u : nat) (ch : list json),
    Forall (fun t => match t with JObj o => canonical o = true | _ => True end) l ->
    store s = store s' -> ticks s = ticks s' ->
    store (fst (fst (bulk_loop clock l s u ch))) =
      store (serve clock (map (fun t => PostTrip ok uuid (Some t))
                              (filter accepted l)) s') /\
    ticks (fst (fst (bulk_loop clock l s u ch))) =
      ticks (serve clock (map (fun t => PostTrip ok uuid (Some t))
                              (filter accepted l)) s').
Proof.
  induction l as [|t r IH]; intros s s' u ch Hwf Hs Ht; [now split|].
  inversion Hwf as [|? ? Hc Hr]; subst.
  cbn [filter]. destruct (accepted t) eqn:Ha.
  - destruct (bulk_loop_step clock t r s u ch Ha) as (m & Hm & _ & ->).
    cbn [map serve fold_left handle].
    change (fold_left _ (map ?f ?x) ?y) with (serve clock (map f x) y).
    assert (Ho : exists o, t = JObj o).
    { unfold accepted, missing_or_blank in Ha.
      destruct t; try discriminate. now eexists. }
    destruct Ho as [o ->].
    assert (Hidp : trim (String_ (or_else (get (or_default (Some (JObj o)) (JObj []))
                                               "id")
                                          (Some (JStr uuid)))) =
                   trimmed_id (Some (JObj o))).
    { unfold trimmed_id, accepted, missing_or_blank in *.
      cbn [or_default truthy get get_opt] in *.
      unfold or_else. destruct (lookup "id" o) as [v|]; [|discriminate].
      cbn [truthy_opt]. destruct (truthy v); [reflexivity | discriminate]. }
    destruct (post_trip_cases clock ok uuid (Some (JObj o)) s')
      as [[E _] | (_ & m' & Hm' & _ & ->)].
    + rewrite Hidp in E. apply accepted_iff in Ha. contradiction.
    + cbn [fst]. rewrite Hidp in *. cbn [or_default truthy] in Hm'.
      assert (Em : m' = m).
      { pose proof (normalizeTrip_with_id s' o Hc Ha) as H1.
        pose proof (normalizeTrip_reads s s' (Some (JObj o)) Hs Ht) as H2.
        rewrite Hm' in H1. rewrite <- H1, Hm in H2. cbn [fst] in H2.
        now injection H2. }
      subst m'. apply IH; [exact Hr | |].
      * rewrite writeData_store. unfold set_trip, tick. cbn [store trips users].
        now rewrite Hs.
      * assert (Hw : forall x, ticks (fst (writeData ok x)) = ticks x)
          by (intros x; now destruct ok).
        rewrite Hw. unfold set_trip, tick. cbn [ticks]. now rewrite Ht.
  - rewrite (bulk_loop_skip clock t r s u ch Ha). now apply IH.
Qed.

End WithClock.

End BulkSequenceFacts.


(** ** The initial sync against the server's list *)

Module InitialSyncFacts.
Import Js JsFacts CanonicalFacts Client NormalizerFacts MirrorFacts.
Import RebuildFacts CanonicalSetFacts MirrorMoreFacts MirrorPassFacts.
Import ServerFacts ServerMoreFacts EndToEndFacts AgreementFacts.

Section WithCollation.
Variable localeCompare : string -> string -> Z.




End WithCollation.


Section WithClock.
Variable clock : nat -> string.
Hypothesis clock_text : forall k, clock k <> "".



End WithClock.

End InitialSyncFacts.


(** ** The canonical map under mirror passes *)

Module MapInvariantFacts.
Import Js JsFacts CanonicalFacts Client NormalizerFacts MirrorFacts.
Import RebuildFacts CanonicalSetFacts MirrorMoreFacts MirrorPassFacts.
Import PushFacts NormalizerMoreFacts.

Lemma upsertGlobal_mirrored (g : obj) (kv : string * json) :
  mirrored_map g = true -> stored_record kv = true ->
  mirrored_map (upsertGlobal g (snd kv)) = true.
Proof.
  unfold mirrored_map. intros Hg Hkv.
  apply andb_prop in Hg as [Hc Hall].
  destruct (stored_record_inv kv Hkv)
    as (o & x & y & Hr & Hco & Hid & Ht & Hne & Hx & Hxt & Hy & Hyt).
  rewrite Hr.
  assert (Hk : id_of (JObj o) = fst kv).
  { unfold id_of. cbn [get]. now rewrite Hid. }
  set (X := assign (assign [] (entry_props (id_of (JObj o)) g)) o).
  assert (E : upsertGlobal g (JObj o) = obj_set (id_of (JObj o)) (JObj X) g)
    by reflexivity.
  rewrite E. apply andb_true_intro. split; [now apply obj_set_canonical|].
  apply forallb_forall. intros [k v] Hin.
  apply In_obj_set in Hin as [Hin|Hin].
  - injection Hin as -> ->. unfold stored_record. cbn [fst snd].
    assert (HX : canonical X = true)
      by apply assign_canonical_acc, assign_from_empty_canonical.
    unfold X at 2 3 4. rewrite HX, !lookup_assign, Hid, Hx, Hy, Hk.
    cbn [truthy_opt]. rewrite Hxt, Hyt, Ht, !String.eqb_refl.
    apply String.eqb_neq in Hne. now rewrite Hne.
  - rewrite forallb_forall in Hall. now apply Hall.
Qed.

Lemma upsertAll_mirrored (list : list json) :
  forall g : obj,
    mirrored_map g = true ->
    Forall (fun tr => exists id, stored_record (id, tr) = true) list ->
    mirrored_map (fold_left upsertGlobal list g) = true.
Proof.
  induction list as [|tr r IH]; intros g Hg Hall; [exact Hg|].
  inversion Hall as [|? ? [id Hid] Hr]; subst.
  cbn [fold_left]. apply IH; [|exact Hr].
  exact (upsertGlobal_mirrored g (id, tr) Hg Hid).
Qed.

Section WithClock.
Variable clock : nat -> string.
Hypothesis clock_text : forall k, clock k <> "".

Lemma normalizeAll_output_stored (l : list json) :
  forall n,
    Forall (fun tr => exists id, stored_record (id, tr) = true)
           (fst (normalizeAll clock n l)).
Proof.
  induction l as [|t r IH]; intros n; cbn [normalizeAll]; [constructor|].
  destruct (normalizeTrip clock n t) as [[tr|] n1] eqn:E;
    specialize (IH n1); destruct (normalizeAll clock n1 r) as [rest n2];
    cbn [fst] in *; [|exact IH].
  constructor; [|exact IH]. exists (resolved_id t).
  eapply normalizeTrip_output_stored; eauto.
Qed.

End WithClock.

End MapInvariantFacts.


(* ================================================================== *)
(** * Part IV: further properties, stated                              *)
(* ================================================================== *)

Import CanonicalSetFacts MirrorMoreFacts ClassifierMoreFacts NormalizerMoreFacts.
Import MirrorPassFacts LoopFacts PushFacts MergePassFacts ServerMoreFacts.
Import EndToEndFacts AgreementFacts PendingPushFacts RepeatFacts.
Import BulkSequenceFacts InitialSyncFacts MapInvariantFacts.

(** ** The classifier and the client normalizer *)


(** X2.  The client normalizer is idempotent: a record it returned is
    returned unchanged by any later pass, and that pass reads no clock.  The
    readings of the clock are taken to be non-empty texts, as ISO timestamps
    are. *)
Theorem client_normalizer_is_idempotent :
  forall (clock : nat -> string) (n n' : nat) (t r : json),
    (forall k, clock k <> "") ->
    normalizeTrip clock n t = (Some r, n') ->
    forall m, normalizeTrip clock m r = (Some r, m).
Proof.
  intros clock n n' t r Hclock H m.
  apply (normalizeTrip_stored clock m (resolved_id t, r)).
  eapply normalizeTrip_output_stored; eauto.
Qed.

Lemma client_normalizer_is_idempotent_witness :
  exists r,
    normalizeTrip demo_clock 0
      (JObj [("reqId", JStr " r7 "); ("status", JStr "Approved")]) = (Some r, 2) /\
    normalizeTrip demo_clock 5 r = (Some r, 5).
Proof.
  eexists. split; [reflexivity|].
  apply (client_normalizer_is_idempotent demo_clock 0 2
           (JObj [("reqId", JStr " r7 "); ("status", JStr "Approved")]));
    [apply demo_clock_text | reflexivity].
Defined.

(** ** A mirror pass *)




(** X5.  A mirror pass, in either mode and whether or not it throws, leaves
    every key of the bucket store other than the six buckets as it was. *)
Theorem mirror_touches_only_the_six_buckets :
  forall (clock : nat -> string) (now : nat) (trips : json)
         (mergeOnly : bool) (c : client) (k : string),
    ~ In k buckets ->
    lookup k (deskStore (mirrorTripsToLocal clock now trips mergeOnly c)) =
    lookup k (deskStore c).
Proof.
  intros clock now trips mergeOnly c k Hk.
  destruct (normalizeAll clock (ticks c) (items_of trips)) as [list n] eqn:E.
  destruct list as [|x r] eqn:El.
  - rewrite (mirror_nothing clock now trips mergeOnly c n E). now destruct c.
  - change (mirrorTripsToLocal clock now trips mergeOnly c)
      with (mirrorTripsToLocal clock now (JArr (items_of trips)) mergeOnly c).
    destruct (mirror_stores clock now (items_of trips) mergeOnly c _ n E)
      as [_ Hd]; [discriminate|].
    rewrite Hd.
    destruct (mirrorBuckets mergeOnly _ _ (deskStore c)) as [s'|] eqn:Em;
      [|reflexivity].
    eapply mirrorBuckets_frame; eauto.
Qed.

Lemma mirror_touches_only_the_six_buckets_witness :
  let c := with_deskStore [("drafts", JArr [JObj [("id", JStr "d1")]]);
                           ("pending", JStr "stale")] fresh_client in
  ~ In "drafts" buckets /\
  lookup "drafts"
    (deskStore (mirrorTripsToLocal demo_clock 3
                  (JArr [JObj [("id", JStr "t1"); ("status", JStr "Approved")]])
                  false c)) =
  lookup "drafts" (deskStore c).
Proof.
  assert (H : ~ In "drafts" buckets).
  { cbn. intros H. repeat (destruct H as [H|H]; [discriminate|]). exact H. }
  split; [exact H|].
  apply (mirror_touches_only_the_six_buckets demo_clock 3
           (JArr [JObj [("id", JStr "t1"); ("status", JStr "Approved")]])
           false _ "drafts" H).
Defined.

(** X6.  Rebuild mode (the initial sync) leaves in each bucket exactly the
    entries of the canonical map, as it stands after the pass, whose status
    classifies to that bucket, in the order of the map; whatever the buckets
    held before is dropped.  This holds when at least one pulled record is
    accepted and no entry of the map is [null]. *)
Theorem rebuild_drops_stale_entries :
  forall (clock : nat -> string) (now : nat) (items : list json) (c : client)
         (b : string),
    let c' := initialSync clock now (Some (JArr items)) c in
    fst (normalizeAll clock (ticks c) items) <> [] ->
    (forall kv, In kv (globalMap c') -> snd kv <> JNull) ->
    In b buckets ->
    bucket_list b (deskStore c') =
    filter (fun r => statusBucket (get r "status") =? b) (values (globalMap c')).
Proof.
  intros clock now items c b. cbn [initialSync]. cbv zeta.
  destruct (normalizeAll clock (ticks c) items) as [list n] eqn:E.
  cbn [fst]. intros Hne Hnn Hb.
  destruct (mirror_stores clock now items false c list n E Hne) as [Hg Hd].
  rewrite Hg in Hnn. rewrite Hd, Hg.
  destruct (rebuild_buckets (fold_left upsertGlobal list (globalMap c)) list
                            (deskStore c) Hnn) as (s' & Es & Hl).
  rewrite Es. now apply Hl.
Qed.

Lemma rebuild_drops_stale_entries_witness :
  let items := [JObj [("id", JStr "t3"); ("status", JStr "Approved")]] in
  let c' := initialSync demo_clock 3 (Some (JArr items)) demo_client in
  bucket_list "pending" (deskStore c') =
  filter (fun r => statusBucket (get r "status") =? "pending")
         (values (globalMap c')).
Proof.
  apply (rebuild_drops_stale_entries demo_clock 3
           [JObj [("id", JStr "t3"); ("status", JStr "Approved")]]
           demo_client "pending").
  - discriminate.
  - intros kv H. vm_compute in H.
    destruct H as [<-|[<-|[]]]; discriminate.
  - cbn; tauto.
Defined.

(** X7.  A [null] entry in the canonical map, under an id the pulled records
    do not carry, makes rebuild mode throw before the bucket store is
    written: the initial sync updates the map and leaves the bucket store
    exactly as it was; the flag is raised and its lowering scheduled all the
    same. *)
Theorem rebuild_stops_at_a_null_entry :
  forall (clock : nat -> string) (now : nat) (items : list json) (c : client)
         (k : string),
    let list := fst (normalizeAll clock (ticks c) items) in
    let c' := initialSync clock now (Some (JArr items)) c in
    list <> [] ->
    lookup k (globalMap c) = Some JNull ->
    carries k list = false ->
    deskStore c' = deskStore c /\
    globalMap c' = fold_left upsertGlobal list (globalMap c) /\
    suppress c' = true /\
    timers c' = timers c ++ [mkTimer (nextTimerId c) (now + 0) LowerFlag].
Proof.
  intros clock now items c k. cbn [initialSync]. cbv zeta.
  destruct (normalizeAll clock (ticks c) items) as [list n] eqn:E.
  cbn [fst]. intros Hne Hk Hc.
  destruct (mirror_stores clock now items false c list n E Hne) as [Hg Hd].
  destruct (mirror_schedule clock now items false c list n E Hne)
    as (Ht & Hs & _).
  rewrite Hd, Hg, (rebuild_buckets_null _ list (deskStore c) k).
  - auto.
  - now rewrite upsertAll_other.
Qed.

Lemma rebuild_stops_at_a_null_entry_witness :
  let items := [JObj [("id", JStr "t3"); ("status", JStr "Approved")]] in
  let c := with_globalMap [("t0", JNull)] demo_client in
  let c' := initialSync demo_clock 3 (Some (JArr items)) c in
  deskStore c' = deskStore c /\
  globalMap c' =
    fold_left upsertGlobal (fst (normalizeAll demo_clock (ticks c) items))
              (globalMap c) /\
  suppress c' = true /\
  timers c' = timers c ++ [mkTimer (nextTimerId c) (3 + 0) LowerFlag].
Proof.
  apply (rebuild_stops_at_a_null_entry demo_clock 3
           [JObj [("id", JStr "t3"); ("status", JStr "Approved")]]
           (with_globalMap [("t0", JNull)] demo_client) "t0");
    [discriminate | reflexivity | reflexivity].
Defined.

(** X8.  Handling a server event or the initial sync never causes a push:
    from a state with no pending timer and the flag down, once the timers
    due have run after a mirror pass the state is again without pending
    timer and with the flag down, and nothing was pushed or posted. *)
Theorem mirror_pass_triggers_no_push :
  forall (clock : nat -> string) (now later : nat) (trips : json)
         (mergeOnly : bool) (c : client),
    quiescent c -> now <= later ->
    let c' := advance later (mirrorTripsToLocal clock now trips mergeOnly c) in
    quiescent c' /\ pushRuns c' = pushRuns c /\ sent c' = sent c /\
    pushTimer c' = pushTimer c.
Proof.
  intros clock now later trips mergeOnly c [Ht Hs] Hle. cbv zeta.
  destruct (mirror_loop clock now trips mergeOnly c)
    as (Hp & Hr & Hsn & [[Ht' Hs']|[Ht' Hs']]).
  - rewrite advance_quiescent by congruence.
    repeat split; congruence.
  - rewrite Ht in Ht'. cbn [app] in Ht'.
    rewrite (advance_lower_only (now + 0) later _ _ Ht') by lia.
    destruct (mirrorTripsToLocal clock now trips mergeOnly c).
    cbn in *. repeat split; assumption.
Qed.

Lemma mirror_pass_triggers_no_push_witness :
  let trip := JObj [("id", JStr "t1"); ("status", JStr "Approved")] in
  let c' := advance 3 (mirrorTripsToLocal demo_clock 3 (JArr [trip]) true
                                          fresh_client) in
  quiescent c' /\ pushRuns c' = pushRuns fresh_client /\
  sent c' = sent fresh_client /\ pushTimer c' = pushTimer fresh_client.
Proof.
  apply (mirror_pass_triggers_no_push demo_clock 3 3
           (JArr [JObj [("id", JStr "t1"); ("status", JStr "Approved")]])
           true fresh_client); [split; reflexivity | lia].
Defined.

(** ** The event loop *)



(** X10.  At most one push timer is ever pending, and [pushTimer] holds its
    id: the property holds initially and is kept by every page write, server
    event, initial sync, quotation and timer run, in any order. *)
Theorem at_most_one_push_is_pending :
  forall (clock : nat -> string) (hs : list (nat * happening)) (c : client),
    single_push c ->
    let c' := play clock hs c in
    single_push c' /\
    length (filter is_push (timers c')) <= 1 /\
    (forall tm, In tm (timers c') -> is_push tm = true ->
                pushTimer c' = Some (timer_id tm)).
Proof.
  intros clock hs c H. cbv zeta.
  pose proof (play_single_push clock hs c H) as H'.
  split; [exact H'|].
  unfold single_push in H'.
  assert (Hf : forall tm, In tm (timers (play clock hs c)) -> is_push tm = true ->
                          In tm (filter is_push (timers (play clock hs c)))).
  { intros tm Hin Hp. apply filter_In. now split. }
  destruct (filter is_push (timers (play clock hs c))) as [|tm [|tm2 r]];
    [| |contradiction].
  - split; [cbn; lia|]. intros tm Hin Hp. destruct (Hf tm Hin Hp).
  - split; [cbn; lia|]. intros tm0 Hin Hp.
    destruct (Hf tm0 Hin Hp) as [<-|[]]. exact H'.
Qed.

Lemma at_most_one_push_is_pending_witness :
  let hs := [(0, PageWrites "etg-trips" []);
             (100, TripArrives (JObj [("id", JStr "t1")]));
             (200, PageWrites "etg-trips-global" []);
             (900, PageWrites "etg-trips" [])] in
  let c' := play demo_clock hs fresh_client in
  single_push c' /\
  length (filter is_push (timers c')) <= 1 /\
  (forall tm, In tm (timers c') -> is_push tm = true ->
              pushTimer c' = Some (timer_id tm)).
Proof.
  apply (at_most_one_push_is_pending demo_clock
           [(0, PageWrites "etg-trips" []);
            (100, TripArrives (JObj [("id", JStr "t1")]));
            (200, PageWrites "etg-trips-global" []);
            (900, PageWrites "etg-trips" [])]
           fresh_client).
  exact I.
Defined.

(** ** The push *)



(** ** The quotation hook *)

(** X13.  When the PATCH of [etgSendQuotation] fails, the flow continues
    locally: for a trip whose [id] is truthy and not blank, the canonical
    map then holds, under the trimmed id, an object with the four quotation
    fields (the status "Quotation Sent to User", the HTML, the options, the
    time of sending), and the id occurs exactly once in the six buckets, in
    [pending]. *)
Theorem failed_quotation_is_mirrored_as_pending :
  forall (clock : nat -> string) (now : nat) (t : json)
         (emailHtml options : option json) (c : client),
    has_id (Some t) = true ->
    resolved_id t <> "" ->
    let c' := quotationSettled clock now t emailHtml options None c in
    (exists r,
       lookup (resolved_id t) (globalMap c') = Some (JObj r) /\
       lookup "status" r = Some (JStr "Quotation Sent to User") /\
       lookup "quotationHtml" r = Some (or_default emailHtml (JStr "")) /\
       lookup "quotationOptions" r = Some (quotationOptions t options) /\
       lookup "quotationSentAt" r = Some (JStr (clock (ticks c)))) /\
    forall b, In b buckets ->
      occurrences (resolved_id t) (bucket_list b (deskStore c')) =
      if b =? "pending" then 1 else 0.
Proof.
  intros clock now t e o c Hid Hne. cbv zeta.
  unfold quotationSettled. rewrite Hid.
  destruct (fallback_record clock t e o c Hid Hne) as (r & n & En & Hi & Hq).
  cbv zeta in En. unfold entry_props in En.
  set (local := JObj _) in *.
  set (c1 := with_ticks (S (ticks c)) c).
  assert (E : normalizeAll clock (ticks c1) [local] = ([JObj r], n)).
  { apply normalizeAll_single. now destruct c. }
  assert (Hr : id_of (JObj r) = resolved_id t).
  { unfold id_of. cbn [get]. now rewrite Hi. }
  assert (Hst : lookup "status" r = Some (JStr "Quotation Sent to User")).
  { apply Hq. now left. }
  split.
  - rewrite (pass_map clock now [local] true c1 _ n E). cbn [fold_left].
    rewrite <- Hr, upsertGlobal_same. eexists. split; [reflexivity|].
    rewrite !lookup_assign. cbn [own_props].
    rewrite Hst, (Hq "quotationHtml" (or_default e (JStr ""))),
      (Hq "quotationOptions" (quotationOptions t o)),
      (Hq "quotationSentAt" (JStr (clock (ticks c))));
      cbn [quotationFields In]; auto 6.
  - intros b Hb.
    rewrite (merge_pass_buckets clock now [local] c1 _ n E _ b Hb).
    cbn [carries existsb last_bucket fold_left]. rewrite Hr, String.eqb_refl.
    cbn [orb get]. rewrite Hst.
    change (statusBucket (Some (JStr "Quotation Sent to User"))) with "pending".
    now rewrite (eqb_sym b "pending").
Qed.

Lemma failed_quotation_is_mirrored_as_pending_witness :
  let t := JObj [("id", JStr " t1 "); ("status", JStr "Approved")] in
  let c' := quotationSettled demo_clock 7 t (Some (JStr "<p>offer</p>")) None
                             None demo_client in
  (exists r,
     lookup (resolved_id t) (globalMap c') = Some (JObj r) /\
     lookup "status" r = Some (JStr "Quotation Sent to User") /\
     lookup "quotationHtml" r =
       Some (or_default (Some (JStr "<p>offer</p>")) (JStr "")) /\
     lookup "quotationOptions" r = Some (quotationOptions t None) /\
     lookup "quotationSentAt" r = Some (JStr (demo_clock (ticks demo_client)))) /\
  forall b, In b buckets ->
    occurrences (resolved_id t) (bucket_list b (deskStore c')) =
    if b =? "pending" then 1 else 0.
Proof.
  apply (failed_quotation_is_mirrored_as_pending demo_clock 7
           (JObj [("id", JStr " t1 "); ("status", JStr "Approved")])
           (Some (JStr "<p>offer</p>")) None demo_client);
    [reflexivity | discriminate].
Defined.

(** ** The server *)

(** X14.  What a create or an update answers is what a read returns next:
    after a request that emitted [trip:created] or [trip:updated] with a
    record, the response carried that record and [GET /api/trips/:id] for
    its id answers 200 with the same record, whether or not the write to
    [data.json] succeeded. *)
Theorem stored_record_is_read_back :
  forall (clock : nat -> string) (rq : Server.request)
         (s s' : Server.server) (effects : list Server.effect) (m : json),
    Server.handle clock rq s = (s', effects) ->
    In (Server.Emitted "trip:created" m) effects \/
    In (Server.Emitted "trip:updated" m) effects ->
    In (Server.Responded 200 m) effects /\
    Server.get_trip (id_of m) s' = Server.Responded 200 m.
Proof.
  intros clock rq s s' effects m H Hev.
  assert (Hcore : forall ok id m0 t e,
             id <> "" ->
             Server.normalizeTrip clock s t = (Some m0, Server.tick s) ->
             Server.trimmed_id t = id ->
             (fst (Server.writeData ok (Server.set_trip id m0 (Server.tick s))),
              snd (Server.writeData ok (Server.set_trip id m0 (Server.tick s))) ++
              [Server.Emitted e m0; Server.Responded 200 m0]) = (s', effects) ->
             In (Server.Responded 200 m) effects /\
             Server.get_trip (id_of m) s' = Server.Responded 200 m).
  { intros ok id m0 t e Hne Hn Hid Hout.
    destruct (single_outcome _ _ _ _ _ _ _ Hout) as (Hl & _ & He).
    assert (Hm : m = m0) by (destruct Hev as [Hi|Hi]; now apply He in Hi).
    subst m0. split.
    - injection Hout as _ <-. apply in_or_app. right. right. now left.
    - destruct (server_normalizeTrip_accepts clock _ _ _ _ Hn)
        as (_ & _ & o & -> & Ho & _).
      unfold id_of. cbn [get]. rewrite Ho, Hid. cbn [String_ toStr].
      apply get_trip_stored; try assumption; try reflexivity.
      rewrite <- Hid. apply trimmed_id_trimmed. }
  destruct rq as [ok uuid body | ok param body | ok body];
    cbn [Server.handle] in H.
  - destruct (post_trip_cases clock ok uuid body s)
      as [[_ E] | (Hne & m0 & Hm & Hid & E)]; rewrite E in H.
    + injection H as <- <-.
      destruct Hev as [[Hi|[]]|[Hi|[]]]; discriminate.
    + eapply Hcore; eauto.
  - destruct (patch_trip_cases clock ok param body s)
      as [[_ E] | (Hne & m0 & Hm & Hid & E)]; rewrite E in H.
    + injection H as <- <-.
      destruct Hev as [[Hi|[]]|[Hi|[]]]; discriminate.
    + eapply Hcore; eauto.
  - destruct Hev as [Hi|Hi];
      apply (bulk_events clock _ _ _ _ _ _ _ H) in Hi; discriminate.
Qed.

Lemma stored_record_is_read_back_witness :
  let out := Server.post_trip demo_clock false "uuid-1"
               (Some (JObj [("id", JStr " t1 "); ("status", JStr "Pending")]))
               fresh_server in
  let m := JObj [("id", JStr "t1"); ("status", JStr "Pending");
                 ("createdAt", JStr (demo_clock 0));
                 ("updatedAt", JStr (demo_clock 0))] in
  In (Server.Responded 200 m) (snd out) /\
  Server.get_trip (id_of m) (fst out) = Server.Responded 200 m.
Proof.
  apply (stored_record_is_read_back demo_clock
           (Server.PostTrip false "uuid-1"
              (Some (JObj [("id", JStr " t1 "); ("status", JStr "Pending")])))
           fresh_server).
  - reflexivity.
  - left. cbn. right. left. reflexivity.
Defined.

(** X15.  A PATCH is a shallow merge over the stored record: the answer
    carries the trimmed route id whatever the body says, and every other
    field except the two timestamps is the body's when the body has it and
    the stored record's otherwise. *)
Theorem patch_keeps_the_fields_it_does_not_mention :
  forall (clock : nat -> string) (ok : bool) (param : string)
         (body : option json) (s s' : Server.server)
         (effects : list Server.effect) (m : json),
    Server.patch_trip clock ok param body s = (s', effects) ->
    In (Server.Responded 200 m) effects ->
    get m "id" = Some (JStr (trim param)) /\
    forall f, f <> "id" -> f <> "createdAt" -> f <> "updatedAt" ->
      get m f =
      match lookup f (own_props (or_default body (JObj []))) with
      | Some v => Some v
      | None =>
          lookup f (own_props
                      (or_default (lookup (trim param)
                                          (Server.trips (Server.store s)))
                                  (JObj [])))
      end.
Proof.
  intros clock ok param body s s' effects m H Hin.
  destruct (patch_trip_cases clock ok param body s)
    as [[_ E] | (Hne & m0 & Hm & Hid & E)]; rewrite E in H.
  - injection H as <- <-. destruct Hin as [Hi|[]]. discriminate.
  - destruct (single_outcome _ _ _ _ _ _ _ H) as (_ & Hr & _).
    rewrite (Hr m Hin).
    destruct (server_normalizeTrip_accepts clock _ _ _ _ Hm)
      as (_ & _ & o & -> & Ho & _).
    cbn [get]. rewrite Ho, Hid. split; [reflexivity|].
    intros f H1 H2 H3.
    rewrite (server_normalizeTrip_fields clock _ _ _ _ f Hm H1 H2 H3), Hid.
    unfold Server.with_id. cbn [own_props].
    rewrite lookup_obj_set_other by congruence.
    rewrite lookup_assign. cbn [lookup].
    now destruct (lookup f (own_props (or_default body (JObj [])))).
Qed.

Lemma patch_keeps_the_fields_it_does_not_mention_witness :
  let s := Server.mkServer
             (Server.mkData
                [("t1", JObj [("id", JStr "t1"); ("status", JStr "Pending");
                              ("quotationOptions", JArr [JStr "A"])])] [])
             (Server.mkData [] []) 0 in
  let body := Some (JObj [("id", JStr "other"); ("status", JStr "Approved")]) in
  let m := JObj [("id", JStr "t1"); ("status", JStr "Approved");
                 ("quotationOptions", JArr [JStr "A"]);
                 ("createdAt", JStr (demo_clock 0));
                 ("updatedAt", JStr (demo_clock 0))] in
  get m "id" = Some (JStr (trim " t1 ")) /\
  forall f, f <> "id" -> f <> "createdAt" -> f <> "updatedAt" ->
    get m f =
    match lookup f (own_props (or_default body (JObj []))) with
    | Some v => Some v
    | None =>
        lookup f (own_props
                    (or_default (lookup (trim " t1 ")
                                        (Server.trips (Server.store s)))
                                (JObj [])))
    end.
Proof.
  apply (patch_keeps_the_fields_it_does_not_mention demo_clock true " t1 "
           (Some (JObj [("id", JStr "other"); ("status", JStr "Approved")]))
           (Server.mkServer
              (Server.mkData
                 [("t1", JObj [("id", JStr "t1"); ("status", JStr "Pending");
                               ("quotationOptions", JArr [JStr "A"])])] [])
              (Server.mkData [] []) 0)
           _ _ _ eq_refl).
  cbn. right. right. left. reflexivity.
Defined.

(** X16.  A request that is answered 400 did nothing else: the store, the
    durable copy and the clock are as before, nothing was written and no
    event was emitted; and it is a request for one record whose id is
    blank. *)
Theorem refused_request_changes_nothing :
  forall (clock : nat -> string) (rq : Server.request)
         (s s' : Server.server) (effects : list Server.effect) (body : json),
    Server.handle clock rq s = (s', effects) ->
    In (Server.Responded 400 body) effects ->
    s' = s /\
    effects = [Server.Responded 400 (Server.error_body "Trip id is required.")] /\
    Server.names rq = [""].
Proof.
  intros clock rq s s' effects body H Hin.
  destruct (handle_refused clock rq s s' effects body H Hin)
    as (Hs & He & id & Hn & ->).
  auto.
Qed.

Lemma refused_request_changes_nothing_witness :
  let rq := Server.PatchTrip true "   " (Some (JObj [("status", JStr "Approved")])) in
  fst (Server.handle demo_clock rq fresh_server) = fresh_server /\
  snd (Server.handle demo_clock rq fresh_server) =
    [Server.Responded 400 (Server.error_body "Trip id is required.")] /\
  Server.names rq = [""].
Proof.
  apply (refused_request_changes_nothing demo_clock
           (Server.PatchTrip true "   " (Some (JObj [("status", JStr "Approved")])))
           fresh_server _ _ (Server.error_body "Trip id is required.")).
  - reflexivity.
  - left. reflexivity.
Defined.



(** X18.  The store stays keyed by id: if every stored record carries, as
    its [id], the key it is stored under, trimmed and not empty, then the
    same holds after any sequence of creates, updates and bulk upserts; it
    holds of the empty store. *)
Theorem store_stays_keyed_by_id :
  forall (clock : nat -> string) (rs : list Server.request)
         (s : Server.server),
    Server.well_keyed s -> Server.well_keyed (Server.serve clock rs s).
Proof.
  intros clock rs s H.
  apply (serve_invariant clock Server.well_keyed); try assumption.
  - intros s0 s1 Hs H0 k r. rewrite <- Hs. apply H0.
  - intros s0 t m s1. apply well_keyed_step.
Qed.

Lemma store_stays_keyed_by_id_witness :
  Server.well_keyed fresh_server /\
  Server.well_keyed
    (Server.serve demo_clock
       [Server.PostTrip true "u1" (Some (JObj [("id", JStr " t1 ")]));
        Server.PostBulk false bulk_example]
       fresh_server).
Proof.
  assert (H : Server.well_keyed fresh_server).
  { intros k r Hl. discriminate Hl. }
  split; [exact H|].
  apply (store_stays_keyed_by_id demo_clock _ fresh_server H).
Defined.



(** ** From the server to the browser *)







(** ** The demo roles *)

(** X23.  [roleFromEmail] answers one of the four roles and depends only on
    which keywords the lower-cased address contains: the test for
    "traveldesk" adds nothing to the test for "travel" and "desk", so the
    role is TRAVEL_DESK exactly when both occur, else MANAGER when
    "manager", "rm" or "approver" occurs, else SUPER_ADMIN when "admin" or
    "super" occurs, else EMPLOYEE. *)
Theorem roleFromEmail_reads_keywords :
  forall email : option json,
    let e := toLowerCase (String_ (or_else email (Some (JStr "")))) in
    In (Server.roleFromEmail email)
       ["TRAVEL_DESK"; "MANAGER"; "SUPER_ADMIN"; "EMPLOYEE"] /\
    (Server.roleFromEmail email = "TRAVEL_DESK" <->
     includes e "travel" && includes e "desk" = true) /\
    (Server.roleFromEmail email = "MANAGER" <->
     includes e "travel" && includes e "desk" = false /\
     includes e "manager" || includes e "rm" || includes e "approver" = true) /\
    (Server.roleFromEmail email = "EMPLOYEE" <->
     includes e "travel" && includes e "desk" = false /\
     includes e "manager" || includes e "rm" || includes e "approver" = false /\
     includes e "admin" || includes e "super" = false).
Proof.
  intros email. pose proof (roleFromEmail_cascade email) as H.
  cbv zeta in *. rewrite H.
  set (e := toLowerCase _).
  destruct (includes e "travel" && includes e "desk");
    destruct (includes e "manager" || includes e "rm" || includes e "approver");
    destruct (includes e "admin" || includes e "super");
    cbn [In]; repeat split; try tauto; try discriminate;
    intros; intuition discriminate.
Qed.

(** ** Repetition and interleaving *)

(** X24.  A server event does not cancel or delay a pending push.  When a
    push is armed for [t + 400] and a mirror pass runs before that time, the
    lowering of the flag runs first, the push still runs at [t + 400], once,
    and posts the records the two slots hold after the pass; no timer is
    left pending.  Timer ids are taken to be fresh, as [setTimeout] gives
    them out. *)
Theorem pending_push_survives_a_server_event :
  forall (clock : nat -> string) (t now later : nat) (trips : json)
         (mergeOnly : bool) (c : client),
    armed t c -> fresh_ids c -> now < t + 400 -> t + 400 <= later ->
    let c1 := mirrorTripsToLocal clock now trips mergeOnly c in
    let c' := advance later c1 in
    quiescent c' /\
    pushRuns c' = pushRuns c ++ [t + 400] /\
    sent c' =
      sent c ++ match snapshot c1 with [] => [] | l => [(t + 400, l)] end.
Proof.
  intros clock t now later trips mergeOnly c Ha Hf Hlt Hle. cbv zeta.
  destruct (mirror_keeps_armed clock t now later trips mergeOnly c Ha Hf Hlt Hle)
    as (c2 & -> & Ha2 & Hr & Hs & Hsn).
  destruct (advance_armed_fire t later c2 Ha2 Hle) as (Hq & Hr' & Hs').
  rewrite Hr', Hs', Hr, Hs, Hsn. auto.
Qed.

Lemma pending_push_survives_a_server_event_witness :
  let c := pageWrite "etg-trips" [] 0 fresh_client in
  let c1 := mirrorTripsToLocal demo_clock 100
              (JArr [JObj [("id", JStr "t1"); ("status", JStr "Approved")]])
              true c in
  let c' := advance 400 c1 in
  quiescent c' /\
  pushRuns c' = pushRuns c ++ [0 + 400] /\
  sent c' = sent c ++ match snapshot c1 with [] => [] | l => [(0 + 400, l)] end.
Proof.
  apply (pending_push_survives_a_server_event demo_clock 0 100 400
           (JArr [JObj [("id", JStr "t1"); ("status", JStr "Approved")]])
           true (pageWrite "etg-trips" [] 0 fresh_client)).
  - split; [reflexivity|]. exists 1. split; reflexivity.
  - intros tm [<-|[]]. cbn. lia.
  - lia.
  - lia.
Defined.



(** X26.  Delivering a server event twice is harmless: when a browser
    handles a [trip:created] or [trip:updated] event the server emitted a
    second time, the canonical map and the six bucket lists stay exactly as
    the first handling left them, and neither handling reads the browser's
    clock. *)
Theorem delivering_an_event_twice_is_harmless :
  forall (clockS clockC : nat -> string) (rq : Server.request)
         (s s' : Server.server) (effects : list Server.effect)
         (ev : string) (m : json) (now now' : nat) (c : client),
    (forall k, clockS k <> "") ->
    Server.handle clockS rq s = (s', effects) ->
    In (Server.Emitted ev m) effects ->
    ev <> "trip:bulk" ->
    let c1 := deliver clockC now ev m c in
    let c2 := deliver clockC now' ev m c1 in
    globalMap c2 = globalMap c1 /\
    (forall b, In b buckets ->
       bucket_list b (deskStore c2) = bucket_list b (deskStore c1)) /\
    ticks c2 = ticks c.
Proof.
  intros clockS clockC rq s s' effects ev m now now' c Hclock H Hin Hev.
  cbv zeta.
  destruct (deliver_pass clockS clockC rq s s' effects ev m now c
                         Hclock H Hin) as [E1 ->].
  destruct (deliver_pass clockS clockC rq s s' effects ev m now'
              (mirrorTripsToLocal clockC now (JArr (records_of ev m)) true c)
              Hclock H Hin) as [E2 ->].
  destruct (emitted_records clockS
              (fun r => exists id, stored_record (id, r) = true)
              rq s s' effects ev m) as [Hev3 Hall]; try assumption.
  { intros s0 t r s1 Hn. exists (Server.trimmed_id t).
    now apply (server_output_stored clockS s0 s1). }
  assert (Hr : records_of ev m = [m]).
  { destruct Hev3 as [->|[->| ->]]; [reflexivity | reflexivity | contradiction]. }
  rewrite Hr in *. inversion Hall as [|? ? [id Hst] _]; subst.
  set (c1 := mirrorTripsToLocal clockC now (JArr [m]) true c) in *.
  split; [|split].
  - rewrite (pass_map clockC now' [m] true c1 _ _ E2).
    unfold c1. rewrite (pass_map clockC now [m] true c _ _ E1).
    cbn [fold_left]. apply (upsertGlobal_twice _ (id, m) Hst).
  - intros b Hb.
    pose proof (merge_stored_record clockC now' (id, m) c1 Hst b Hb) as H2.
    pose proof (merge_stored_record clockC now (id, m) c Hst b Hb) as H1.
    cbn [fst snd] in H1, H2. fold c1 in H1. rewrite H2, H1.
    rewrite filter_app, filter_twice. f_equal.
    destruct (statusBucket (get m "status") =? b); [|reflexivity].
    pose proof (proj1 (entry_id_stored (id, m) Hst)) as He.
    cbn [fst snd] in He. cbn [filter]. now rewrite He, String.eqb_refl.
  - rewrite (pass_ticks clockC now' [m] true c1 _ _ E2).
    unfold c1. apply (pass_ticks clockC now [m] true c _ _ E1).
Qed.

Lemma delivering_an_event_twice_is_harmless_witness :
  let m := JObj [("id", JStr "t1"); ("status", JStr "Approved");
                 ("createdAt", JStr (demo_clock 0));
                 ("updatedAt", JStr (demo_clock 0))] in
  let c1 := deliver demo_clock 7 "trip:created" m demo_client in
  let c2 := deliver demo_clock 9 "trip:created" m c1 in
  globalMap c2 = globalMap c1 /\
  (forall b, In b buckets ->
     bucket_list b (deskStore c2) = bucket_list b (deskStore c1)) /\
  ticks c2 = ticks demo_client.
Proof.
  apply (delivering_an_event_twice_is_harmless demo_clock demo_clock
           (Server.PostTrip true "u1"
              (Some (JObj [("id", JStr "t1"); ("status", JStr "Approved")])))
           fresh_server _ _ "trip:created" _ 7 9 demo_client
           demo_clock_text eq_refl).
  - cbn. right. left. reflexivity.
  - discriminate.
Defined.

(** X27.  A write made in the same turn as a mirror pass, before the
    zero-delay timer has lowered the flag, is stored but never pushed: the
    slot holds the written value, no push timer is armed, and once the
    timers due have run nothing was pushed or posted and no timer is
    pending. *)
Theorem write_while_flag_is_up_is_not_pushed :
  forall (clock : nat -> string) (now later : nat) (items : list json)
         (mergeOnly : bool) (k : string) (v : obj) (c : client),
    quiescent c -> now <= later ->
    fst (normalizeAll clock (ticks c) items) <> [] ->
    let c1 := setItem now k v
                (mirrorTripsToLocal clock now (JArr items) mergeOnly c) in
    let c' := advance later c1 in
    (k = "etg-trips" -> deskStore c' = v) /\
    (k = "etg-trips-global" -> globalMap c' = v) /\
    quiescent c' /\ pushRuns c' = pushRuns c /\ sent c' = sent c /\
    pushTimer c' = pushTimer c.
Proof.
  intros clock now later items mergeOnly k v c [Ht Hs] Hle Hne. cbv zeta.
  destruct (normalizeAll clock (ticks c) items) as [list n] eqn:E.
  cbn [fst] in Hne.
  destruct (mirror_schedule clock now items mergeOnly c list n E Hne)
    as (Ht0 & Hs0 & Hp0 & Hr0 & Hsn0 & _).
  set (c0 := mirrorTripsToLocal clock now (JArr items) mergeOnly c) in *.
  destruct (orig_setItem_loop k v c0) as (Ht1 & Hp1 & Hs1 & _ & Hr1 & Hsn1).
  destruct (setItem_cases now k v c0) as [[_ ->]|(Hf & _)]; [|congruence].
  rewrite Ht in Ht0. cbn [app] in Ht0. rewrite Ht0 in Ht1.
  rewrite (advance_lower_only (now + 0) later _ _ Ht1) by lia.
  split; [|split].
  - intros ->. unfold orig_setItem. cbn [String.eqb Ascii.eqb Bool.eqb andb].
    now destruct c0.
  - intros ->. unfold orig_setItem. cbn [String.eqb Ascii.eqb Bool.eqb andb].
    now destruct c0.
  - destruct (orig_setItem k v c0). cbn in *.
    repeat split; congruence.
Qed.

Lemma write_while_flag_is_up_is_not_pushed_witness :
  let items := [JObj [("id", JStr "t1"); ("status", JStr "Approved")]] in
  let v := [("pending", JArr [JObj [("id", JStr "t2")]])] in
  let c1 := setItem 5 "etg-trips" v
              (mirrorTripsToLocal demo_clock 5 (JArr items) true fresh_client) in
  let c' := advance 1000 c1 in
  ("etg-trips" = "etg-trips" -> deskStore c' = v) /\
  ("etg-trips" = "etg-trips-global" -> globalMap c' = v) /\
  quiescent c' /\ pushRuns c' = pushRuns fresh_client /\
  sent c' = sent fresh_client /\ pushTimer c' = pushTimer fresh_client.
Proof.
  apply (write_while_flag_is_up_is_not_pushed demo_clock 5 1000
           [JObj [("id", JStr "t1"); ("status", JStr "Approved")]]
           true "etg-trips" [("pending", JArr [JObj [("id", JStr "t2")]])]
           fresh_client).
  - split; reflexivity.
  - lia.
  - discriminate.
Defined.

(** X28.  A bulk upsert leaves the store and the clock exactly as creating
    its accepted entries one by one, in order, would: wrapping an entry as
    [{ ...trip, id }] does not change what the normalizer returns.  The
    entries are objects as [JSON.parse] builds them (no key twice, index
    keys first). *)
Theorem bulk_upsert_is_a_sequence_of_creates :
  forall (clock : nat -> string) (ok ok' : bool) (uuid : string)
         (body : option json) (s : Server.server),
    Forall (fun t => match t with
                     | JObj o => canonical o = true
                     | _ => True
                     end)
           (Server.bulk_trips body) ->
    let creates := map (fun t => Server.PostTrip ok' uuid (Some t))
                       (filter Server.accepted (Server.bulk_trips body)) in
    Server.store (fst (Server.post_bulk clock ok body s)) =
      Server.store (Server.serve clock creates s) /\
    Server.ticks (fst (Server.post_bulk clock ok body s)) =
      Server.ticks (Server.serve clock creates s).
Proof.
  intros clock ok ok' uuid body s Hwf. cbv zeta.
  destruct (post_bulk_cases clock ok body s) as [[E ->] | [_ ->]].
  - rewrite E. now split.
  - cbv zeta. cbn [fst]. rewrite writeData_store.
    assert (Hw : forall x, Server.ticks (fst (Server.writeData ok x)) =
                           Server.ticks x)
      by (intros x; now destruct ok).
    rewrite Hw. now apply bulk_loop_as_creates.
Qed.

Lemma bulk_upsert_is_a_sequence_of_creates_witness :
  let creates := [Server.PostTrip false "u1" (Some (JObj [("id", JStr "a")]));
                  Server.PostTrip false "u1" (Some (JObj [("id", JStr "b")]))] in
  Server.store (fst (Server.post_bulk demo_clock true bulk_example fresh_server)) =
    Server.store (Server.serve demo_clock creates fresh_server) /\
  Server.ticks (fst (Server.post_bulk demo_clock true bulk_example fresh_server)) =
    Server.ticks (Server.serve demo_clock creates fresh_server).
Proof.
  apply (bulk_upsert_is_a_sequence_of_creates demo_clock true false "u1"
           bulk_example fresh_server).
  repeat constructor.
Defined.



(** X30.  Mirror passes keep the canonical map normalized: if the map has
    no key twice and every entry is an object with unique keys that carries
    its key as [id] (trimmed, not empty) and both timestamps, the same holds
    after a pass in either mode, whatever it was given; it holds of the
    empty map.  The readings of the clock are taken to be non-empty
    texts. *)
Theorem mirror_keeps_the_map_normalized :
  forall (clock : nat -> string) (now : nat) (trips : json)
         (mergeOnly : bool) (c : client),
    (forall k, clock k <> "") ->
    mirrored_map (globalMap c) = true ->
    mirrored_map (globalMap (mirrorTripsToLocal clock now trips mergeOnly c))
    = true.
Proof.
  intros clock now trips mergeOnly c Hclock Hg.
  pose proof (normalizeAll_output_stored clock Hclock (items_of trips) (ticks c))
    as Hall.
  destruct (normalizeAll clock (ticks c) (items_of trips)) as [list n] eqn:E.
  cbn [fst] in Hall.
  change (mirrorTripsToLocal clock now trips mergeOnly c)
    with (mirrorTripsToLocal clock now (JArr (items_of trips)) mergeOnly c).
  rewrite (pass_map clock now (items_of trips) mergeOnly c list n E).
  now apply upsertAll_mirrored.
Qed.

Lemma mirror_keeps_the_map_normalized_witness :
  mirrored_map (globalMap fresh_client) = true /\
  mirrored_map
    (globalMap
       (mirrorTripsToLocal demo_clock 3
          (JArr [JObj [("reqId", JStr " r7 "); ("status", JStr "Approved")];
                 JNull; JObj [("id", JStr "t1")]])
          false fresh_client)) = true.
Proof.
  split; [reflexivity|].
  apply (mirror_keeps_the_map_normalized demo_clock 3 _ false fresh_client
           demo_clock_text).
  reflexivity.
Defined.
